(** * libraryconvert.py: a shallow embedding and its verified properties

    The program mirrors a source tree into a destination tree: files with
    one of the [--from] extensions are converted by an external command,
    files with a [--copy] extension are copied, destination files without
    a source counterpart are deleted.

    Layout of this file
    - [PyStr]:   the Python string and [os.path] primitives the script uses
    - [Tree]:    directory trees, [os.scandir] and [os.walk]
    - [Effects]: events, results, the monad the effectful code runs in
    - [Script]:  the functions of libraryconvert.py, one definition each
    - [Samples]: concrete trees, environments and command lines
    - the notions the statements use
    - the properties: the monad, the command template, the worker count,
      extension normalization, simulation mode, the merge loop, the walk,
      sorting, the listing. *)

From Stdlib Require Import List ZArith Bool Ascii String Lia.
From Stdlib Require Import Sorting.Sorted Sorting.Permutation.
From Stdlib Require Import Structures.OrderedTypeEx.
Import ListNotations.

Set Warnings "-register-all".
Local Open Scope list_scope.

(* ================================================================== *)
(** ** Python strings and [os.path] (POSIX flavour) *)
(* ================================================================== *)

Module PyStr.

(** Python [str] values are modelled as [string]: sequences of characters
    compared by code point, which is what [String.compare] does. *)

Definition str_eq (a b : string) : bool := String.eqb a b.
Definition str_gt (a b : string) : bool :=
  match String.compare a b with Gt => true | _ => false end.
Definition str_lt (a b : string) : bool :=
  match String.compare a b with Lt => true | _ => false end.

(** [x in l] for a list of strings. *)
Definition str_in (x : string) (l : list string) : bool :=
  existsb (str_eq x) l.

(** [s[:n]] and [s[n:]] for [0 <= n]. *)
Fixpoint str_take (n : nat) (s : string) : string :=
  match n, s with
  | S n', String c s' => String c (str_take n' s')
  | _, _ => EmptyString
  end.

Fixpoint str_drop (n : nat) (s : string) : string :=
  match n, s with
  | S n', String _ s' => str_drop n' s'
  | _, _ => s
  end.

(** [s[i]] as an option: [None] is Python's IndexError. *)
Definition str_at (i : nat) (s : string) : option ascii := String.get i s.

Definition slash : ascii := "/"%char.
Definition dot : ascii := "."%char.

(** [s.rfind(c)] for a one-character [c]: the highest index, or -1. *)
Fixpoint rfind_from (c : ascii) (s : string) (pos found : Z) : Z :=
  match s with
  | EmptyString => found
  | String a s' =>
      rfind_from c s' (pos + 1) (if Ascii.eqb a c then pos else found)
  end.

Definition rfind (c : ascii) (s : string) : Z := rfind_from c s 0 (-1).

(** [s.startswith("/")], [s.endswith("/")]. *)
Definition startswith_slash (s : string) : bool :=
  match s with String c _ => Ascii.eqb c slash | EmptyString => false end.

Fixpoint endswith_slash (s : string) : bool :=
  match s with
  | EmptyString => false
  | String c EmptyString => Ascii.eqb c slash
  | String _ s' => endswith_slash s'
  end.

(** [s.rstrip("/")]. *)
Fixpoint rstrip_slash (s : string) : string :=
  match s with
  | EmptyString => EmptyString
  | String c s' =>
      match rstrip_slash s' with
      | EmptyString => if Ascii.eqb c slash then EmptyString
                       else String c EmptyString
      | r => String c r
      end
  end.

Fixpoint all_slashes (s : string) : bool :=
  match s with
  | EmptyString => true
  | String c s' => Ascii.eqb c slash && all_slashes s'
  end.

(** [s.split(",")]: one piece more than there are separators, empty
    pieces included. *)
Fixpoint split_on (sep : ascii) (s : string) : list string :=
  match s with
  | EmptyString => [EmptyString]
  | String c s' =>
      if Ascii.eqb c sep then EmptyString :: split_on sep s'
      else match split_on sep s' with
           | p :: ps => String c p :: ps
           | [] => [String c EmptyString]
           end
  end.

(** [s.lower()] on the ASCII letters. *)
Definition lower_char (c : ascii) : ascii :=
  let n := nat_of_ascii c in
  if (65 <=? n)%nat && (n <=? 90)%nat then ascii_of_nat (n + 32) else c.

Fixpoint lower (s : string) : string :=
  match s with
  | EmptyString => EmptyString
  | String c s' => String (lower_char c) (lower s')
  end.

(** [posixpath.join(a, b)]. *)
Definition join (a b : string) : string :=
  if startswith_slash b then b
  else if (str_eq a EmptyString || endswith_slash a)%bool then (a ++ b)%string
  else (a ++ String slash b)%string.

(** [posixpath.split(p)]: [(head, tail)]. *)
Definition split (p : string) : string * string :=
  let i := Z.to_nat (rfind slash p + 1) in
  let head := str_take i p in
  let tail := str_drop i p in
  let head := if (negb (str_eq head EmptyString) && negb (all_slashes head))%bool
              then rstrip_slash head else head in
  (head, tail).

(** [genericpath._splitext(p, "/", None, ".")]: the extension starts at the
    last dot of the last path component, unless only dots precede it
    there. The inner [while] scans [p[filenameIndex:dotIndex]] for a
    character that is not a dot. *)
Fixpoint has_non_dot (fuel : nat) (p : string) (filenameIndex : Z) : bool :=
  match fuel with
  | O => false
  | S fuel' =>
      match str_at (Z.to_nat filenameIndex) p with
      | Some c =>
          if negb (Ascii.eqb c dot) then true
          else has_non_dot fuel' p (filenameIndex + 1)
      | None => true
      end
  end.

Definition splitext (p : string) : string * string :=
  let sepIndex := rfind slash p in
  let dotIndex := rfind dot p in
  if (dotIndex >? sepIndex)%Z then
    let filenameIndex := (sepIndex + 1)%Z in
    if has_non_dot (Z.to_nat (dotIndex - filenameIndex)) p filenameIndex
    then (str_take (Z.to_nat dotIndex) p, str_drop (Z.to_nat dotIndex) p)
    else (p, EmptyString)
  else (p, EmptyString).

End PyStr.


Import PyStr.

(* ================================================================== *)
(** ** Results and exceptions *)
(* ================================================================== *)

(** The exceptions the script can meet, and [SystemExit] kept apart as
    [Exited] with its status. A call that never returns (a [q.join()]
    that waits for a job no worker will mark done, a converter that
    never ends) gives [Blocked]. *)
Inductive exn :=
| IndexError | TypeError | OSError | EOFError
| RuntimeError | UnicodeDecodeError | KeyboardInterrupt.

Inductive result (A : Type) :=
| Ok (a : A)
| Raised (e : exn)
| Exited (code : Z)
| Blocked.

Arguments Ok {A} a.
Arguments Raised {A} e.
Arguments Exited {A} code.
Arguments Blocked {A}.

(* ================================================================== *)
(** ** Directory trees, [os.scandir] and [os.walk] *)
(* ================================================================== *)

Module Tree.

(** What a directory entry can be. [is_dir()] follows symbolic links, so
    a link to a directory is a [Dir] with [is_link = true]; everything
    else is a non-directory, whatever its kind. *)
Inductive kind := Regular | Special | LinkToFile | BrokenLink.

Inductive node :=
| NonDir (k : kind)
| Dir (readable : bool) (is_link : bool) (entries : list (string * node)).

Definition entries_t := list (string * node).

Definition is_dir (n : node) : bool :=
  match n with Dir _ _ _ => true | NonDir _ => false end.

Definition islink (n : node) : bool :=
  match n with
  | Dir _ l _ => l
  | NonDir LinkToFile | NonDir BrokenLink => true
  | NonDir _ => false
  end.

(** [os.scandir(path)] where [path] leads to [n] ([None]: to nothing). It
    raises OSError on a missing path, on a non-directory and on a
    directory that cannot be read. *)
Definition scandir (n : option node) : result entries_t :=
  match n with
  | Some (Dir true _ es) => Ok es
  | _ => Raised OSError
  end.

(** The [dirs] and [nondirs] lists [os.walk] builds from the entries. *)
Definition dirnames (es : entries_t) : list string :=
  map fst (filter (fun e => is_dir (snd e)) es).

Definition filenames (es : entries_t) : list string :=
  map fst (filter (fun e => negb (is_dir (snd e))) es).

(** One item of the [os.walk] generator. [dirpath] is kept as the list of
    directory names below the walked root. *)
Definition walk_item := (list string * list string * list string)%type.

(** [os.walk(top)] with its defaults (top-down, [onerror=None],
    [followlinks=False]): a directory whose [scandir] raises yields
    nothing and is not descended into; otherwise the directory is
    yielded, then each sub-directory that is not a symbolic link is
    walked, in the order of the entries. The [match] on [Dir true] is the
    [try: scandir(top) except OSError: return] of the library. *)
Fixpoint walk (dirpath : list string) (n : node) : list walk_item :=
  match n with
  | Dir true _ es =>
      (dirpath, dirnames es, filenames es) ::
      (fix subdirs (l : entries_t) : list walk_item :=
         match l with
         | [] => []
         | (name, child) :: rest =>
             (if (is_dir child && negb (islink child))%bool
              then walk (dirpath ++ [name]) child else [])
             ++ subdirs rest
         end) es
  | _ => []
  end.

Definition walk_top (top : option node) : list walk_item :=
  match top with Some n => walk [] n | None => [] end.

(** [os.path.relpath(join(dirpath, f), dir)] for a [dirpath] that
    [os.walk(dir)] yields: the directory names below [dir], then [f],
    joined by the separator. *)
Definition relpath_of (dirpath : list string) (f : string) : string :=
  String.concat (String slash EmptyString) (dirpath ++ [f]).

End Tree.

Import Tree.

(* ================================================================== *)
(** ** Effects: events, the environment, the monad *)
(* ================================================================== *)

Module Effects.

(** Every call that leaves the interpreter is recorded, in order. *)
Inductive event :=
| EPrint (line : string)              (* print(...) of one line *)
| EPrintCmd (cmd : list string)       (* print(shlex.join(cmd)) *)
| EInput (prompt : string)            (* input(prompt) *)
| ECpuCount                           (* os.cpu_count() *)
| EWalk (dir : string)                (* os.walk(dir), run to its end *)
| EGetmtime (p : string)              (* os.path.getmtime(p) *)
| ERemove (p : string)                (* os.remove(p) *)
| EScandir (p : string)               (* os.scandir(p), first entry *)
| ERemovedirs (p : string)            (* os.removedirs(p) *)
| EMakedirs (p : string)              (* os.makedirs(p, exist_ok=True) *)
| ECopy (src dst : string)            (* shutil.copy(src, dst) *)
| ERun (cmd : list string)            (* subprocess.run(cmd, ...) *)
| EStartThreads (n : Z)               (* the worker threads are started *)
| EQueuePut (rel_fp : string)         (* q.put(rel_fp) *)
| EQueueJoin                          (* q.join() *)
| ETaskDone.                          (* q.task_done() *)

(** The calls that change the file system. *)
Definition mutates (e : event) : bool :=
  match e with
  | ERemove _ | ERemovedirs _ | EMakedirs _ | ECopy _ _ | ERun _ => true
  | _ => false
  end.

(** The calls that read the source or destination tree. *)
Definition consults (e : event) : bool :=
  match e with
  | EWalk _ | EGetmtime _ | EScandir _ => true
  | _ => false
  end.

(** How [subprocess.run] ends for a command that could be started: the
    command completes with a return code and an output that decodes as
    UTF-8; or the call raises (UnicodeDecodeError on an output that is
    not UTF-8, for one); or the command never ends. *)
Inductive run_outcome :=
| Completed (returncode : Z) (stdout : string)
| Fails (e : exn)
| NeverEnds.

(** What the operating system answers. The trees and modification times
    are those found when the run starts; the answers to the other calls
    may depend on everything done before. A modification time is an
    integer: two finite floats compare as the integers they are multiples
    of the smallest float. *)
Record os_env := {
  cpu_count : option Z;                    (* None: os.cpu_count() is None *)
  tree_at : string -> option node;         (* the tree a path leads to *)
  mtime_of : string -> option Z;           (* None: getmtime raises *)
  stdin : list string;                     (* the lines typed, then EOF *)
  call_fails : list event -> event -> bool;
    (* the call raises: OSError, or RuntimeError for a thread start *)
  dir_has_no_entry : list event -> string -> bool;
  run_result : list event -> list string -> run_outcome;
  interrupted : list event -> bool;
    (* a KeyboardInterrupt arrives at this point: while the threads are
       started, or inside the try block *)
  join_blocks : list event -> bool
    (* q.join() never returns: a job is never marked done *)
}.

(** A computation reads the environment, extends the history of events
    and ends with a value, an exception or an exit status, or never
    ends. *)
Definition M (A : Type) : Type := os_env -> list event -> result A * list event.

Definition ret {A} (a : A) : M A := fun _ h => (Ok a, h).

Definition bind {A B} (m : M A) (f : A -> M B) : M B :=
  fun env h =>
    match m env h with
    | (Ok a, h') => f a env h'
    | (Raised e, h') => (Raised e, h')
    | (Exited c, h') => (Exited c, h')
    | (Blocked, h') => (Blocked, h')
    end.

Definition raise {A} (e : exn) : M A := fun _ h => (Raised e, h).
Definition never_returns {A} : M A := fun _ h => (Blocked, h).
Definition sys_exit {A} (code : Z) : M A := fun _ h => (Exited code, h).

(** An event that cannot fail. *)
Definition emit (e : event) : M unit := fun _ h => (Ok tt, h ++ [e]).

(** A call to the operating system that may raise OSError. *)
Definition oscall (e : event) : M unit :=
  fun env h =>
    if call_fails env h e then (Raised OSError, h ++ [e]) else (Ok tt, h ++ [e]).

(** A step at which an interrupt may arrive. *)
Definition interruptible (e : event) : M unit :=
  fun env h =>
    if interrupted env h then (Raised KeyboardInterrupt, h ++ [e])
    else (Ok tt, h ++ [e]).

(** The thread objects are built and started, before the [try] block is
    entered: starting a thread raises RuntimeError when the system has
    none to give, and an interrupt that arrives here is not caught. *)
Definition start_threads (n : Z) : M unit :=
  fun env h =>
    if call_fails env h (EStartThreads n)
    then (Raised RuntimeError, h ++ [EStartThreads n])
    else interruptible (EStartThreads n) env h.

(** [q.join()]: it returns once every job is marked done, is
    interrupted, or waits for ever. *)
Definition queue_join : M unit :=
  fun env h =>
    if join_blocks env h then (Blocked, h ++ [EQueueJoin])
    else interruptible EQueueJoin env h.

(** [try: body except: handler], the bare [except] that catches every
    exception, [SystemExit] included. *)
Definition try_except (body handler : M unit) : M unit :=
  fun env h =>
    match body env h with
    | (Ok a, h') => (Ok a, h')
    | (Raised _, h') => handler env h'
    | (Exited _, h') => handler env h'
    | (Blocked, h') => (Blocked, h')
    end.

(** A pure step that may raise. *)
Definition lift {A} (r : result A) : M A := fun _ h => (r, h).

(** Reading the environment and the history so far. *)
Definition ask : M os_env := fun env h => (Ok env, h).
Definition past : M (list event) := fun _ h => (Ok h, h).

(** [for x in l: body x]. *)
Fixpoint for_each {A} (l : list A) (body : A -> M unit) : M unit :=
  match l with
  | [] => ret tt
  | x :: rest => bind (body x) (fun _ => for_each rest body)
  end.

(** [[f x for x in l]] with an effectful [f]. *)
Fixpoint map_m {A B} (f : A -> M B) (l : list A) : M (list B) :=
  match l with
  | [] => ret []
  | x :: rest =>
      bind (f x) (fun y => bind (map_m f rest) (fun ys => ret (y :: ys)))
  end.

End Effects.

Import Effects.

Notation "x <- m ;; k" := (bind m (fun x => k))
  (at level 61, m at next level, right associativity).
Notation "m ;;; k" := (bind m (fun _ => k))
  (at level 61, right associativity).

(* ================================================================== *)
(** ** libraryconvert.py *)
(* ================================================================== *)

Module Script.

Local Notation "a +s b" := (String.append a b)
  (at level 50, left associativity).

(** The parsed command line ([argparse.Namespace]). *)
Record args := {
  jobs : Z;
  dry_run : bool;
  noconfirm : bool;
  verbose : bool;
  from_exts : string;
  to_ext : string;
  copy_exts : option string;
  ignore_mtime : bool;
  SOURCE : string;
  DEST : string;
  CONVERT_CMD : list string
}.

(** [args.to_ext = e]. *)
Definition set_to_ext (a : args) (e : string) : args :=
  {| jobs := jobs a; dry_run := dry_run a; noconfirm := noconfirm a;
     verbose := verbose a; from_exts := from_exts a; to_ext := e;
     copy_exts := copy_exts a; ignore_mtime := ignore_mtime a;
     SOURCE := SOURCE a; DEST := DEST a; CONVERT_CMD := CONVERT_CMD a |}.

(** [ensure_dot_prefix(s)]; [s[0]] raises IndexError on the empty string. *)
Definition ensure_dot_prefix (s : string) : result string :=
  match str_at 0 s with
  | None => Raised IndexError
  | Some c => if Ascii.eqb c dot then Ok s else Ok (String dot s)
  end.

(** [dir_empty(dirpath)]: whether [os.scandir] has a first entry. *)
Definition dir_empty (dirpath : string) : M bool :=
  oscall (EScandir dirpath) ;;;
  env <- ask ;; h <- past ;;
  ret (dir_has_no_entry env h dirpath).

(** [user_confirm()]: asks until the answer, lowered and with the empty
    answer read as "n", is "y" or "n". [input] raises EOFError when the
    standard input is exhausted. *)
Fixpoint user_confirm_from (lines : list string) : M bool :=
  match lines with
  | [] => emit (EInput "Begin? (y/N):") ;;; raise EOFError
  | line :: rest =>
      emit (EInput "Begin? (y/N):") ;;;
      let inp := lower line in
      let inp := if str_eq inp EmptyString then "n"%string else inp in
      if (str_eq inp "y" || str_eq inp "n")%bool
      then ret (str_eq inp "y")
      else user_confirm_from rest
  end.

Definition user_confirm : M bool :=
  env <- ask ;; user_confirm_from (stdin env).

Definition replace_ext (fp ext : string) : string := fst (splitext fp) +s ext.

Definition ext (fp : string) : string := snd (splitext fp).

(** The placeholder substitution of [worker]. *)
Definition substitute (convert_cmd : list string) (src_fp dest_fp : string)
  : list string :=
  map (fun tok =>
         if str_eq tok "@source" then src_fp
         else if str_eq tok "@dest" then dest_fp
         else tok) convert_cmd.

(** [subprocess.run(convert_cmd, encoding="utf-8", ...)]: OSError when
    the command cannot be started; otherwise the command runs, and the
    call returns the code and the decoded output, raises (so
    UnicodeDecodeError on an output that is not UTF-8), or never
    returns. *)
Definition subprocess_run (convert_cmd : list string) : M (Z * string) :=
  oscall (ERun convert_cmd) ;;;
  env <- ask ;; h <- past ;;
  match run_result env h convert_cmd with
  | Completed returncode stdout => ret (returncode, stdout)
  | Fails e => raise e
  | NeverEnds => never_returns
  end.

(** One turn of the [while True] loop of [worker], for the path [q.get()]
    returned. The pool runs such turns concurrently; their interleaving
    is not part of this model. A turn that raises ends the thread. *)
Definition worker_job (a : args) (rel_fp : string) : M unit :=
  let src_fp := join (SOURCE a) rel_fp in
  let dest_fp := join (DEST a) (replace_ext rel_fp (to_ext a)) in
  let convert_cmd := substitute (CONVERT_CMD a) src_fp dest_fp in
  (if dry_run a then emit (EPrintCmd convert_cmd)
   else
     emit (EPrint ("Converting:" +s src_fp)) ;;;
     oscall (EMakedirs (fst (split dest_fp))) ;;;
     proc <- subprocess_run convert_cmd ;;
     if (negb (fst proc =? 0)%Z || verbose a)%bool
     then emit (EPrint (snd proc)) else ret tt) ;;;
  emit ETaskDone.

(** The list comprehension of [sorted_filtered_paths]: what one item of
    the walk contributes, then the whole. *)
Definition item_paths (filter_exts : list string) (item : walk_item)
  : list string :=
  let '(dirpath, _, fnames) := item in
  map (relpath_of dirpath)
      (filter (fun f => str_in (ext f) filter_exts) fnames).

Definition listing (top : option node) (filter_exts : list string)
  : list string :=
  flat_map (item_paths filter_exts) (walk_top top).

(** [out.sort()]. On strings the order is total and two strings that
    compare equal are the same string, so every sorting algorithm returns
    the same list; insertion sort stands for the library's. *)
Fixpoint insert_sorted (x : string) (l : list string) : list string :=
  match l with
  | [] => [x]
  | y :: rest =>
      if String.leb x y then x :: l else y :: insert_sorted x rest
  end.

Definition list_sort (l : list string) : list string :=
  fold_right insert_sorted [] l.

Definition sorted_filtered_paths (dir : string) (filter_exts : list string)
  : M (list string) :=
  emit (EWalk dir) ;;;
  env <- ask ;;
  ret (list_sort (listing (tree_at env dir) filter_exts)).

(** [os.path.getmtime(p)]. *)
Definition getmtime (p : string) : M Z :=
  emit (EGetmtime p) ;;;
  env <- ask ;;
  match mtime_of env p with
  | Some t => ret t
  | None => raise OSError
  end.

(** The variables of the [while] loop of [operations_to_sync]. *)
Record merge_state := {
  src_i : nat;
  dest_i : nat;
  create : list string;
  delete : list string
}.

(** Truth value of [dest_ext]: [None] and the empty string are false. *)
Definition truthy (dest_ext : option string) : bool :=
  match dest_ext with
  | Some e => negb (str_eq e EmptyString)
  | None => false
  end.

(** [l[i]], IndexError when out of range. *)
Definition list_at (l : list string) (i : nat) : M string :=
  match nth_error l i with
  | Some x => ret x
  | None => raise IndexError
  end.

Section Differ.

(** [args.ignore_mtime], which the function reads from the module-level
    [args]. *)
Variable ignore_mtime_flag : bool.
Variables src dest : string.
Variable dest_ext : option string.
Variables src_fps dest_fps : list string.

(** [src_fp_srt]: the source path as the destination would name it. *)
Definition sort_key (src_fp : string) : string :=
  match dest_ext with
  | Some e => if truthy dest_ext then replace_ext src_fp e else src_fp
  | None => src_fp
  end.

Definition loop_cond (st : merge_state) : bool :=
  ((src_i st <? List.length src_fps)%nat && (dest_i st <? List.length dest_fps)%nat)%bool.

Definition loop_body (st : merge_state) : M merge_state :=
  src_fp <- list_at src_fps (src_i st) ;;
  let src_fp_srt := sort_key src_fp in
  dest_fp <- list_at dest_fps (dest_i st) ;;
  if str_eq src_fp_srt dest_fp then
    stale <- (if negb ignore_mtime_flag then
                ms <- getmtime (join src src_fp) ;;
                md <- getmtime (join dest dest_fp) ;;
                ret (ms >? md)%Z
              else ret false) ;;
    ret {| src_i := src_i st + 1; dest_i := dest_i st + 1;
           create := if stale then create st ++ [src_fp] else create st;
           delete := delete st |}
  else if str_gt src_fp_srt dest_fp then
    ret {| src_i := src_i st; dest_i := dest_i st + 1;
           create := create st;
           delete := delete st ++ [dest_fp] |}
  else
    ret {| src_i := src_i st + 1; dest_i := dest_i st;
           create := create st ++ [src_fp];
           delete := delete st |}.

(** The [while] loop; [fuel] bounds the number of turns. *)
Fixpoint while_loop (fuel : nat) (st : merge_state) : M merge_state :=
  if loop_cond st then
    match fuel with
    | O => ret st
    | S fuel' => st' <- loop_body st ;; while_loop fuel' st'
    end
  else ret st.

(** [for x in xs: acc.append(x)]. *)
Definition append_all (acc xs : list string) : list string :=
  fold_left (fun acc x => acc ++ [x]) xs acc.

Definition leftovers (st : merge_state) : list string * list string :=
  (append_all (create st) (skipn (src_i st) src_fps),
   append_all (delete st) (skipn (dest_i st) dest_fps)).

Definition merge_loop : M (list string * list string) :=
  st <- while_loop (List.length src_fps + List.length dest_fps)
          {| src_i := 0; dest_i := 0; create := []; delete := [] |} ;;
  ret (leftovers st).

End Differ.

Definition operations_to_sync (ignore_mtime_flag : bool) (src dest : string)
    (exts : list string) (dest_ext : option string)
  : M (list string * list string) :=
  match exts with
  | [] => ret ([], [])
  | _ :: _ =>
      src_fps <- sorted_filtered_paths src exts ;;
      dest_fps <- sorted_filtered_paths dest
                    (match dest_ext with
                     | Some e => if truthy dest_ext then [e] else exts
                     | None => exts
                     end) ;;
      merge_loop ignore_mtime_flag src dest dest_ext src_fps dest_fps
  end.

(** Lines 135-138 of [main]: the number of worker threads.
    [args.jobs += os.cpu_count()] raises TypeError when the count is
    [None]. *)
Definition effective_jobs (jobs : Z) : M Z :=
  jobs1 <- (if (jobs <=? 0)%Z then
              emit ECpuCount ;;;
              env <- ask ;;
              match cpu_count env with
              | Some c => ret (jobs + c)%Z
              | None => raise TypeError
              end
            else ret jobs) ;;
  ret (if (jobs1 <=? 0)%Z then 1%Z else jobs1).

(** [[ensure_dot_prefix(ext) for ext in s.split(",")]]. *)
Definition normalize_exts (s : string) : M (list string) :=
  map_m (fun e => lift (ensure_dot_prefix e)) (split_on ","%char s).

(** The deletion loop of [main]. *)
Definition delete_files (a : args) (files_to_delete : list string) : M unit :=
  for_each files_to_delete (fun rel_fp =>
    let fp := join (DEST a) rel_fp in
    emit (EPrint ("Removing:" +s fp)) ;;;
    if dry_run a then ret tt
    else
      oscall (ERemove fp) ;;;
      let dir := fst (split fp) in
      empty <- dir_empty dir ;;
      if empty then oscall (ERemovedirs dir) else ret tt).

(** The copy loop of [main]. *)
Definition copy_files (a : args) (files_to_copy : list string) : M unit :=
  for_each files_to_copy (fun rel_fp =>
    let src_fp := join (SOURCE a) rel_fp in
    let dest_fp := join (DEST a) rel_fp in
    emit (EPrint ("Copying:" +s src_fp)) ;;;
    oscall (EMakedirs (fst (split dest_fp))) ;;;
    if dry_run a then ret tt
    else oscall (ECopy src_fp dest_fp)).

(** [main(args)], the coordinator thread. The worker threads it starts
    run [worker_job] on each queued path. Interrupts are those that
    arrive from the start of the threads on: before the [try] block they
    end the run, inside it the bare [except] catches them. *)
Definition main (a : args) : M unit :=
  (if (negb (str_in "@source" (CONVERT_CMD a))
       || negb (str_in "@dest" (CONVERT_CMD a)))%bool
   then
     emit (EPrint "Error: CONVERT_CMD does not contain '@source' and '@dest'") ;;;
     sys_exit 1%Z
   else ret tt) ;;;
  njobs <- effective_jobs (jobs a) ;;
  to_ext' <- lift (ensure_dot_prefix (to_ext a)) ;;
  let a := set_to_ext a to_ext' in
  from_exts' <- normalize_exts (from_exts a) ;;
  copy_exts' <- (match copy_exts a with
                 | Some s => if str_eq s EmptyString then ret []
                             else normalize_exts s
                 | None => ret []
                 end) ;;
  conv <- operations_to_sync (ignore_mtime a) (SOURCE a) (DEST a)
            from_exts' (Some (to_ext a)) ;;
  let files_to_convert := fst conv in
  let files_to_delete := snd conv in
  cp <- operations_to_sync (ignore_mtime a) (SOURCE a) (DEST a)
          copy_exts' None ;;
  let files_to_copy := fst cp in
  let files_to_delete := files_to_delete ++ snd cp in
  for_each files_to_delete (fun f => emit (EPrint ("delete :" +s f))) ;;;
  for_each files_to_copy (fun f => emit (EPrint ("copy   :" +s f))) ;;;
  for_each files_to_convert (fun f => emit (EPrint ("convert:" +s f))) ;;;
  go_on <- (if dry_run a then
              emit (EPrint "-----DRY-RUN-----") ;;; ret true
            else
              refused <- (if negb (noconfirm a) then
                            yes <- user_confirm ;; ret (negb yes)
                          else ret false) ;;
              if refused then ret false
              else emit (EPrint "-----SYNCING-----") ;;; ret true) ;;
  if negb go_on then ret tt
  else
    delete_files a files_to_delete ;;;
    copy_files a files_to_copy ;;;
    start_threads njobs ;;;
    try_except
      (for_each files_to_convert
         (fun rel_fp => interruptible (EQueuePut rel_fp)) ;;;
       queue_join)
      (emit (EPrint "Interrupted")).

End Script.

Import Script.

(* ================================================================== *)
(** ** Concrete inputs *)
(* ================================================================== *)

Module Samples.

Local Open Scope string_scope.

Definition quiet_env (trees : string -> option node) : os_env :=
  {| cpu_count := Some 4%Z;
     tree_at := trees;
     mtime_of := fun _ => Some 0%Z;
     stdin := [];
     call_fails := fun _ _ => false;
     dir_has_no_entry := fun _ _ => false;
     run_result := fun _ _ => Completed 0%Z EmptyString;
     interrupted := fun _ => false;
     join_blocks := fun _ => false |}.

Definition two_roots (s d : node) (p : string) : option node :=
  if str_eq p "S" then Some s else if str_eq p "D" then Some d else None.

(** A music library with cover art, and a destination that has none. *)
Definition library : node :=
  Dir true false
    [("art", Dir true false [("cover.jpg", NonDir Regular)]);
     ("a.wav", NonDir Regular);
     ("b.wav", NonDir Regular)].

Definition mirror : node :=
  Dir true false [("b.mp3", NonDir Regular); ("c.mp3", NonDir Regular)].

Definition library_env : os_env := quiet_env (two_roots library mirror).

Definition library_args (dry : bool) : args :=
  {| jobs := 0; dry_run := dry; noconfirm := true; verbose := false;
     from_exts := "wav"; to_ext := "mp3"; copy_exts := Some "jpg";
     ignore_mtime := false; SOURCE := "S"; DEST := "D";
     CONVERT_CMD := ["ffmpeg"; "-i"; "@source"; "@dest"] |}.

(** Re-encoding: [--from flac,mp3 --to mp3]. *)
Definition reencode_src : node :=
  Dir true false [("x.flac", NonDir Regular); ("x.flac.mp3", NonDir Regular)].

Definition reencode_dst : node :=
  Dir true false [("x.flac.mp3", NonDir Regular)].

Definition reencode_env : os_env := quiet_env (two_roots reencode_src reencode_dst).

(** The library after b.wav was touched. *)
Definition touched_env : os_env :=
  {| cpu_count := Some 4%Z;
     tree_at := two_roots library mirror;
     mtime_of := fun p => if str_eq p "S/b.wav" then Some 9%Z else Some 5%Z;
     stdin := [];
     call_fails := fun _ _ => false;
     dir_has_no_entry := fun _ _ => false;
     run_result := fun _ _ => Completed 0%Z EmptyString;
     interrupted := fun _ => false;
     join_blocks := fun _ => false |}.

(** The library when b.mp3 is removed between the walk and the
    comparison of the modification times. *)
Definition vanished_env : os_env :=
  {| cpu_count := Some 4%Z;
     tree_at := two_roots library mirror;
     mtime_of := fun p => if str_eq p "D/b.mp3" then None else Some 0%Z;
     stdin := [];
     call_fails := fun _ _ => false;
     dir_has_no_entry := fun _ _ => false;
     run_result := fun _ _ => Completed 0%Z EmptyString;
     interrupted := fun _ => false;
     join_blocks := fun _ => false |}.

(** The library as another [scandir] order would show it. *)
Definition library_shuffled : node :=
  Dir true false
    [("a.wav", NonDir Regular);
     ("art", Dir true false [("cover.jpg", NonDir Regular)]);
     ("b.wav", NonDir Regular)].

Definition shuffled_env : os_env := quiet_env (two_roots library_shuffled mirror).

(** A directory and a file whose names differ where one has the
    separator, and a named pipe with a tracked extension. *)
Definition dashed : node :=
  Dir true false
    [("a", Dir true false [("b.wav", NonDir Regular)]);
     ("a-b.wav", NonDir Regular);
     ("pipe.wav", NonDir Special)].

Definition dashed_env : os_env := quiet_env (two_roots dashed mirror).

(** A library with a directory that cannot be read. *)
Definition private_dir : node :=
  Dir false false [("b.wav", NonDir Regular)].

Definition locked : node :=
  Dir true false [("a.wav", NonDir Regular); ("private", private_dir)].

Definition locked_env : os_env := quiet_env (two_roots locked mirror).

(** A template without "@dest". *)
Definition bad_template_args : args :=
  {| jobs := 2; dry_run := false; noconfirm := true; verbose := false;
     from_exts := "wav"; to_ext := "mp3"; copy_exts := None;
     ignore_mtime := false; SOURCE := "S"; DEST := "D";
     CONVERT_CMD := ["ffmpeg"; "-i"; "@source"; "out.mp3"] |}.

(** A trailing comma in [--from]. *)
Definition trailing_comma_args : args :=
  {| jobs := 2; dry_run := false; noconfirm := true; verbose := false;
     from_exts := "flac,"; to_ext := "mp3"; copy_exts := None;
     ignore_mtime := false; SOURCE := "S"; DEST := "D";
     CONVERT_CMD := ["ffmpeg"; "-i"; "@source"; "@dest"] |}.

(** An empty token in the middle of [--copy]. *)
Definition empty_copy_token_args : args :=
  {| jobs := 2; dry_run := false; noconfirm := true; verbose := false;
     from_exts := "flac"; to_ext := "mp3"; copy_exts := Some "jpg,,png";
     ignore_mtime := false; SOURCE := "S"; DEST := "D";
     CONVERT_CMD := ["ffmpeg"; "-i"; "@source"; "@dest"] |}.

(** A machine whose processors cannot be counted. *)
Definition uncounted_env : os_env :=
  {| cpu_count := None;
     tree_at := two_roots library mirror;
     mtime_of := fun _ => Some 0%Z;
     stdin := [];
     call_fails := fun _ _ => false;
     dir_has_no_entry := fun _ _ => false;
     run_result := fun _ _ => Completed 0%Z EmptyString;
     interrupted := fun _ => false;
     join_blocks := fun _ => false |}.

(** The library, with an operator who types the given lines. *)
Definition answering_env (lines : list string) : os_env :=
  {| cpu_count := Some 4%Z;
     tree_at := two_roots library mirror;
     mtime_of := fun _ => Some 0%Z;
     stdin := lines;
     call_fails := fun _ _ => false;
     dir_has_no_entry := fun _ _ => false;
     run_result := fun _ _ => Completed 0%Z EmptyString;
     interrupted := fun _ => false;
     join_blocks := fun _ => false |}.

(** A run that asks before it starts, and copies nothing. *)
Definition asking_args : args :=
  {| jobs := 2; dry_run := false; noconfirm := false; verbose := false;
     from_exts := "wav"; to_ext := "mp3"; copy_exts := None;
     ignore_mtime := false; SOURCE := "S"; DEST := "D";
     CONVERT_CMD := ["ffmpeg"; "-i"; "@source"; "@dest"] |}.

(** A converter that starts and exits with status 1. *)
Definition failing_converter_env : os_env :=
  {| cpu_count := Some 4%Z;
     tree_at := two_roots library mirror;
     mtime_of := fun _ => Some 0%Z;
     stdin := [];
     call_fails := fun _ _ => false;
     dir_has_no_entry := fun _ _ => false;
     run_result := fun _ _ => Completed 1%Z "no such codec";
     interrupted := fun _ => false;
     join_blocks := fun _ => false |}.

End Samples.

(* ================================================================== *)
(** ** Notions the statements use *)
(* ================================================================== *)

(** The line [main] prints for a bad template. *)
Definition template_error : string :=
  "Error: CONVERT_CMD does not contain '@source' and '@dest'".

(** An event that neither changes nor reads the trees. *)
Definition quiet (e : event) : Prop := mutates e = false /\ consults e = false.

(** The distance of the loop to the end of both listings. *)
Definition remaining (src_fps dest_fps : list string) (st : merge_state) : nat :=
  (List.length src_fps - src_i st) + (List.length dest_fps - dest_i st).

(** A listing whose entries, renamed by [key], strictly ascend. *)
Definition ascending_by (key : string -> string) (l : list string) : Prop :=
  forall a b x y,
    a < b -> nth_error l a = Some x -> nth_error l b = Some y ->
    str_lt (key x) (key y) = true.

(** What holds at every turn of the loop when both listings ascend:
    the entries passed on one side are below the entries still to come
    on the other; what was created is a source entry; what was deleted
    is a destination entry that no source entry is renamed to. *)
Definition merge_inv (key : string -> string) (src_fps dest_fps : list string)
    (st : merge_state) : Prop :=
  (forall a b s d,
      a < src_i st -> dest_i st <= b ->
      nth_error src_fps a = Some s -> nth_error dest_fps b = Some d ->
      str_lt (key s) d = true)
  /\ (forall a b s d,
      b < dest_i st -> src_i st <= a ->
      nth_error src_fps a = Some s -> nth_error dest_fps b = Some d ->
      str_lt d (key s) = true)
  /\ (forall x, In x (create st) -> In x src_fps)
  /\ (forall x, In x (delete st) ->
                In x dest_fps /\ forall s, In s src_fps -> key s <> x).

(** Induction over a tree, with the hypothesis for every entry of a
    directory. *)
Section NodeInduction.

Variable P : node -> Prop.
Hypothesis P_nondir : forall k, P (NonDir k).
Hypothesis P_dir :
  forall r l es, Forall (fun e => P (snd e)) es -> P (Dir r l es).

Fixpoint node_induction (n : node) : P n :=
  match n with
  | NonDir k => P_nondir k
  | Dir r l es =>
      P_dir r l es
        ((fix all (l0 : entries_t) : Forall (fun e => P (snd e)) l0 :=
            match l0 with
            | [] => Forall_nil _
            | e :: rest =>
                Forall_cons e (node_induction (snd e)) (all rest)
            end) es)
  end.

End NodeInduction.

(** The walks of the sub-directories of a directory, in entry order. *)
Definition descend (dirpath : list string) (e : string * node)
  : list walk_item :=
  if (is_dir (snd e) && negb (islink (snd e)))%bool
  then walk (dirpath ++ [fst e]) (snd e) else [].

(** [nondir_at n rel f]: below the directory [n], through the readable
    directories named [rel] that are not symbolic links, lies an entry
    [f] that is not a directory. *)
Inductive nondir_at : node -> list string -> string -> Prop :=
| nondir_here : forall l es f k,
    In (f, NonDir k) es ->
    nondir_at (Dir true l es) [] f
| nondir_below : forall l es d child rel f,
    In (d, child) es ->
    islink child = false ->
    nondir_at child rel f ->
    nondir_at (Dir true l es) (d :: rel) f.

(** The order of [out.sort()]. *)
Definition str_le (a b : string) : Prop := String.leb a b = true.

(** Two trees that hold the same entries, listed in any order. *)
Inductive same_tree : node -> node -> Prop :=
| same_nondir : forall k, same_tree (NonDir k) (NonDir k)
| same_dir : forall r l es es',
    same_entries es es' -> same_tree (Dir r l es) (Dir r l es')
with same_entries : entries_t -> entries_t -> Prop :=
| same_nil : same_entries [] []
| same_cons : forall name n n' es es',
    same_tree n n' -> same_entries es es' ->
    same_entries ((name, n) :: es) ((name, n') :: es')
| same_swap : forall e1 e2 es, same_entries (e1 :: e2 :: es) (e2 :: e1 :: es)
| same_trans : forall es1 es2 es3,
    same_entries es1 es2 -> same_entries es2 es3 -> same_entries es1 es3.

Scheme same_tree_mut := Minimality for same_tree Sort Prop
  with same_entries_mut := Minimality for same_entries Sort Prop.

Definition same_top (a b : option node) : Prop :=
  match a, b with
  | Some n, Some n' => same_tree n n'
  | None, None => True
  | _, _ => False
  end.

(** The paths the comprehension collects from the walk of [n]. *)
Definition paths_below (exts : list string) (dirpath : list string) (n : node)
  : list string :=
  flat_map (item_paths exts) (walk dirpath n).

(** What one entry of a directory adds to the listing. *)
Definition entry_paths (exts : list string) (dirpath : list string)
    (e : string * node) : list string :=
  match snd e with
  | NonDir _ =>
      if str_in (ext (fst e)) exts then [relpath_of dirpath (fst e)] else []
  | Dir _ l _ =>
      if l then [] else paths_below exts (dirpath ++ [fst e]) (snd e)
  end.

(** The order the listing is said to follow: path components compared
    one by one. *)
Definition spec_components (p : string) : list string := split_on slash p.

Fixpoint spec_lex_compare (a b : list string) : comparison :=
  match a, b with
  | [], [] => Eq
  | [], _ :: _ => Lt
  | _ :: _, [] => Gt
  | x :: a', y :: b' =>
      match String.compare x y with
      | Eq => spec_lex_compare a' b'
      | c => c
      end
  end.

Definition spec_component_le (p q : string) : Prop :=
  spec_lex_compare (spec_components p) (spec_components q) <> Gt.

(** The tree with every unreadable directory emptied. *)
Fixpoint emptied (n : node) : node :=
  match n with
  | NonDir k => NonDir k
  | Dir true l es => Dir true l (map (fun e => (fst e, emptied (snd e))) es)
  | Dir false l _ => Dir true l []
  end.


(* ================================================================== *)
(** ** Notions for the further properties *)
(* ================================================================== *)

(** [c in s] for a character [c]. *)
Fixpoint contains_char (c : ascii) (s : string) : bool :=
  match s with
  | EmptyString => false
  | String a s' => (Ascii.eqb a c || contains_char c s')%bool
  end.

(** An extension as [splitext] returns one: a dot, then characters that
    are neither a dot nor the separator. *)
Definition plain_ext (e : string) : Prop :=
  exists rest, e = String dot rest
               /\ contains_char dot rest = false
               /\ contains_char slash rest = false.

(** [runs env P Q m]: started in the environment [env], from any
    history, [m] adds only events that satisfy [P], and a value it
    returns satisfies [Q]. *)
Definition runs {A : Type} (env : os_env) (P : event -> Prop) (Q : A -> Prop)
    (m : M A) : Prop :=
  forall h, exists r evs,
    m env h = (r, h ++ evs) /\ Forall P evs /\ (forall a, r = Ok a -> Q a).



(** The events of the four stages of [main]: planning and report,
    deletion, copy, conversion queue. *)
Definition report_event (e : event) : Prop :=
  match e with
  | EPrint _ | EInput _ | ECpuCount | EWalk _ | EGetmtime _ => True
  | _ => False
  end.



Definition queue_event (e : event) : Prop :=
  match e with
  | EStartThreads _ | EQueuePut _ | EQueueJoin => True
  | EPrint _ => True                  (* the line printed on an interrupt *)
  | _ => False
  end.

(** The events of planning: walks and modification times. *)
Definition read_event (e : event) : Prop :=
  match e with
  | EWalk _ | EGetmtime _ => True
  | _ => False
  end.

(** An answer [user_confirm] accepts, once lowered and with the empty
    answer read as "n". *)
Definition normalized_answer (line : string) : string :=
  let inp := lower line in
  if str_eq inp EmptyString then "n"%string else inp.

Definition valid_answer (line : string) : bool :=
  (str_eq (normalized_answer line) "y"
   || str_eq (normalized_answer line) "n")%bool.

(** The call [user_confirm] makes at each turn. *)
Definition confirm_prompt : event := EInput "Begin? (y/N):".

(** Whether the loop finds the source entry [s] newer than the
    destination entry it is renamed to. *)
Definition newer (env : os_env) (src dest : string) (key : string -> string)
    (s : string) : bool :=
  match mtime_of env (join src s), mtime_of env (join dest (key s)) with
  | Some ms, Some md => (ms >? md)%Z
  | _, _ => false
  end.

(** A source entry that has to be (re)created: no destination entry
    bears its name, or the check is enabled and it is newer. *)
Definition wanted (ignore : bool) (env : os_env) (src dest : string)
    (key : string -> string) (dest_fps : list string) (s : string) : Prop :=
  ~ In (key s) dest_fps
  \/ (ignore = false /\ newer env src dest key s = true).

(** Every entry the loop has passed is accounted for, and the lists hold
    entries of the listings only. *)
Definition partition_inv (key : string -> string)
    (src_fps dest_fps : list string) (st : merge_state) : Prop :=
  (forall a s, a < src_i st -> nth_error src_fps a = Some s ->
               In s (create st) \/ In (key s) dest_fps)
  /\ (forall b d, b < dest_i st -> nth_error dest_fps b = Some d ->
                  In d (delete st) \/ exists s, In s src_fps /\ key s = d)
  /\ (forall x, In x (create st) -> In x src_fps)
  /\ (forall x, In x (delete st) -> In x dest_fps).

(** For ascending listings the lists hold exactly what they should of
    the entries passed. *)
Definition exact_inv (ignore : bool) (env : os_env) (src dest : string)
    (key : string -> string) (src_fps dest_fps : list string)
    (st : merge_state) : Prop :=
  (forall x, In x (create st) ->
             wanted ignore env src dest key dest_fps x)
  /\ (forall a s, a < src_i st -> nth_error src_fps a = Some s ->
                  wanted ignore env src dest key dest_fps s ->
                  In s (create st))
  /\ (forall b d, b < dest_i st -> nth_error dest_fps b = Some d ->
                  (forall s, In s src_fps -> key s <> d) ->
                  In d (delete st)).

(** What the operator answers: the first line [user_confirm] accepts,
    read as yes or no; [None] when the input ends before one. *)
Fixpoint operator_answer (lines : list string) : option bool :=
  match lines with
  | [] => None
  | line :: rest =>
      if valid_answer line then Some (str_eq (normalized_answer line) "y")
      else operator_answer rest
  end.

(** The calls a simulated run may make: anything but removing, copying
    and running a command. *)
Definition simulation_event (e : event) : Prop :=
  match e with
  | ERemove _ | ERemovedirs _ | ECopy _ _ | ERun _ => False
  | _ => True
  end.


(** Anything but copying a file or creating a directory. *)
Definition not_copying (e : event) : Prop :=
  match e with
  | EMakedirs _ | ECopy _ _ => False
  | _ => True
  end.



(** [main] in two parts, for the proofs: up to the decision to go on,
    and the three stages of execution. [main_split] below shows that
    [main] is the first followed by the second. *)
Definition main_tail (a : args) (njobs : Z)
    (files_to_delete files_to_copy files_to_convert : list string) : M unit :=
  delete_files a files_to_delete ;;;
  copy_files a files_to_copy ;;;
  start_threads njobs ;;;
  try_except
    (for_each files_to_convert
       (fun rel_fp => interruptible (EQueuePut rel_fp)) ;;;
     queue_join)
    (emit (EPrint "Interrupted")).

Definition main_prefix (a : args)
  : M (option (args * Z * list string * list string * list string)) :=
  (if (negb (str_in "@source" (CONVERT_CMD a))
       || negb (str_in "@dest" (CONVERT_CMD a)))%bool
   then
     emit (EPrint "Error: CONVERT_CMD does not contain '@source' and '@dest'") ;;;
     sys_exit 1%Z
   else ret tt) ;;;
  njobs <- effective_jobs (jobs a) ;;
  to_ext' <- lift (ensure_dot_prefix (to_ext a)) ;;
  let a := set_to_ext a to_ext' in
  from_exts' <- normalize_exts (from_exts a) ;;
  copy_exts' <- (match copy_exts a with
                 | Some s => if str_eq s EmptyString then ret []
                             else normalize_exts s
                 | None => ret []
                 end) ;;
  conv <- operations_to_sync (ignore_mtime a) (SOURCE a) (DEST a)
            from_exts' (Some (to_ext a)) ;;
  cp <- operations_to_sync (ignore_mtime a) (SOURCE a) (DEST a)
          copy_exts' None ;;
  for_each (snd conv ++ snd cp)
    (fun f => emit (EPrint (String.append "delete :" f))) ;;;
  for_each (fst cp) (fun f => emit (EPrint (String.append "copy   :" f))) ;;;
  for_each (fst conv)
    (fun f => emit (EPrint (String.append "convert:" f))) ;;;
  go_on <- (if dry_run a then
              emit (EPrint "-----DRY-RUN-----") ;;; ret true
            else
              refused <- (if negb (noconfirm a) then
                            yes <- user_confirm ;; ret (negb yes)
                          else ret false) ;;
              if refused then ret false
              else emit (EPrint "-----SYNCING-----") ;;; ret true) ;;
  if negb go_on then ret None
  else ret (Some (a, njobs, snd conv ++ snd cp, fst cp, fst conv)).

Definition main_continue
    (d : option (args * Z * list string * list string * list string))
  : M unit :=
  match d with
  | None => ret tt
  | Some (a, njobs, dels, cps, convs) => main_tail a njobs dels cps convs
  end.

(** The run goes on to execution: simulation, [--noconfirm], or a yes. *)
Definition proceeds (a : args) (env : os_env) : Prop :=
  dry_run a = true \/ noconfirm a = true
  \/ operator_answer (stdin env) = Some true.

(** [--copy] was given, and not empty. *)
Definition copies (a : args) : Prop :=
  exists s, copy_exts a = Some s /\ s <> EmptyString.

(** What the first part of [main] hands to the second. *)
Definition handed_over (a : args) (env : os_env)
    (d : option (args * Z * list string * list string * list string)) : Prop :=
  match d with
  | None => ~ proceeds a env
  | Some (a', njobs, dels, cps, convs) =>
      proceeds a env
      /\ dry_run a' = dry_run a /\ SOURCE a' = SOURCE a /\ DEST a' = DEST a
      /\ (~ copies a -> cps = [])
  end.

(** The calls a worker makes. *)
Definition worker_event (e : event) : Prop :=
  match e with
  | EPrint _ | EPrintCmd _ | EMakedirs _ | ERun _ | ETaskDone => True
  | _ => False
  end.

(** *** The two-pointer merge, in the words of the specification

    The specification describes the differ as a merge of two sorted
    listings: the source entry, renamed, is compared with the
    destination entry; the greater case sends the destination entry to
    the delete list, the smaller case sends the source entry to the
    create list, the equal case passes both and converts again only a
    source that is newer; what is left of either listing once the other
    is exhausted goes to its list. [spec_merge] is that description, on
    the listings themselves, with no pointer and no loop. *)

(** Whether a matched pair is converted again: never when the check is
    disabled; otherwise when the source is strictly newer. [None] when
    a modification time that is needed cannot be read. *)
Definition spec_stale (ignore : bool) (src dest : string) (env : os_env)
    (s d : string) : option bool :=
  if ignore then Some false
  else
    match mtime_of env (join src s), mtime_of env (join dest d) with
    | Some ms, Some md => Some (ms >? md)%Z
    | _, _ => None
    end.

Fixpoint spec_merge (ext_remap : string -> string)
    (stale : string -> string -> option bool)
    (source dest : list string) {struct source}
  : option (list string * list string) :=
  match source with
  | [] => Some ([], dest)
  | s :: source' =>
      (fix against (dest : list string) : option (list string * list string) :=
         match dest with
         | [] => Some (s :: source', [])
         | d :: dest' =>
             match String.compare (ext_remap s) d with
             | Gt =>
                 match against dest' with
                 | Some (to_create, to_delete) =>
                     Some (to_create, d :: to_delete)
                 | None => None
                 end
             | Lt =>
                 match spec_merge ext_remap stale source' (d :: dest') with
                 | Some (to_create, to_delete) =>
                     Some (s :: to_create, to_delete)
                 | None => None
                 end
             | Eq =>
                 match stale s d,
                       spec_merge ext_remap stale source' dest' with
                 | Some again, Some (to_create, to_delete) =>
                     Some (if again then s :: to_create else to_create,
                           to_delete)
                 | _, _ => None
                 end
             end
         end) dest
  end.

(** The outcome of the differ that [spec_merge] stands for: the plan, or
    the OSError of a modification time that cannot be read. *)
Definition spec_outcome (plan : option (list string * list string))
  : result (list string * list string) :=
  match plan with
  | Some p => Ok p
  | None => Raised OSError
  end.

(** The plan of a state: what the loop has collected, followed by what
    the merge makes of the entries still to come. *)
Definition plan_from (st : merge_state)
    (plan : option (list string * list string))
  : result (list string * list string) :=
  match plan with
  | Some (to_create, to_delete) =>
      Ok (create st ++ to_create, delete st ++ to_delete)
  | None => Raised OSError
  end.

(** The extensions the destination is listed with. *)
Definition dest_exts (exts : list string) (dest_ext : option string)
  : list string :=
  match dest_ext with
  | Some e => if truthy dest_ext then [e] else exts
  | None => exts
  end.

(* ================================================================== *)
(** ** The monad: how a run unfolds *)
(* ================================================================== *)

Section MonadFacts.

Context {A B : Type}.
Variables (m : M A) (f : A -> M B) (env : os_env) (h h' : list event).

Lemma bind_ok (a : A) : m env h = (Ok a, h') -> bind m f env h = f a env h'.
Proof. intros E. unfold bind. now rewrite E. Qed.

Lemma bind_raised (e : exn) :
  m env h = (Raised e, h') -> bind m f env h = (Raised e, h').
Proof. intros E. unfold bind. now rewrite E. Qed.

Lemma bind_exited (c : Z) :
  m env h = (Exited c, h') -> bind m f env h = (Exited c, h').
Proof. intros E. unfold bind. now rewrite E. Qed.

End MonadFacts.

Lemma bind_assoc {A B C} (m : M A) (f : A -> M B) (g : B -> M C)
    (env : os_env) (h : list event) :
  bind (bind m f) g env h = bind m (fun a => bind (f a) g) env h.
Proof.
  unfold bind. destruct (m env h) as [[a | e | c |] h1]; try reflexivity.
Qed.

(** A loop only adds to the history. *)
Lemma for_each_extends {A} (l : list A) (body : A -> M unit)
    (env : os_env) (h : list event) :
  (forall x h0, exists r evs, body x env h0 = (r, h0 ++ evs)) ->
  exists r evs, for_each l body env h = (r, h ++ evs).
Proof.
  intros Hbody. revert h. induction l as [| x l IH]; intros h; simpl.
  - exists (Ok tt), []. now rewrite app_nil_r.
  - unfold bind. destruct (Hbody x h) as (r & evs & E). rewrite E.
    destruct r as [[] | e | c |].
    + destruct (IH (h ++ evs)) as (r' & evs' & E'). rewrite E'.
      exists r', (evs ++ evs'). now rewrite app_assoc.
    + eauto.
    + eauto.
    + eauto.
Qed.

Lemma str_in_In (x : string) (l : list string) : str_in x l = true <-> In x l.
Proof.
  unfold str_in, str_eq. rewrite existsb_exists. split.
  - intros [y [Hy E]]. apply String.eqb_eq in E. now subst.
  - intros H. exists x. split; [assumption | apply String.eqb_refl].
Qed.

(* ================================================================== *)
(** ** The empty extension set *)
(* ================================================================== *)

(** C5. With an empty extension set the differ returns the empty plan,
    for every pair of roots, whatever the environment holds, and without
    a single event: neither tree is walked, no modification time is
    read. *)
Theorem operations_to_sync_empty_exts :
  forall (ignore : bool) (src dest : string) (dest_ext : option string)
         (env : os_env) (h : list event),
    operations_to_sync ignore src dest [] dest_ext env h = (Ok ([], []), h).
Proof. reflexivity. Qed.

(* ================================================================== *)
(** ** The command template *)
(* ================================================================== *)


(** C6. A template that lacks "@source" or lacks "@dest" ends the run
    with status 1 after one printed line: no tree has been walked and
    nothing has been changed. *)
Theorem main_rejects_bad_template :
  forall (a : args) (env : os_env) (h : list event),
    ~ (In "@source"%string (CONVERT_CMD a) /\ In "@dest"%string (CONVERT_CMD a)) ->
    main a env h = (Exited 1%Z, h ++ [EPrint template_error])
    /\ 1%Z <> 0%Z
    /\ Forall (fun e => mutates e = false /\ consults e = false)
              [EPrint template_error].
Proof.
  intros a env h Hbad.
  assert (Hcond : (negb (str_in "@source" (CONVERT_CMD a))
                   || negb (str_in "@dest" (CONVERT_CMD a)))%bool = true).
  { destruct (str_in "@source" (CONVERT_CMD a)) eqn:E1;
      destruct (str_in "@dest" (CONVERT_CMD a)) eqn:E2; try reflexivity.
    exfalso. apply Hbad. split; now apply str_in_In. }
  split; [| split].
  - unfold main. rewrite Hcond. reflexivity.
  - discriminate.
  - repeat constructor.
Qed.

Lemma main_rejects_bad_template_witness :
  main Samples.bad_template_args Samples.library_env []
  = (Exited 1%Z, [] ++ [EPrint template_error])
  /\ 1%Z <> 0%Z
  /\ Forall (fun e => mutates e = false /\ consults e = false)
            [EPrint template_error].
Proof.
  apply (main_rejects_bad_template Samples.bad_template_args
           Samples.library_env []).
  simpl. intros [_ H].
  repeat (destruct H as [H | H]; [discriminate H |]). exact H.
Defined.

(* ================================================================== *)
(** ** The number of workers *)
(* ================================================================== *)

(** C7. With [c] processors, a positive [j] is kept; otherwise the count
    is [c - |j|]; and the outcome is never below 1. *)
Theorem effective_jobs_spec :
  forall (j c : Z) (env : os_env) (h : list event),
    cpu_count env = Some c ->
    fst (effective_jobs j env h)
    = Ok (Z.max 1 (if (0 <? j)%Z then j else (c - Z.abs j)%Z)).
Proof.
  intros j c env h Hc. unfold effective_jobs, bind, emit, ask, ret.
  destruct (j <=? 0)%Z eqn:Ej.
  - rewrite Hc. simpl.
    apply Z.leb_le in Ej.
    replace (0 <? j)%Z with false by (symmetry; apply Z.ltb_ge; lia).
    destruct (j + c <=? 0)%Z eqn:E2; f_equal;
      [apply Z.leb_le in E2 | apply Z.leb_gt in E2]; lia.
  - simpl. rewrite Ej. apply Z.leb_gt in Ej.
    replace (0 <? j)%Z with true by (symmetry; apply Z.ltb_lt; lia).
    f_equal. lia.
Qed.

Lemma effective_jobs_spec_witness :
  fst (effective_jobs (-6) Samples.library_env [])
  = Ok (Z.max 1 (if (0 <? -6)%Z then (-6)%Z else (4 - Z.abs (-6))%Z)).
Proof. apply (effective_jobs_spec (-6) 4 Samples.library_env []). reflexivity. Defined.

(* ================================================================== *)
(** ** Extension normalization *)
(* ================================================================== *)

Lemma ensure_dot_prefix_cases (s : string) :
  (s = EmptyString /\ ensure_dot_prefix s = Raised IndexError)
  \/ (exists r, ensure_dot_prefix s = Ok r).
Proof.
  destruct s as [| c s]; [left; split; reflexivity | right].
  unfold ensure_dot_prefix. simpl.
  destruct (Ascii.eqb c dot); eauto.
Qed.

Lemma normalize_empty_token (l : list string) (env : os_env) (h : list event) :
  In EmptyString l ->
  map_m (fun e => lift (ensure_dot_prefix e)) l env h = (Raised IndexError, h).
Proof.
  induction l as [| x l IH]; intros Hin; [contradiction |].
  simpl. destruct (ensure_dot_prefix_cases x) as [[-> E] | [r E]].
  - reflexivity.
  - destruct Hin as [-> | Hin]; [discriminate E |].
    unfold bind at 1. unfold lift at 1. rewrite E.
    unfold bind at 1. rewrite (IH Hin). reflexivity.
Qed.

Lemma effective_jobs_cases (j : Z) (env : os_env) (h : list event) :
  (exists n evs, effective_jobs j env h = (Ok n, h ++ evs)
                 /\ Forall (fun e => e = ECpuCount) evs
                 /\ ((0 < j)%Z \/ cpu_count env <> None))
  \/ (effective_jobs j env h = (Raised TypeError, h ++ [ECpuCount])
      /\ (j <= 0)%Z /\ cpu_count env = None).
Proof.
  unfold effective_jobs, bind, emit, ask, ret, raise.
  destruct (j <=? 0)%Z eqn:Ej.
  - destruct (cpu_count env) as [c |] eqn:Ec.
    + left. eexists. exists [ECpuCount]. split; [reflexivity |].
      split; [repeat constructor | right; discriminate].
    + right. apply Z.leb_le in Ej. auto.
  - left. eexists. exists []. rewrite app_nil_r. split; [reflexivity |].
    split; [constructor | left; apply Z.leb_gt in Ej; lia].
Qed.


Lemma normalize_cases (l : list string) (env : os_env) (h : list event) :
  map_m (fun e => lift (ensure_dot_prefix e)) l env h = (Raised IndexError, h)
  \/ exists out,
       map_m (fun e => lift (ensure_dot_prefix e)) l env h = (Ok out, h).
Proof.
  set (f := fun e => lift (ensure_dot_prefix e)).
  induction l as [| x l IH]; [right; now exists [] |].
  cbn [map_m]. unfold bind.
  change (f x env h) with (ensure_dot_prefix x, h).
  destruct (ensure_dot_prefix_cases x) as [[-> E] | [r E]]; rewrite E.
  - now left.
  - destruct IH as [-> | [out ->]]; [now left | right].
    now exists (r :: out).
Qed.

(** C10. [ensure_dot_prefix] raises IndexError on the empty string. A
    non-empty string is returned with a leading dot, and normalizing the
    outcome again changes nothing. A run whose [--to] is empty, whose
    [--from] list has an empty token, or whose [--copy] is given, is not
    the empty string and has an empty token, does not return normally
    and has, when it stops, walked no tree and changed nothing; when the
    template is valid and the worker count can be computed, it stops
    with the IndexError of the normalization. (An empty [--copy] is
    taken as no [--copy] and is not normalized.) *)
Theorem ensure_dot_prefix_partial :
  ensure_dot_prefix EmptyString = Raised IndexError
  /\ (forall s : string, s <> EmptyString ->
        exists r, ensure_dot_prefix s = Ok r
                  /\ str_at 0 r = Some dot
                  /\ ensure_dot_prefix r = Ok r)
  /\ (forall (a : args) (env : os_env) (h : list event),
        to_ext a = EmptyString
        \/ In EmptyString (split_on ","%char (from_exts a))
        \/ (exists s, copy_exts a = Some s /\ s <> EmptyString
                      /\ In EmptyString (split_on ","%char s)) ->
        exists r evs,
          main a env h = (r, h ++ evs)
          /\ (forall u, r <> Ok u)
          /\ Forall quiet evs
          /\ (In "@source"%string (CONVERT_CMD a) ->
              In "@dest"%string (CONVERT_CMD a) ->
              (0 < jobs a)%Z \/ cpu_count env <> None ->
              r = Raised IndexError)).
Proof.
  split; [reflexivity | split].
  - intros [| c s] Hs; [congruence |].
    unfold ensure_dot_prefix. simpl.
    destruct (Ascii.eqb c dot) eqn:E.
    + exists (String c s). simpl. rewrite E.
      apply Ascii.eqb_eq in E. subst. auto.
    + exists (String dot (String c s)). auto.
  - intros a env h Hin. unfold main.
    destruct (negb (str_in "@source" (CONVERT_CMD a))
              || negb (str_in "@dest" (CONVERT_CMD a)))%bool eqn:Ht.
    + exists (Exited 1%Z), [EPrint template_error].
      split; [reflexivity |]. split; [discriminate |].
      split; [repeat constructor |].
      intros H1 H2 _. apply str_in_In in H1, H2. rewrite H1, H2 in Ht.
      discriminate Ht.
    + unfold bind at 1. unfold ret at 1.
      destruct (effective_jobs_cases (jobs a) env h)
        as [(n & evs & E & Hq & Hj) | (E & Hj & Hc)].
      * rewrite (bind_ok _ _ _ _ _ _ E).
        exists (Raised IndexError), evs.
        assert (Hquiet : Forall quiet evs).
        { eapply Forall_impl; [| exact Hq]. intros e ->. split; reflexivity. }
        destruct (ensure_dot_prefix_cases (to_ext a)) as [[_ Et] | [r Et]].
        { unfold bind at 1. unfold lift at 1. rewrite Et.
          repeat split; auto; discriminate. }
        unfold bind at 1. unfold lift at 1. rewrite Et.
        unfold bind at 1. unfold normalize_exts. cbn [from_exts set_to_ext].
        destruct Hin as [Hto | [Hfrom | (s & Hs & Hne & Hcopy)]].
        -- rewrite Hto in Et. discriminate Et.
        -- rewrite (normalize_empty_token _ _ _ Hfrom).
           repeat split; auto; discriminate.
        -- destruct (normalize_cases (split_on ","%char (from_exts a)) env
                       (h ++ evs)) as [-> | [out ->]].
           { repeat split; auto; discriminate. }
           unfold bind at 1. cbn [copy_exts set_to_ext]. rewrite Hs.
           apply String.eqb_neq in Hne. unfold str_eq. rewrite Hne.
           rewrite (normalize_empty_token _ _ _ Hcopy).
           repeat split; auto; discriminate.
      * rewrite (bind_raised _ _ _ _ _ _ E).
        exists (Raised TypeError), [ECpuCount].
        split; [reflexivity |]. split; [discriminate |].
        split; [repeat constructor |].
        intros _ _ [Hpos | Hcpu]; [lia | contradiction].
Qed.

Lemma ensure_dot_prefix_partial_witness :
  (exists r, ensure_dot_prefix "wav" = Ok r
             /\ str_at 0 r = Some dot
             /\ ensure_dot_prefix r = Ok r)
  /\ main Samples.trailing_comma_args Samples.library_env []
     = (Raised IndexError, [])
  /\ main Samples.empty_copy_token_args Samples.library_env []
     = (Raised IndexError, []).
Proof.
  pose proof ensure_dot_prefix_partial as (_ & Hdot & Hmain).
  split; [| split].
  - apply (Hdot "wav"%string). discriminate.
  - destruct (Hmain Samples.trailing_comma_args Samples.library_env [])
      as (r & evs & E & _ & _ & Hr).
    + right. left. simpl. right. left. reflexivity.
    + reflexivity.
  - destruct (Hmain Samples.empty_copy_token_args Samples.library_env [])
      as (r & evs & E & _ & _ & Hr).
    + right. right. exists "jpg,,png"%string.
      split; [reflexivity |]. split; [discriminate |].
      simpl. right. left. reflexivity.
    + reflexivity.
Defined.

(* ================================================================== *)
(** ** Simulation mode *)
(* ================================================================== *)

(** In simulation mode the deletion loop only prints. *)
Lemma delete_files_dry_run (a : args) (fs : list string) (env : os_env)
    (h : list event) :
  dry_run a = true ->
  delete_files a fs env h
  = (Ok tt, h ++ map (fun f => EPrint (String.append "Removing:" (join (DEST a) f))) fs).
Proof.
  intros Hdry. unfold delete_files. rewrite Hdry. revert h.
  induction fs as [| f fs IH]; intros h; cbn [for_each map].
  - unfold ret. now rewrite app_nil_r.
  - unfold bind at 1. unfold bind at 1. unfold emit at 1.
    unfold ret at 1. rewrite IH, <- app_assoc. reflexivity.
Qed.

(** In simulation mode a worker prints the command and runs nothing. *)
Lemma worker_job_dry_run (a : args) (rel_fp : string) (env : os_env)
    (h : list event) :
  dry_run a = true ->
  exists cmd, worker_job a rel_fp env h = (Ok tt, h ++ [EPrintCmd cmd; ETaskDone]).
Proof.
  intros Hdry. unfold worker_job. rewrite Hdry. eexists.
  unfold bind, emit. rewrite <- app_assoc. reflexivity.
Qed.

Lemma worker_job_dry_run_prints (a : args) (rel_fp : string) (env : os_env)
    (h : list event) :
  dry_run a = true ->
  worker_job a rel_fp env h
  = (Ok tt,
     h ++ [EPrintCmd (substitute (CONVERT_CMD a) (join (SOURCE a) rel_fp)
                        (join (DEST a) (replace_ext rel_fp (to_ext a))));
           ETaskDone]).
Proof.
  intros Hdry. unfold worker_job. rewrite Hdry.
  unfold bind, emit. rewrite <- app_assoc. reflexivity.
Qed.

(** The copy loop calls [os.makedirs] before it looks at [dry_run]. *)
Lemma copy_files_dry_run_makedirs (a : args) (f : string) (fs : list string)
    (env : os_env) (h : list event) :
  dry_run a = true ->
  exists r evs,
    copy_files a (f :: fs) env h
    = (r, h ++ EPrint (String.append "Copying:" (join (SOURCE a) f))
             :: EMakedirs (fst (split (join (DEST a) f))) :: evs).
Proof.
  intros Hdry. unfold copy_files. rewrite Hdry. cbn [for_each].
  unfold bind at 1. unfold bind at 1. unfold emit at 1.
  unfold bind at 1. unfold oscall at 1.
  set (h1 := h ++ [EPrint _]).
  destruct (call_fails env h1 _).
  - exists (Raised OSError), []. subst h1. now rewrite <- app_assoc.
  - unfold ret at 1.
    match goal with |- context [for_each fs ?b env ?hh] =>
      destruct (for_each_extends fs b env hh) as (r & evs & E)
    end.
    + intros x h0. unfold bind, emit, oscall, ret.
      destruct (call_fails env _ _).
      * do 2 eexists. rewrite <- app_assoc. reflexivity.
      * do 2 eexists. rewrite <- app_assoc. reflexivity.
    + exists r, evs. rewrite E. subst h1. now rewrite <- !app_assoc.
Qed.

(** C2 (the code departs from it). A simulated run over a library that
    holds one file to copy in a sub-directory: the run goes on after the
    report and calls [os.makedirs] on the destination directory. *)
Theorem dry_run_creates_directories :
  dry_run (Samples.library_args true) = true
  /\ main (Samples.library_args true) Samples.library_env []
     = (Ok tt,
        [ECpuCount; EWalk "S"; EWalk "D"; EGetmtime "S/b.wav";
         EGetmtime "D/b.mp3"; EWalk "S"; EWalk "D";
         EPrint "delete :c.mp3"; EPrint "copy   :art/cover.jpg";
         EPrint "convert:a.wav"; EPrint "-----DRY-RUN-----";
         EPrint "Removing:D/c.mp3"; EPrint "Copying:S/art/cover.jpg";
         EMakedirs "D/art"; EStartThreads 4; EQueuePut "a.wav"; EQueueJoin])
  /\ mutates (EMakedirs "D/art") = true.
Proof. repeat split. Qed.

(* ================================================================== *)
(** ** Create and delete lists that overlap *)
(* ================================================================== *)

(** C9 (the code departs from it). Converting from flac and mp3 to mp3:
    the source holds x.flac and x.flac.mp3, the destination x.flac.mp3.
    Both listings are sorted, yet x.flac.mp3 lands in the create list and
    in the delete list: x.flac is renamed x.mp3 for the comparison, which
    is greater than x.flac.mp3, so the destination entry is taken as
    having no source. *)
Theorem create_delete_overlap :
  operations_to_sync false "S" "D" [".flac"; ".mp3"]%string (Some ".mp3"%string)
    Samples.reencode_env []
  = (Ok (["x.flac"; "x.flac.mp3"]%string, ["x.flac.mp3"%string]),
     [EWalk "S"; EWalk "D"])
  /\ In "x.flac.mp3"%string ["x.flac"; "x.flac.mp3"]%string
  /\ In "x.flac.mp3"%string ["x.flac.mp3"%string].
Proof. split; [reflexivity | simpl; auto]. Qed.

(* ================================================================== *)
(** ** The order on strings *)
(* ================================================================== *)

Lemma compare_refl (s : string) : String.compare s s = Eq.
Proof. now apply String_as_OT.cmp_eq. Qed.

Lemma compare_Gt_Lt (a b : string) :
  String.compare a b = Gt <-> String.compare b a = Lt.
Proof.
  rewrite (String.compare_antisym b a).
  destruct (String.compare a b); simpl; split; congruence.
Qed.

Lemma compare_Lt_trans (a b c : string) :
  String.compare a b = Lt -> String.compare b c = Lt -> String.compare a c = Lt.
Proof.
  intros H1 H2. apply String_as_OT.cmp_lt.
  apply String_as_OT.cmp_lt in H1, H2.
  eapply String_as_OT.lt_trans; eassumption.
Qed.

Lemma str_gt_lt (a b : string) : str_gt a b = str_lt b a.
Proof.
  unfold str_gt, str_lt. rewrite (String.compare_antisym b a).
  now destruct (String.compare a b).
Qed.

Lemma str_gt_not_eq (a b : string) : str_gt a b = true -> str_eq a b = false.
Proof.
  unfold str_gt, str_eq. intros H. apply String.eqb_neq. intros ->.
  now rewrite compare_refl in H.
Qed.

Lemma str_lt_not_eq_gt (a b : string) :
  str_lt a b = true -> str_eq a b = false /\ str_gt a b = false.
Proof.
  unfold str_lt, str_gt, str_eq. intros H. split.
  - apply String.eqb_neq. intros ->. now rewrite compare_refl in H.
  - now destruct (String.compare a b).
Qed.

(** The three branches of the loop are the three outcomes of one
    comparison. *)
Lemma str_trichotomy (a b : string) :
  (str_eq a b = true /\ a = b)
  \/ (str_eq a b = false /\ str_gt a b = true)
  \/ (str_eq a b = false /\ str_gt a b = false /\ str_lt a b = true).
Proof.
  unfold str_eq, str_gt, str_lt.
  destruct (String.compare a b) eqn:E.
  - left. apply String_as_OT.cmp_eq in E. subst.
    split; [apply String.eqb_refl | reflexivity].
  - right; right. repeat split; try reflexivity.
    apply String.eqb_neq. intros ->. now rewrite compare_refl in E.
  - right; left. split; [| reflexivity].
    apply String.eqb_neq. intros ->. now rewrite compare_refl in E.
Qed.

(* ================================================================== *)
(** ** The merge loop of [operations_to_sync] *)
(* ================================================================== *)

Lemma append_all_app (acc xs : list string) : append_all acc xs = acc ++ xs.
Proof.
  unfold append_all. revert acc.
  induction xs as [| x xs IH]; intros acc; simpl.
  - now rewrite app_nil_r.
  - rewrite IH, <- app_assoc. reflexivity.
Qed.

Lemma getmtime_some (p : string) (t : Z) (env : os_env) (h : list event) :
  mtime_of env p = Some t -> getmtime p env h = (Ok t, h ++ [EGetmtime p]).
Proof.
  intros E. unfold getmtime, bind, emit, ask. now rewrite E.
Qed.

Lemma sorted_filtered_paths_run (dir : string) (exts : list string)
    (env : os_env) (h : list event) :
  sorted_filtered_paths dir exts env h
  = (Ok (list_sort (listing (tree_at env dir) exts)), h ++ [EWalk dir]).
Proof. reflexivity. Qed.

Section DifferFacts.

Variable ignore : bool.
Variables src dest : string.
Variable dest_ext : option string.
Variables src_fps dest_fps : list string.

Local Abbreviation body := (loop_body ignore src dest dest_ext src_fps dest_fps).
Local Abbreviation cond := (loop_cond src_fps dest_fps).
Local Abbreviation loop := (while_loop ignore src dest dest_ext src_fps dest_fps).
Local Abbreviation key := (sort_key dest_ext).
Local Abbreviation left_to_go := (remaining src_fps dest_fps).


Lemma cond_in_range (st : merge_state) :
  cond st = true ->
  exists s d, nth_error src_fps (src_i st) = Some s
              /\ nth_error dest_fps (dest_i st) = Some d.
Proof.
  unfold loop_cond. intros H. apply andb_true_iff in H as [H1 H2].
  apply Nat.ltb_lt in H1, H2.
  destruct (nth_error src_fps (src_i st)) as [s |] eqn:Es;
    [| apply nth_error_None in Es; lia].
  destruct (nth_error dest_fps (dest_i st)) as [d |] eqn:Ed;
    [| apply nth_error_None in Ed; lia].
  eauto.
Qed.

Lemma in_range_cond (st : merge_state) (s d : string) :
  nth_error src_fps (src_i st) = Some s ->
  nth_error dest_fps (dest_i st) = Some d ->
  cond st = true.
Proof.
  intros Hs Hd. unfold loop_cond. apply andb_true_iff.
  split; apply Nat.ltb_lt; apply nth_error_Some; congruence.
Qed.

(** The body, once both entries are read. *)
Lemma body_read (st : merge_state) (s d : string) (env : os_env)
    (h : list event) :
  nth_error src_fps (src_i st) = Some s ->
  nth_error dest_fps (dest_i st) = Some d ->
  body st env h =
  (if str_eq (key s) d then
     stale <- (if negb ignore then
                 ms <- getmtime (join src s) ;;
                 md <- getmtime (join dest d) ;;
                 ret (ms >? md)%Z
               else ret false) ;;
     ret {| src_i := src_i st + 1; dest_i := dest_i st + 1;
            create := if stale then create st ++ [s] else create st;
            delete := delete st |}
   else if str_gt (key s) d then
     ret {| src_i := src_i st; dest_i := dest_i st + 1;
            create := create st; delete := delete st ++ [d] |}
   else
     ret {| src_i := src_i st + 1; dest_i := dest_i st;
            create := create st ++ [s]; delete := delete st |}) env h.
Proof.
  intros Hs Hd. unfold loop_body, list_at. rewrite Hs.
  unfold bind at 1. unfold ret at 1. rewrite Hd.
  unfold bind at 1. unfold ret at 1. reflexivity.
Qed.

Lemma body_greater (st : merge_state) (s d : string) (env : os_env)
    (h : list event) :
  nth_error src_fps (src_i st) = Some s ->
  nth_error dest_fps (dest_i st) = Some d ->
  str_gt (key s) d = true ->
  body st env h
  = (Ok {| src_i := src_i st; dest_i := dest_i st + 1;
           create := create st; delete := delete st ++ [d] |}, h).
Proof.
  intros Hs Hd Hgt. rewrite (body_read _ _ _ _ _ Hs Hd).
  now rewrite (str_gt_not_eq _ _ Hgt), Hgt.
Qed.

Lemma body_smaller (st : merge_state) (s d : string) (env : os_env)
    (h : list event) :
  nth_error src_fps (src_i st) = Some s ->
  nth_error dest_fps (dest_i st) = Some d ->
  str_lt (key s) d = true ->
  body st env h
  = (Ok {| src_i := src_i st + 1; dest_i := dest_i st;
           create := create st ++ [s]; delete := delete st |}, h).
Proof.
  intros Hs Hd Hlt. rewrite (body_read _ _ _ _ _ Hs Hd).
  destruct (str_lt_not_eq_gt _ _ Hlt) as [-> ->]. reflexivity.
Qed.

Lemma body_equal_checked (st : merge_state) (s d : string) (ms md : Z)
    (env : os_env) (h : list event) :
  nth_error src_fps (src_i st) = Some s ->
  nth_error dest_fps (dest_i st) = Some d ->
  str_eq (key s) d = true ->
  ignore = false ->
  mtime_of env (join src s) = Some ms ->
  mtime_of env (join dest d) = Some md ->
  body st env h
  = (Ok {| src_i := src_i st + 1; dest_i := dest_i st + 1;
           create := if (ms >? md)%Z then create st ++ [s] else create st;
           delete := delete st |},
     h ++ [EGetmtime (join src s); EGetmtime (join dest d)]).
Proof.
  intros Hs Hd Heq Hig Hms Hmd. rewrite (body_read _ _ _ _ _ Hs Hd).
  rewrite Heq, Hig. cbn [negb].
  rewrite (bind_ok _ _ _ _
             (h ++ [EGetmtime (join src s); EGetmtime (join dest d)])
             (ms >? md)%Z); [reflexivity |].
  rewrite (bind_ok _ _ _ _ _ _ (getmtime_some _ _ _ _ Hms)).
  rewrite (bind_ok _ _ _ _ _ _ (getmtime_some _ _ _ _ Hmd)).
  unfold ret. now rewrite <- app_assoc.
Qed.

Lemma body_equal_unchecked (st : merge_state) (s d : string)
    (env : os_env) (h : list event) :
  nth_error src_fps (src_i st) = Some s ->
  nth_error dest_fps (dest_i st) = Some d ->
  str_eq (key s) d = true ->
  ignore = true ->
  body st env h
  = (Ok {| src_i := src_i st + 1; dest_i := dest_i st + 1;
           create := create st; delete := delete st |}, h).
Proof.
  intros Hs Hd Heq Hig. rewrite (body_read _ _ _ _ _ Hs Hd).
  rewrite Heq, Hig. reflexivity.
Qed.

(** When the modification times can be read, or are not looked at, a
    turn of the loop succeeds and moves at least one pointer. *)
Lemma body_progress (st : merge_state) (env : os_env) (h : list event) :
  ignore = true \/ (forall p, mtime_of env p <> None) ->
  cond st = true ->
  exists st' evs, body st env h = (Ok st', h ++ evs)
                  /\ left_to_go st' < left_to_go st.
Proof.
  intros Hm Hc. pose proof Hc as Hr.
  unfold loop_cond in Hr. apply andb_true_iff in Hr as [H1 H2].
  apply Nat.ltb_lt in H1, H2.
  destruct (cond_in_range st Hc) as (s & d & Hs & Hd).
  destruct (str_trichotomy (key s) d) as [[E _] | [[E G] | (E & G & L)]].
  - destruct (bool_dec ignore true) as [Hig | Hig].
    + eexists. exists []. rewrite app_nil_r. split.
      * now apply (body_equal_unchecked st s d).
      * unfold remaining; simpl; lia.
    + apply not_true_is_false in Hig.
      destruct Hm as [Hm | Hm]; [congruence |].
      destruct (mtime_of env (join src s)) as [ms |] eqn:Hms;
        [| now apply Hm in Hms].
      destruct (mtime_of env (join dest d)) as [md |] eqn:Hmd;
        [| now apply Hm in Hmd].
      eexists. eexists. split.
      * now apply (body_equal_checked st s d ms md).
      * unfold remaining; simpl; lia.
  - eexists. exists []. rewrite app_nil_r. split.
    + now apply (body_greater st s d).
    + unfold remaining; simpl; lia.
  - eexists. exists []. rewrite app_nil_r. split.
    + now apply (body_smaller st s d).
    + unfold remaining; simpl; lia.
Qed.

(** The loop ends, and ends with a pointer at the end of its listing. *)
Lemma while_loop_exits (fuel : nat) (st : merge_state) (env : os_env)
    (h : list event) :
  ignore = true \/ (forall p, mtime_of env p <> None) ->
  left_to_go st <= fuel ->
  exists st' evs, loop fuel st env h = (Ok st', h ++ evs)
                  /\ cond st' = false.
Proof.
  intros Hm. revert st h.
  induction fuel as [| fuel IH]; intros st h Hfuel.
  - simpl. destruct (cond st) eqn:Hc.
    + exfalso. unfold loop_cond in Hc. apply andb_true_iff in Hc as [H1 H2].
      apply Nat.ltb_lt in H1, H2. unfold remaining in Hfuel. lia.
    + exists st, []. now rewrite app_nil_r.
  - simpl. destruct (cond st) eqn:Hc.
    + destruct (body_progress st env h Hm Hc) as (st1 & evs1 & E1 & Hlt).
      rewrite (bind_ok _ _ _ _ _ _ E1).
      destruct (IH st1 (h ++ evs1)) as (st' & evs' & E' & Hc'); [lia |].
      exists st', (evs1 ++ evs'). rewrite app_assoc. auto.
    + exists st, []. now rewrite app_nil_r.
Qed.

(** A turn that succeeds took one of the three branches. *)
Lemma body_ok_cases (st st1 : merge_state) (env : os_env) (h h1 : list event) :
  cond st = true ->
  body st env h = (Ok st1, h1) ->
  exists s d,
    nth_error src_fps (src_i st) = Some s
    /\ nth_error dest_fps (dest_i st) = Some d
    /\ ((key s = d
         /\ src_i st1 = src_i st + 1 /\ dest_i st1 = dest_i st + 1
         /\ delete st1 = delete st
         /\ (create st1 = create st \/ create st1 = create st ++ [s]))
        \/ (str_gt (key s) d = true
            /\ st1 = {| src_i := src_i st; dest_i := dest_i st + 1;
                        create := create st; delete := delete st ++ [d] |})
        \/ (str_lt (key s) d = true
            /\ st1 = {| src_i := src_i st + 1; dest_i := dest_i st;
                        create := create st ++ [s]; delete := delete st |})).
Proof.
  intros Hc Hb. destruct (cond_in_range st Hc) as (s & d & Hs & Hd).
  exists s, d. split; [exact Hs | split; [exact Hd |]].
  destruct (str_trichotomy (key s) d) as [[E Ekey] | [[E G] | (E & G & L)]].
  - left. rewrite (body_read _ _ _ _ _ Hs Hd), E in Hb.
    unfold bind at 1 in Hb.
    match type of Hb with
    | context [?m env h] => destruct (m env h) as [[b | e | c |] h2]
    end; try discriminate.
    unfold ret in Hb. inversion Hb; subst. simpl.
    repeat split; auto. destruct b; auto.
  - right; left. split; [exact G |].
    rewrite (body_greater _ _ _ _ _ Hs Hd G) in Hb. now inversion Hb.
  - right; right. split; [exact L |].
    rewrite (body_smaller _ _ _ _ _ Hs Hd L) in Hb. now inversion Hb.
Qed.

Lemma body_ok_decreases (st st1 : merge_state) (env : os_env)
    (h h1 : list event) :
  cond st = true ->
  body st env h = (Ok st1, h1) ->
  left_to_go st1 < left_to_go st.
Proof.
  intros Hc Hb. pose proof Hc as Hr. unfold loop_cond in Hr.
  apply andb_true_iff in Hr as [H1 H2]. apply Nat.ltb_lt in H1, H2.
  destruct (body_ok_cases _ _ _ _ _ Hc Hb)
    as (s & d & _ & _ & [(_ & Ei & Ej & _) | [[_ ->] | [_ ->]]]);
    unfold remaining; simpl; lia.
Qed.

(** Whenever the loop returns, a pointer is at the end of its listing. *)
Lemma while_loop_ok_exit (fuel : nat) :
  forall st st' env h h',
    left_to_go st <= fuel ->
    loop fuel st env h = (Ok st', h') ->
    cond st' = false.
Proof.
  induction fuel as [| fuel IH]; intros st st' env h h' Hfuel Hrun;
    simpl in Hrun; destruct (cond st) eqn:Hc.
  - exfalso. unfold loop_cond in Hc. apply andb_true_iff in Hc as [H1 H2].
    apply Nat.ltb_lt in H1, H2. unfold remaining in Hfuel. lia.
  - inversion Hrun; subst. exact Hc.
  - unfold bind in Hrun.
    destruct (body st env h) as [[st1 | e | c |] h1] eqn:Hb; try discriminate.
    pose proof (body_ok_decreases _ _ _ _ _ Hc Hb).
    eapply IH; [| exact Hrun]. lia.
  - inversion Hrun; subst. exact Hc.
Qed.

Section Ascending.

Hypothesis src_ascends : ascending_by key src_fps.
Hypothesis dest_ascends : ascending_by (fun d => d) dest_fps.

Local Abbreviation inv := (merge_inv key src_fps dest_fps).

Lemma inv_initial :
  inv {| src_i := 0; dest_i := 0; create := []; delete := [] |}.
Proof.
  repeat split; simpl; intros; try lia; contradiction.
Qed.

Lemma inv_step (st st1 : merge_state) (env : os_env) (h h1 : list event) :
  cond st = true ->
  body st env h = (Ok st1, h1) ->
  inv st -> inv st1.
Proof.
  intros Hc Hb (Hsd & Hds & Hcr & Hdel).
  destruct (body_ok_cases _ _ _ _ _ Hc Hb)
    as (s & d & Hs & Hd & [(Ekey & Ei & Ej & Edel & Ecr) | [[G ->] | [L ->]]]).
  - (* equal *)
    unfold merge_inv. rewrite Ei, Ej, Edel.
    split; [| split; [| split]].
    + intros a b s0 d0 Ha Hb0 Hs0 Hd0.
      destruct (Nat.eq_dec a (src_i st)) as [-> | Hne].
      * rewrite Hs in Hs0. inversion Hs0; subst s0. rewrite Ekey.
        apply (dest_ascends (dest_i st) b); auto; lia.
      * apply (Hsd a b); auto; lia.
    + intros a b s0 d0 Hb0 Ha Hs0 Hd0.
      destruct (Nat.eq_dec b (dest_i st)) as [-> | Hne].
      * rewrite Hd in Hd0. inversion Hd0; subst d0. rewrite <- Ekey.
        apply (src_ascends (src_i st) a); auto; lia.
      * apply (Hds a b); auto; lia.
    + intros x Hx. destruct Ecr as [Ecr | Ecr]; rewrite Ecr in Hx; [auto |].
      apply in_app_or in Hx as [Hx | [<- | []]]; [auto |].
      eapply nth_error_In; eassumption.
    + exact Hdel.
  - (* greater: the destination entry is deleted *)
    rewrite str_gt_lt in G.
    assert (Hnew : forall a s0, src_i st <= a ->
                     nth_error src_fps a = Some s0 ->
                     str_lt d (key s0) = true).
    { intros a s0 Ha Hs0. destruct (Nat.eq_dec a (src_i st)) as [-> | Hne].
      - rewrite Hs in Hs0. now inversion Hs0; subst.
      - unfold str_lt in *.
        destruct (String.compare d (key s)) eqn:E1; try discriminate.
        assert (E2 : String.compare (key s) (key s0) = Lt).
        { pose proof (src_ascends (src_i st) a s s0) as Hk. unfold str_lt in Hk.
          destruct (String.compare (key s) (key s0)); auto;
            (assert (false = true) by (apply Hk; auto; lia)); discriminate. }
        now rewrite (compare_Lt_trans _ _ _ E1 E2). }
    unfold merge_inv. simpl. split; [| split; [| split]].
    + intros a b s0 d0 Ha Hb0. apply (Hsd a b); auto; lia.
    + intros a b s0 d0 Hb0 Ha Hs0 Hd0.
      destruct (Nat.eq_dec b (dest_i st)) as [-> | Hne].
      * rewrite Hd in Hd0. inversion Hd0; subst d0. eapply Hnew; eauto.
      * apply (Hds a b); auto; lia.
    + exact Hcr.
    + intros x Hx. apply in_app_or in Hx as [Hx | [<- | []]]; [auto |].
      split; [eapply nth_error_In; eassumption |].
      intros s0 Hin Heq. apply In_nth_error in Hin as [a Ha].
      assert (Hlt : str_lt (key s0) d = true \/ str_lt d (key s0) = true).
      { destruct (Nat.lt_ge_cases a (src_i st)).
        - left. apply (Hsd a (dest_i st)); auto.
        - right. eapply Hnew; eauto. }
      rewrite Heq in Hlt. unfold str_lt in Hlt. rewrite compare_refl in Hlt.
      destruct Hlt; discriminate.
  - (* smaller: the source entry is created *)
    unfold merge_inv. simpl. split; [| split; [| split]].
    + intros a b s0 d0 Ha Hb0 Hs0 Hd0.
      destruct (Nat.eq_dec a (src_i st)) as [-> | Hne].
      * rewrite Hs in Hs0. inversion Hs0; subst s0.
        destruct (Nat.eq_dec b (dest_i st)) as [-> | Hnb].
        -- rewrite Hd in Hd0. now inversion Hd0; subst.
        -- unfold str_lt in *.
           destruct (String.compare (key s) d) eqn:E1; try discriminate.
           assert (E2 : String.compare d d0 = Lt).
           { pose proof (dest_ascends (dest_i st) b d d0) as Hk.
             unfold str_lt in Hk.
             destruct (String.compare d d0); auto;
               (assert (false = true) by (apply Hk; auto; lia)); discriminate. }
           now rewrite (compare_Lt_trans _ _ _ E1 E2).
      * apply (Hsd a b); auto; lia.
    + intros a b s0 d0 Hb0 Ha. apply (Hds a b); auto; lia.
    + intros x Hx. apply in_app_or in Hx as [Hx | [<- | []]]; [auto |].
      eapply nth_error_In; eassumption.
    + exact Hdel.
Qed.

Lemma inv_loop (fuel : nat) :
  forall st st' env h h',
    loop fuel st env h = (Ok st', h') -> inv st -> inv st'.
Proof.
  induction fuel as [| fuel IH]; intros st st' env h h' Hrun Hinv;
    simpl in Hrun; destruct (cond st) eqn:Hc;
    try (inversion Hrun; subst; exact Hinv).
  unfold bind in Hrun.
  destruct (body st env h) as [[st1 | e | c |] h1] eqn:Hb; try discriminate.
  eapply IH; [exact Hrun |]. eapply inv_step; eassumption.
Qed.

(** For ascending listings the plan is sound: what is created is a
    source entry, what is deleted is a destination entry that no source
    entry is renamed to. *)
Lemma merge_loop_sound (env : os_env) (h h' : list event)
    (c d : list string) :
  merge_loop ignore src dest dest_ext src_fps dest_fps env h = (Ok (c, d), h') ->
  (forall x, In x c -> In x src_fps)
  /\ (forall x, In x d ->
                In x dest_fps /\ forall s, In s src_fps -> key s <> x).
Proof.
  unfold merge_loop, bind. intros Hrun.
  destruct (loop _ _ env h) as [[st | e | k |] h1] eqn:Hloop; try discriminate.
  unfold ret, leftovers in Hrun. rewrite !append_all_app in Hrun.
  inversion Hrun; subst; clear Hrun.
  pose proof (inv_loop _ _ _ _ _ _ Hloop inv_initial) as (Hsd & _ & Hcr & Hdel).
  assert (Hexit : cond st = false).
  { eapply while_loop_ok_exit; [| exact Hloop]. unfold remaining; simpl; lia. }
  split.
  - intros x Hx. apply in_app_or in Hx as [Hx | Hx]; [auto |].
    revert Hx. generalize (src_i st), src_fps.
    intros n l. revert l. induction n as [| n IH]; intros [| y l] Hx;
      simpl in Hx; auto. right. auto.
  - intros x Hx. apply in_app_or in Hx as [Hx | Hx]; [auto |].
    assert (Hnth : exists b, dest_i st <= b /\ nth_error dest_fps b = Some x).
    { apply In_nth_error in Hx as [b Hb]. exists (dest_i st + b). split; [lia |].
      now rewrite <- nth_error_skipn. }
    destruct Hnth as (b & Hle & Hb). split.
    + eapply nth_error_In; eassumption.
    + intros s0 Hin Heq. apply In_nth_error in Hin as [a Ha].
      unfold loop_cond in Hexit. apply andb_false_iff in Hexit as [Hx0 | Hx0];
        apply Nat.ltb_ge in Hx0.
      * assert (Ha' : a < src_i st).
        { assert (a < List.length src_fps)
            by (apply nth_error_Some; congruence). lia. }
        pose proof (Hsd a b s0 x Ha' Hle Ha Hb) as Hlt.
        rewrite Heq in Hlt. unfold str_lt in Hlt.
        rewrite compare_refl in Hlt. discriminate.
      * assert (b < List.length dest_fps)
          by (apply nth_error_Some; congruence). lia.
Qed.

End Ascending.

End DifferFacts.

(** X12. The copy plan renames nothing: for ascending listings its create and
    delete lists share no path. The conversion plan has this only while
    renaming the extension keeps the source listing ascending. *)
Lemma copy_plan_disjoint (ignore : bool) (src dest : string)
    (src_fps dest_fps : list string) (env : os_env) (h h' : list event)
    (c d : list string) :
  ascending_by (fun s => s) src_fps ->
  ascending_by (fun s => s) dest_fps ->
  merge_loop ignore src dest None src_fps dest_fps env h = (Ok (c, d), h') ->
  forall x, In x c -> In x d -> False.
Proof.
  intros Hs Hd Hrun x Hc Hdel.
  destruct (merge_loop_sound ignore src dest None src_fps dest_fps Hs Hd
              env h h' c d Hrun) as [Hcreate Hdelete].
  destruct (Hdelete x Hdel) as [_ Hno].
  apply (Hno x (Hcreate x Hc)). reflexivity.
Qed.

(** *** The loop against the merge of the specification *)

Lemma skipn_nth_cons (l : list string) (i : nat) (x : string) :
  nth_error l i = Some x -> skipn i l = x :: skipn (S i) l.
Proof.
  revert l. induction i as [| i IH]; intros [| y l] H; try discriminate.
  - now inversion H.
  - simpl in H. cbn [skipn]. now apply IH.
Qed.

Lemma spec_merge_nil_r (ext_remap : string -> string)
    (stale : string -> string -> option bool) (l : list string) :
  spec_merge ext_remap stale l [] = Some (l, []).
Proof. now destruct l. Qed.

Lemma spec_merge_cons (ext_remap : string -> string)
    (stale : string -> string -> option bool) (s d : string)
    (ss ds : list string) :
  spec_merge ext_remap stale (s :: ss) (d :: ds)
  = match String.compare (ext_remap s) d with
    | Gt =>
        match spec_merge ext_remap stale (s :: ss) ds with
        | Some (to_create, to_delete) => Some (to_create, d :: to_delete)
        | None => None
        end
    | Lt =>
        match spec_merge ext_remap stale ss (d :: ds) with
        | Some (to_create, to_delete) => Some (s :: to_create, to_delete)
        | None => None
        end
    | Eq =>
        match stale s d, spec_merge ext_remap stale ss ds with
        | Some again, Some (to_create, to_delete) =>
            Some (if again then s :: to_create else to_create, to_delete)
        | _, _ => None
        end
    end.
Proof. reflexivity. Qed.

Section DifferRefines.

Variable ignore : bool.
Variables src dest : string.
Variable dest_ext : option string.
Variables src_fps dest_fps : list string.
Variable env : os_env.

Local Abbreviation body := (loop_body ignore src dest dest_ext src_fps dest_fps).
Local Abbreviation cond := (loop_cond src_fps dest_fps).
Local Abbreviation loop := (while_loop ignore src dest dest_ext src_fps dest_fps).
Local Abbreviation key := (sort_key dest_ext).
Local Abbreviation left_to_go := (remaining src_fps dest_fps).
Local Abbreviation merged :=
  (spec_merge (sort_key dest_ext) (spec_stale ignore src dest env)).

(** A matched pair with a modification time that cannot be read. *)
Lemma body_equal_unreadable (st : merge_state) (s d : string)
    (h : list event) :
  nth_error src_fps (src_i st) = Some s ->
  nth_error dest_fps (dest_i st) = Some d ->
  str_eq (key s) d = true ->
  ignore = false ->
  mtime_of env (join src s) = None \/ mtime_of env (join dest d) = None ->
  exists h', body st env h = (Raised OSError, h').
Proof.
  intros Hs Hd Heq Hig Hm.
  rewrite (body_read ignore src dest dest_ext src_fps dest_fps st s d env h
             Hs Hd).
  rewrite Heq, Hig. cbn [negb].
  cbv beta iota delta [bind getmtime emit ask ret raise].
  destruct (mtime_of env (join src s)) as [ms |]; [| eauto].
  destruct Hm as [Hm | Hm]; [discriminate |]. rewrite Hm. eauto.
Qed.

Lemma while_loop_stops (st : merge_state) (h : list event) :
  cond st = false ->
  fst ((st' <- ret st ;; ret (leftovers src_fps dest_fps st')) env h)
  = plan_from st (merged (skipn (src_i st) src_fps)
                         (skipn (dest_i st) dest_fps)).
Proof.
  intros Hc. unfold bind, ret, leftovers. cbn [fst].
  rewrite !append_all_app. unfold loop_cond in Hc.
  apply andb_false_iff in Hc as [Hc | Hc]; apply Nat.ltb_ge in Hc.
  - rewrite (skipn_all2 src_fps) by exact Hc.
    cbn [spec_merge plan_from]. now rewrite app_nil_r.
  - rewrite (skipn_all2 dest_fps) by exact Hc.
    now rewrite spec_merge_nil_r.
Qed.

Lemma while_loop_refines (fuel : nat) :
  forall (st : merge_state) (h : list event),
    left_to_go st <= fuel ->
    fst ((st' <- loop fuel st ;; ret (leftovers src_fps dest_fps st')) env h)
    = plan_from st (merged (skipn (src_i st) src_fps)
                           (skipn (dest_i st) dest_fps)).
Proof.
  induction fuel as [| fuel IH]; intros st h Hfuel;
    cbn [while_loop]; destruct (cond st) eqn:Hc.
  - exfalso. unfold loop_cond in Hc. apply andb_true_iff in Hc as [H1 H2].
    apply Nat.ltb_lt in H1, H2. unfold remaining in Hfuel. lia.
  - apply while_loop_stops. exact Hc.
  - destruct (cond_in_range src_fps dest_fps st Hc) as (s & d & Hs & Hd).
    pose proof (skipn_nth_cons _ _ _ Hs) as Ks.
    pose proof (skipn_nth_cons _ _ _ Hd) as Kd.
    pose proof Hc as Hr. unfold loop_cond in Hr.
    apply andb_true_iff in Hr as [H1 H2]. apply Nat.ltb_lt in H1, H2.
    rewrite bind_assoc.
    destruct (str_trichotomy (key s) d) as [[E Ekey] | [[E G] | (E & G & L)]].
    + rewrite Ks, Kd, spec_merge_cons, Ekey, compare_refl.
      rewrite <- Ekey.
      destruct (bool_dec ignore true) as [Hig | Hig].
      * assert (Hst : spec_stale ignore src dest env s (key s) = Some false)
          by (unfold spec_stale; now rewrite Hig).
        rewrite Hst.
        rewrite (bind_ok _ _ _ _ _ _
                   (body_equal_unchecked ignore src dest dest_ext src_fps
                      dest_fps st s d env h Hs Hd E Hig)).
        rewrite IH by (unfold remaining in *; simpl; lia).
        cbn [src_i dest_i create delete]. rewrite !Nat.add_1_r.
        now destruct (spec_merge _ _ _ _) as [[c dl] |].
      * apply not_true_is_false in Hig.
        destruct (mtime_of env (join src s)) as [ms |] eqn:Hms.
        2:{ assert (Hst : spec_stale ignore src dest env s (key s) = None)
              by (unfold spec_stale; now rewrite Hig, Hms).
            rewrite Hst.
            destruct (body_equal_unreadable st s d h Hs Hd E Hig)
              as [h' Hb]; [now left |].
            now rewrite (bind_raised _ _ _ _ _ _ Hb). }
        destruct (mtime_of env (join dest d)) as [md |] eqn:Hmd.
        2:{ assert (Hst : spec_stale ignore src dest env s (key s) = None)
              by (unfold spec_stale; now rewrite Hig, Hms, Ekey, Hmd).
            rewrite Hst.
            destruct (body_equal_unreadable st s d h Hs Hd E Hig)
              as [h' Hb]; [now right |].
            now rewrite (bind_raised _ _ _ _ _ _ Hb). }
        assert (Hst : spec_stale ignore src dest env s (key s)
                      = Some (ms >? md)%Z)
          by (unfold spec_stale; now rewrite Hig, Hms, Ekey, Hmd).
        rewrite Hst.
        rewrite (bind_ok _ _ _ _ _ _
                   (body_equal_checked ignore src dest dest_ext src_fps
                      dest_fps st s d ms md env h Hs Hd E Hig Hms Hmd)).
        rewrite IH by (unfold remaining in *; simpl; lia).
        cbn [src_i dest_i create delete]. rewrite !Nat.add_1_r.
        destruct (spec_merge _ _ _ _) as [[c dl] |]; [| reflexivity].
        destruct (ms >? md)%Z; cbn [plan_from create delete];
          now rewrite <- ?app_assoc.
    + rewrite (bind_ok _ _ _ _ _ _
                 (body_greater ignore src dest dest_ext src_fps dest_fps
                    st s d env h Hs Hd G)).
      rewrite IH by (unfold remaining in *; simpl; lia).
      cbn [src_i dest_i create delete]. rewrite !Nat.add_1_r.
      rewrite Kd, Ks, spec_merge_cons.
      unfold str_gt in G.
      destruct (String.compare (key s) d); try discriminate.
      destruct (spec_merge _ _ _ _) as [[c dl] |]; [| reflexivity].
      cbn [plan_from create delete]. now rewrite <- app_assoc.
    + rewrite (bind_ok _ _ _ _ _ _
                 (body_smaller ignore src dest dest_ext src_fps dest_fps
                    st s d env h Hs Hd L)).
      rewrite IH by (unfold remaining in *; simpl; lia).
      cbn [src_i dest_i create delete]. rewrite !Nat.add_1_r.
      rewrite Ks, Kd, spec_merge_cons.
      unfold str_lt in L.
      destruct (String.compare (key s) d); try discriminate.
      destruct (spec_merge _ _ _ _) as [[c dl] |]; [| reflexivity].
      cbn [plan_from create delete]. now rewrite <- app_assoc.
  - apply while_loop_stops. exact Hc.
Qed.

Lemma merge_loop_refines (h : list event) :
  fst (merge_loop ignore src dest dest_ext src_fps dest_fps env h)
  = spec_outcome (merged src_fps dest_fps).
Proof.
  unfold merge_loop. rewrite while_loop_refines by (unfold remaining; simpl; lia).
  cbn [src_i dest_i skipn].
  now destruct (spec_merge _ _ _ _) as [[c dl] |].
Qed.

End DifferRefines.

(** C1. The differ is a two-pointer merge, for any two listings and any
    renaming of the extension. At a turn that reads source entry [s]
    and destination entry [d]: if [s], renamed, is greater than [d],
    then [d] is appended to the delete list and only the destination
    pointer moves; if it is smaller, [s] itself is appended to the
    create list and only the source pointer moves. The loop made of
    these turns, followed by the two loops over what is left, returns
    what the merge described in the specification returns
    ([spec_merge]: once a listing is exhausted, all that is left of the
    source is created and all that is left of the destination is
    deleted), or raises the OSError of a matched pair whose modification
    time cannot be read; and so does [operations_to_sync] on the sorted
    listings of the two trees. *)
Theorem two_pointer_merge :
  forall (ignore : bool) (src dest : string) (dest_ext : option string)
         (src_fps dest_fps : list string),
    (forall st s d env h,
        nth_error src_fps (src_i st) = Some s ->
        nth_error dest_fps (dest_i st) = Some d ->
        str_gt (sort_key dest_ext s) d = true ->
        loop_body ignore src dest dest_ext src_fps dest_fps st env h
        = (Ok {| src_i := src_i st; dest_i := dest_i st + 1;
                 create := create st; delete := delete st ++ [d] |}, h))
    /\ (forall st s d env h,
        nth_error src_fps (src_i st) = Some s ->
        nth_error dest_fps (dest_i st) = Some d ->
        str_lt (sort_key dest_ext s) d = true ->
        loop_body ignore src dest dest_ext src_fps dest_fps st env h
        = (Ok {| src_i := src_i st + 1; dest_i := dest_i st;
                 create := create st ++ [s]; delete := delete st |}, h))
    /\ (forall env h,
        fst (merge_loop ignore src dest dest_ext src_fps dest_fps env h)
        = spec_outcome
            (spec_merge (sort_key dest_ext) (spec_stale ignore src dest env)
               src_fps dest_fps))
    /\ (forall e exts env h,
        fst (operations_to_sync ignore src dest (e :: exts) dest_ext env h)
        = spec_outcome
            (spec_merge (sort_key dest_ext) (spec_stale ignore src dest env)
               (list_sort (listing (tree_at env src) (e :: exts)))
               (list_sort (listing (tree_at env dest)
                             (dest_exts (e :: exts) dest_ext))))).
Proof.
  intros ignore src dest dest_ext src_fps dest_fps.
  split; [| split; [| split]].
  - intros. eapply body_greater; eassumption.
  - intros. eapply body_smaller; eassumption.
  - intros env h. apply merge_loop_refines.
  - intros e exts env h. unfold operations_to_sync.
    rewrite (bind_ok _ _ _ _ _ _ (sorted_filtered_paths_run _ _ _ _)).
    rewrite (bind_ok _ _ _ _ _ _ (sorted_filtered_paths_run _ _ _ _)).
    apply merge_loop_refines.
Qed.


Lemma two_pointer_merge_witness :
  loop_body false "S" "D" (Some ".mp3"%string) ["a.wav"; "c.wav"]%string
    ["b.mp3"%string]
    {| src_i := 1; dest_i := 0; create := ["a.wav"%string]; delete := [] |}
    Samples.library_env []
  = (Ok {| src_i := 1; dest_i := 0 + 1; create := ["a.wav"%string];
           delete := [] ++ ["b.mp3"%string] |}, [])
  /\ loop_body false "S" "D" (Some ".mp3"%string) ["a.wav"; "c.wav"]%string
       ["b.mp3"%string]
       {| src_i := 0; dest_i := 0; create := []; delete := [] |}
       Samples.library_env []
     = (Ok {| src_i := 0 + 1; dest_i := 0; create := [] ++ ["a.wav"%string];
              delete := [] |}, [])
  /\ fst (merge_loop false "S" "D" (Some ".mp3"%string)
            ["a.wav"; "b.wav"; "c.wav"]%string ["b.mp3"; "d.mp3"]%string
            Samples.touched_env [])
     = Ok (["a.wav"; "b.wav"; "c.wav"]%string, ["d.mp3"%string])
  /\ fst (operations_to_sync false "S" "D" [".wav"%string]
            (Some ".mp3"%string) Samples.touched_env [])
     = Ok (["a.wav"; "b.wav"]%string, ["c.mp3"%string])
  /\ fst (operations_to_sync false "S" "D" [".wav"%string]
            (Some ".mp3"%string) Samples.vanished_env [])
     = Raised OSError.
Proof.
  pose proof (two_pointer_merge false "S" "D" (Some ".mp3"%string))
    as Hmerge.
  split; [| split; [| split; [| split]]].
  - destruct (Hmerge ["a.wav"; "c.wav"]%string ["b.mp3"%string])
      as (Hgt & _).
    apply (Hgt {| src_i := 1; dest_i := 0; create := ["a.wav"%string];
                  delete := [] |} "c.wav"%string "b.mp3"%string);
      reflexivity.
  - destruct (Hmerge ["a.wav"; "c.wav"]%string ["b.mp3"%string])
      as (_ & Hlt & _).
    apply (Hlt {| src_i := 0; dest_i := 0; create := []; delete := [] |}
             "a.wav"%string "b.mp3"%string); reflexivity.
  - destruct (Hmerge ["a.wav"; "b.wav"; "c.wav"]%string
                ["b.mp3"; "d.mp3"]%string) as (_ & _ & Hloop & _).
    rewrite Hloop. reflexivity.
  - destruct (Hmerge [] []) as (_ & _ & _ & Hsync).
    rewrite Hsync. reflexivity.
  - destruct (Hmerge [] []) as (_ & _ & _ & Hsync).
    rewrite Hsync. reflexivity.
Defined.

(** C8. A turn of the loop at which the source entry [s], renamed, is
    the destination entry [d]. With the check disabled the create list is
    left as it is, whatever the modification times, and none is read.
    With the check enabled and both times readable, [s] is appended to
    the create list exactly when its time is strictly greater than that
    of [d]. Either way both pointers move by one and the delete list is
    left as it is. *)
Theorem matched_pair_step :
  forall (ignore : bool) (src dest : string) (dest_ext : option string)
         (src_fps dest_fps : list string) (st : merge_state) (s d : string)
         (env : os_env) (h : list event),
    nth_error src_fps (src_i st) = Some s ->
    nth_error dest_fps (dest_i st) = Some d ->
    sort_key dest_ext s = d ->
    (ignore = true ->
     loop_body ignore src dest dest_ext src_fps dest_fps st env h
     = (Ok {| src_i := src_i st + 1; dest_i := dest_i st + 1;
              create := create st; delete := delete st |}, h))
    /\ (ignore = false ->
        forall ms md : Z,
          mtime_of env (join src s) = Some ms ->
          mtime_of env (join dest d) = Some md ->
          loop_body ignore src dest dest_ext src_fps dest_fps st env h
          = (Ok {| src_i := src_i st + 1; dest_i := dest_i st + 1;
                   create := if (ms >? md)%Z then create st ++ [s]
                             else create st;
                   delete := delete st |},
             h ++ [EGetmtime (join src s); EGetmtime (join dest d)])).
Proof.
  intros ignore src dest dest_ext src_fps dest_fps st s d env h Hs Hd Hkey.
  assert (Heq : str_eq (sort_key dest_ext s) d = true).
  { rewrite Hkey. apply String.eqb_refl. }
  split.
  - intros Hig. eapply body_equal_unchecked; eassumption.
  - intros Hig ms md Hms Hmd. eapply body_equal_checked; eassumption.
Qed.

Lemma matched_pair_step_witness :
  loop_body true "S" "D" (Some ".mp3"%string) ["b.wav"%string] ["b.mp3"%string]
    {| src_i := 0; dest_i := 0; create := []; delete := [] |}
    Samples.touched_env []
  = (Ok {| src_i := 0 + 1; dest_i := 0 + 1; create := []; delete := [] |}, [])
  /\ loop_body false "S" "D" (Some ".mp3"%string) ["b.wav"%string]
       ["b.mp3"%string]
       {| src_i := 0; dest_i := 0; create := []; delete := [] |}
       Samples.touched_env []
     = (Ok {| src_i := 0 + 1; dest_i := 0 + 1;
              create := if (9 >? 5)%Z then [] ++ ["b.wav"%string] else [];
              delete := [] |},
        [] ++ [EGetmtime (join "S" "b.wav"); EGetmtime (join "D" "b.mp3")]).
Proof.
  split.
  - apply (matched_pair_step true "S" "D" (Some ".mp3"%string)
             ["b.wav"%string] ["b.mp3"%string]
             {| src_i := 0; dest_i := 0; create := []; delete := [] |}
             "b.wav"%string "b.mp3"%string Samples.touched_env []);
      reflexivity.
  - apply (matched_pair_step false "S" "D" (Some ".mp3"%string)
             ["b.wav"%string] ["b.mp3"%string]
             {| src_i := 0; dest_i := 0; create := []; delete := [] |}
             "b.wav"%string "b.mp3"%string Samples.touched_env []);
      reflexivity.
Defined.

(* ================================================================== *)
(** ** Walking a tree *)
(* ================================================================== *)



Lemma walk_readable (dirpath : list string) (l : bool) (es : entries_t) :
  walk dirpath (Dir true l es)
  = (dirpath, dirnames es, filenames es) :: flat_map (descend dirpath) es.
Proof.
  simpl. f_equal. induction es as [| [name child] es IH]; [reflexivity |].
  simpl. unfold descend at 1. simpl. now rewrite IH.
Qed.

Lemma walk_unreadable (dirpath : list string) (l : bool) (es : entries_t) :
  walk dirpath (Dir false l es) = [].
Proof. reflexivity. Qed.

Lemma walk_nondir (dirpath : list string) (k : kind) :
  walk dirpath (NonDir k) = [].
Proof. reflexivity. Qed.

Lemma in_filenames (f : string) (es : entries_t) :
  In f (filenames es) <-> exists k, In (f, NonDir k) es.
Proof.
  unfold filenames. rewrite in_map_iff. split.
  - intros [[name child] [E Hin]]. simpl in E. subst.
    apply filter_In in Hin as [Hin Hk]. destruct child; [| discriminate].
    eauto.
  - intros [k Hin]. exists (f, NonDir k). split; [reflexivity |].
    apply filter_In. auto.
Qed.


Lemma nondir_at_is_dir (n : node) (rel : list string) (f : string) :
  nondir_at n rel f -> is_dir n = true.
Proof. now destruct 1. Qed.

Lemma walk_finds (n : node) :
  forall dirpath dp ds fs f,
    In (dp, ds, fs) (walk dirpath n) -> In f fs ->
    exists rel, dp = dirpath ++ rel /\ nondir_at n rel f.
Proof.
  induction n as [k | r l es IH] using node_induction;
    intros dirpath dp ds fs f Hitem Hf; [contradiction |].
  destruct r; [| contradiction].
  rewrite walk_readable in Hitem. destruct Hitem as [E | Hsub].
  - inversion E; subst. exists []. rewrite app_nil_r. split; [reflexivity |].
    apply in_filenames in Hf as [k Hk]. econstructor; eassumption.
  - apply in_flat_map in Hsub as [[name child] [Hin Hw]].
    unfold descend in Hw. simpl in Hw.
    destruct (is_dir child && negb (islink child))%bool eqn:Hd;
      [| contradiction].
    apply andb_true_iff in Hd as [_ Hl]. apply negb_true_iff in Hl.
    rewrite Forall_forall in IH.
    destruct (IH _ Hin _ _ _ _ _ Hw Hf) as [rel [E Hat]].
    exists (name :: rel). split.
    + rewrite E, <- app_assoc. reflexivity.
    + econstructor; eassumption.
Qed.

Lemma walk_reaches (n : node) (rel : list string) (f : string) :
  nondir_at n rel f ->
  forall dirpath, exists ds fs,
    In (dirpath ++ rel, ds, fs) (walk dirpath n) /\ In f fs.
Proof.
  induction 1 as [l es f k Hin | l es d child rel f Hin Hl Hat IH];
    intros dirpath; rewrite walk_readable.
  - exists (dirnames es), (filenames es). rewrite app_nil_r. split.
    + now left.
    + apply in_filenames. eauto.
  - destruct (IH (dirpath ++ [d])) as (ds & fs & Hitem & Hf).
    exists ds, fs. split; [| exact Hf]. right.
    apply in_flat_map. exists (d, child). split; [exact Hin |].
    unfold descend. simpl.
    rewrite (nondir_at_is_dir _ _ _ Hat), Hl. simpl.
    now rewrite <- app_assoc in Hitem.
Qed.

(** What the comprehension collects. *)
Lemma in_listing (top : option node) (exts : list string) (p : string) :
  In p (listing top exts) <->
  exists n rel f,
    top = Some n /\ nondir_at n rel f
    /\ str_in (ext f) exts = true /\ p = relpath_of rel f.
Proof.
  unfold listing. rewrite in_flat_map. split.
  - intros [[[dp ds] fs] [Hitem Hp]]. unfold item_paths in Hp.
    apply in_map_iff in Hp as [f [E Hf]]. apply filter_In in Hf as [Hf Hext].
    destruct top as [n |]; [| contradiction]. simpl in Hitem.
    destruct (walk_finds n [] dp ds fs f Hitem Hf) as [rel [Edp Hat]].
    simpl in Edp. subst. exists n, rel, f. auto.
  - intros (n & rel & f & -> & Hat & Hext & ->).
    destruct (walk_reaches n rel f Hat []) as (ds & fs & Hitem & Hf).
    exists (rel, ds, fs). split; [exact Hitem |].
    unfold item_paths. apply in_map. apply filter_In. auto.
Qed.

(* ================================================================== *)
(** ** Sorting *)
(* ================================================================== *)


Lemma str_le_refl (a : string) : str_le a a.
Proof. unfold str_le, String.leb. now rewrite compare_refl. Qed.

Lemma str_le_trans (a b c : string) : str_le a b -> str_le b c -> str_le a c.
Proof.
  unfold str_le, String.leb. intros H1 H2.
  destruct (String.compare a b) eqn:E1; try discriminate;
    destruct (String.compare b c) eqn:E2; try discriminate.
  - apply String_as_OT.cmp_eq in E1, E2. subst. now rewrite compare_refl.
  - apply String_as_OT.cmp_eq in E1. subst. now rewrite E2.
  - apply String_as_OT.cmp_eq in E2. subst. now rewrite E1.
  - now rewrite (compare_Lt_trans _ _ _ E1 E2).
Qed.

Lemma insert_sorted_perm (x : string) (l : list string) :
  Permutation (x :: l) (insert_sorted x l).
Proof.
  induction l as [| y l IH]; simpl; [reflexivity |].
  destruct (String.leb x y); [reflexivity |].
  rewrite perm_swap. now constructor.
Qed.

Lemma list_sort_perm (l : list string) : Permutation l (list_sort l).
Proof.
  induction l as [| x l IH]; simpl; [constructor |].
  rewrite <- insert_sorted_perm. now constructor.
Qed.

Lemma insert_sorted_sorted (x : string) (l : list string) :
  StronglySorted str_le l -> StronglySorted str_le (insert_sorted x l).
Proof.
  induction 1 as [| y l Hs IH Hall]; simpl.
  - repeat constructor.
  - destruct (String.leb x y) eqn:E.
    + constructor; [now constructor |].
      constructor; [exact E |].
      eapply Forall_impl; [| exact Hall].
      intros z Hz. eapply str_le_trans; eassumption.
    + constructor; [exact IH |].
      assert (Hyx : str_le y x).
      { destruct (String.leb_total x y) as [H | H]; [congruence | exact H]. }
      rewrite Forall_forall in *. intros z Hz.
      apply (Permutation_in _ (Permutation_sym (insert_sorted_perm x l))) in Hz.
      destruct Hz as [<- | Hz]; auto.
Qed.

Lemma list_sort_sorted (l : list string) : StronglySorted str_le (list_sort l).
Proof.
  induction l as [| x l IH]; simpl; [constructor |].
  now apply insert_sorted_sorted.
Qed.

(** A list has one sorted arrangement. *)
Lemma sorted_unique (l1 : list string) :
  forall l2,
    StronglySorted str_le l1 -> StronglySorted str_le l2 ->
    Permutation l1 l2 -> l1 = l2.
Proof.
  induction l1 as [| a l1 IH]; intros l2 S1 S2 Hp.
  - apply Permutation_nil in Hp. now subst.
  - destruct l2 as [| b l2];
      [apply Permutation_sym, Permutation_nil in Hp; discriminate |].
    inversion S1 as [| ? ? S1' A1]; subst.
    inversion S2 as [| ? ? S2' A2]; subst.
    rewrite Forall_forall in A1, A2.
    assert (Hab : a = b).
    { apply String.leb_antisym.
      - assert (Hin : In b (a :: l1))
          by (eapply Permutation_in; [apply Permutation_sym, Hp | now left]).
        destruct Hin as [-> | Hin]; [apply str_le_refl | now apply A1].
      - assert (Hin : In a (b :: l2))
          by (eapply Permutation_in; [exact Hp | now left]).
        destruct Hin as [-> | Hin]; [apply str_le_refl | now apply A2]. }
    subst b. f_equal. apply IH; auto.
    eapply Permutation_cons_inv; eassumption.
Qed.

Lemma list_sort_perm_eq (l1 l2 : list string) :
  Permutation l1 l2 -> list_sort l1 = list_sort l2.
Proof.
  intros Hp. apply sorted_unique; try apply list_sort_sorted.
  rewrite <- (list_sort_perm l1), <- (list_sort_perm l2). exact Hp.
Qed.

(* ================================================================== *)
(** ** The order in which a directory lists its entries *)
(* ================================================================== *)


Section EntryOrder.

Variable exts : list string.

Local Abbreviation paths_below := (paths_below exts).
Local Abbreviation entry_paths := (entry_paths exts).



Lemma paths_below_entries (dirpath : list string) (l : bool)
    (es : entries_t) :
  Permutation (paths_below dirpath (Dir true l es))
              (flat_map (entry_paths dirpath) es).
Proof.
  unfold paths_below. rewrite walk_readable. simpl.
  induction es as [| [name child] es IH]; [reflexivity |].
  destruct child as [k | r l' es'].
  - unfold filenames in *. simpl.
    unfold descend at 1. simpl. unfold entry_paths at 1. simpl.
    destruct (str_in (ext name) exts); simpl.
    + now constructor.
    + exact IH.
  - unfold filenames in *. simpl (filter _ _). simpl (flat_map (descend _) _).
    rewrite flat_map_app. cbn [flat_map].
    unfold entry_paths at 1. cbn [snd fst].
    unfold descend at 1. cbn [snd fst is_dir islink andb].
    rewrite Permutation_app_swap_app.
    apply Permutation_app; [| exact IH].
    destruct l'; reflexivity.
Qed.

Lemma same_tree_paths (n n' : node) :
  same_tree n n' ->
  forall dirpath,
    Permutation (paths_below dirpath n) (paths_below dirpath n').
Proof.
  revert n n'.
  apply (same_tree_mut
           (fun n n' => forall dirpath,
                Permutation (paths_below dirpath n) (paths_below dirpath n'))
           (fun es es' => forall dirpath,
                Permutation (flat_map (entry_paths dirpath) es)
                            (flat_map (entry_paths dirpath) es'))).
  - reflexivity.
  - intros r l es es' _ IH dirpath. destruct r; [| reflexivity].
    now rewrite !paths_below_entries.
  - reflexivity.
  - intros name n n' es es' Hn IHn _ IHes dirpath. simpl.
    apply Permutation_app; [| apply IHes].
    unfold entry_paths. simpl.
    destruct Hn as [k | r l es0 es0' _]; [reflexivity |].
    destruct l; [reflexivity | apply IHn].
  - intros e1 e2 es dirpath. simpl. rewrite !app_assoc.
    apply Permutation_app_tail, Permutation_app_comm.
  - intros es1 es2 es3 _ IH1 _ IH2 dirpath.
    now rewrite IH1.
Qed.

Lemma same_top_listing (a b : option node) :
  same_top a b -> list_sort (listing a exts) = list_sort (listing b exts).
Proof.
  intros H. apply list_sort_perm_eq.
  destruct a as [n |], b as [n' |]; try contradiction; [| reflexivity].
  apply (same_tree_paths n n' H []).
Qed.

End EntryOrder.

Lemma same_tree_refl (n : node) : same_tree n n.
Proof.
  induction n as [k | r l es IH] using node_induction; constructor.
  induction IH as [| [name child] es Hc _ IHes]; constructor; assumption.
Qed.

(* ================================================================== *)
(** ** The listing *)
(* ================================================================== *)


(** C3, as stated, fails: with a directory a holding b.wav next to a
    file a-b.wav, the listing puts a-b.wav first, since "-" sorts before
    the separator; by components a/b.wav comes first, a being a prefix of
    a-b.wav. And the named pipe pipe.wav, not a regular file, is
    listed. *)
Lemma listing_not_component_sorted :
  sorted_filtered_paths "S" [".wav"%string] Samples.dashed_env []
  = (Ok ["a-b.wav"; "a/b.wav"; "pipe.wav"]%string, [EWalk "S"])
  /\ ~ StronglySorted spec_component_le ["a-b.wav"; "a/b.wav"; "pipe.wav"]%string
  /\ tree_at Samples.dashed_env "S"
     = Some (Dir true false
               [("a", Dir true false [("b.wav", NonDir Regular)]);
                ("a-b.wav", NonDir Regular);
                ("pipe.wav", NonDir Special)]%string).
Proof.
  split; [reflexivity | split; [| reflexivity]].
  intros H. inversion H as [| ? ? _ Hall]; subst.
  inversion Hall as [| ? ? Hle _]; subst.
  apply Hle. reflexivity.
Qed.

(** C3, amended. The listing succeeds after one walk and holds exactly
    the relative paths of the entries that are not directories (regular
    files or not), lie below the root through readable directories that
    are not symbolic links, and have an extension of the set. It is in
    ascending order of the path strings, compared character by
    character, the separator being a character like any other. It
    depends on the tree and the extension set alone: another environment
    whose tree at [dir] holds the same entries, listed in any order,
    yields the same listing. *)
Theorem sorted_filtered_paths_spec :
  forall (dir : string) (exts : list string) (env : os_env) (h : list event),
  exists out : list string,
    sorted_filtered_paths dir exts env h = (Ok out, h ++ [EWalk dir])
    /\ (forall p, In p out <->
          exists n rel f,
            tree_at env dir = Some n /\ nondir_at n rel f
            /\ str_in (ext f) exts = true /\ p = relpath_of rel f)
    /\ StronglySorted (fun a b => String.leb a b = true) out
    /\ (forall env' h',
          same_top (tree_at env dir) (tree_at env' dir) ->
          fst (sorted_filtered_paths dir exts env' h') = Ok out).
Proof.
  intros dir exts env h.
  exists (list_sort (listing (tree_at env dir) exts)).
  split; [reflexivity | split; [| split]].
  - intros p. rewrite <- in_listing. split; intros Hin.
    + eapply Permutation_in;
        [apply Permutation_sym, list_sort_perm | exact Hin].
    + eapply Permutation_in; [apply list_sort_perm | exact Hin].
  - apply list_sort_sorted.
  - intros env' h' Hsame. unfold sorted_filtered_paths, bind, emit, ask, ret.
    simpl. f_equal. symmetry. now apply same_top_listing.
Qed.

Lemma sorted_filtered_paths_spec_witness :
  same_top (tree_at Samples.library_env "S") (tree_at Samples.shuffled_env "S")
  /\ fst (sorted_filtered_paths "S" [".wav"%string] Samples.shuffled_env [])
     = fst (sorted_filtered_paths "S" [".wav"%string] Samples.library_env []).
Proof.
  assert (Hsame : same_top (tree_at Samples.library_env "S")
                           (tree_at Samples.shuffled_env "S")).
  { simpl. apply same_dir, same_swap. }
  split; [exact Hsame |].
  destruct (sorted_filtered_paths_spec "S" [".wav"%string]
              Samples.library_env []) as (out & E & _ & _ & Hdet).
  rewrite E. cbn [fst]. exact (Hdet Samples.shuffled_env [] Hsame).
Defined.

(* ================================================================== *)
(** ** Directories that cannot be read *)
(* ================================================================== *)


Lemma emptied_is_dir (n : node) : is_dir (emptied n) = is_dir n.
Proof. destruct n as [k | [|] l es]; reflexivity. Qed.

Lemma emptied_islink (n : node) : islink (emptied n) = islink n.
Proof. destruct n as [k | [|] l es]; reflexivity. Qed.

Lemma emptied_filenames (es : entries_t) :
  filenames (map (fun e => (fst e, emptied (snd e))) es) = filenames es.
Proof.
  unfold filenames. induction es as [| [name child] es IH]; [reflexivity |].
  simpl. rewrite emptied_is_dir. destruct (is_dir child); simpl; now rewrite IH.
Qed.

Lemma emptied_paths (exts : list string) (n : node) :
  forall dirpath,
    paths_below exts dirpath (emptied n) = paths_below exts dirpath n.
Proof.
  induction n as [k | r l es IH] using node_induction; intros dirpath;
    [reflexivity |].
  destruct r; [| reflexivity].
  unfold paths_below. cbn [emptied]. rewrite !walk_readable.
  cbn [flat_map item_paths]. rewrite emptied_filenames. f_equal.
  induction IH as [| [name child] es Hc _ IHes]; [reflexivity |].
  cbn [map flat_map fst snd]. rewrite !flat_map_app. f_equal; [| exact IHes].
  unfold descend. cbn [fst snd]. rewrite emptied_is_dir, emptied_islink.
  destruct (is_dir child && negb (islink child))%bool; [| reflexivity].
  apply Hc.
Qed.

(** C4, as stated, fails: the directory private cannot be read, and the
    listing returns a.wav without an error. *)
Lemma unreadable_directory_skipped :
  tree_at Samples.locked_env "S"
  = Some (Dir true false [("a.wav", NonDir Regular);
                          ("private", Samples.private_dir)]%string)
  /\ scandir (Some Samples.private_dir) = Raised OSError
  /\ sorted_filtered_paths "S" [".wav"%string] Samples.locked_env []
     = (Ok ["a.wav"%string], [EWalk "S"]).
Proof. repeat split. Qed.

(** C4, amended. The listing never fails. A directory that cannot be
    read yields no item of the walk, whatever it holds, and the listing
    is the one the tree would give were each such directory empty. *)
Theorem listing_skips_unreadable :
  forall (dir : string) (exts : list string) (env : os_env) (h : list event),
    (forall l es, scandir (Some (Dir false l es)) = Raised OSError
                  /\ forall dirpath, walk dirpath (Dir false l es) = [])
    /\ sorted_filtered_paths dir exts env h
       = (Ok (list_sort (listing (option_map emptied (tree_at env dir)) exts)),
          h ++ [EWalk dir]).
Proof.
  intros dir exts env h. split; [split; reflexivity |].
  replace (listing (option_map emptied (tree_at env dir)) exts)
    with (listing (tree_at env dir) exts); [reflexivity |].
  destruct (tree_at env dir) as [n |]; [| reflexivity].
  symmetry. apply (emptied_paths exts n []).
Qed.

(* ================================================================== *)
(** ** Extensions: [splitext], [ext], [replace_ext] *)
(* ================================================================== *)

Lemma str_take_drop (n : nat) (s : string) :
  String.append (str_take n s) (str_drop n s) = s.
Proof.
  revert s. induction n as [| n IH]; intros [| c s]; simpl; auto.
  now rewrite IH.
Qed.

Lemma str_take_app (pre t : string) :
  str_take (String.length pre) (String.append pre t) = pre.
Proof. induction pre as [| c pre IH]; simpl; [now destruct t | now rewrite IH]. Qed.

Lemma str_drop_app (pre t : string) :
  str_drop (String.length pre) (String.append pre t) = t.
Proof. induction pre as [| c pre IH]; simpl; auto. Qed.

Lemma append_nil_r (s : string) : String.append s EmptyString = s.
Proof. induction s as [| c s IH]; simpl; [reflexivity | now rewrite IH]. Qed.

Lemma append_assoc (a b c : string) :
  String.append (String.append a b) c = String.append a (String.append b c).
Proof. induction a as [| x a IH]; simpl; [reflexivity | now rewrite IH]. Qed.

Lemma contains_char_app (c : ascii) (a b : string) :
  contains_char c (String.append a b)
  = (contains_char c a || contains_char c b)%bool.
Proof.
  induction a as [| x a IH]; simpl; [reflexivity |].
  now rewrite IH, orb_assoc.
Qed.

Lemma rfind_from_none (c : ascii) (s : string) :
  forall pos found,
    contains_char c s = false -> rfind_from c s pos found = found.
Proof.
  induction s as [| a s IH]; intros pos found H; simpl in *; [reflexivity |].
  apply orb_false_iff in H as [Ha Hs]. rewrite Ha. now apply IH.
Qed.

Lemma rfind_from_app_last (c : ascii) (pre post : string) :
  forall pos found,
    contains_char c post = false ->
    rfind_from c (String.append pre (String c post)) pos found
    = (pos + Z.of_nat (String.length pre))%Z.
Proof.
  induction pre as [| a pre IH]; intros pos found H; simpl.
  - rewrite Ascii.eqb_refl, (rfind_from_none _ _ _ _ H). lia.
  - rewrite (IH _ _ H). lia.
Qed.

Lemma rfind_from_app_none (c : ascii) (s t : string) :
  forall pos found,
    contains_char c t = false ->
    rfind_from c (String.append s t) pos found = rfind_from c s pos found.
Proof.
  induction s as [| a s IH]; intros pos found H; simpl.
  - now apply rfind_from_none.
  - now apply IH.
Qed.

(** Where a character occurs last. *)
Lemma last_occurrence (c : ascii) (s : string) :
  contains_char c s = false
  \/ exists pre post,
       s = String.append pre (String c post) /\ contains_char c post = false.
Proof.
  induction s as [| a s IH]; [now left |].
  destruct IH as [Hno | (pre & post & -> & Hpost)].
  - destruct (Ascii.eqb a c) eqn:E.
    + right. apply Ascii.eqb_eq in E. subst. now exists EmptyString, s.
    + left. simpl. now rewrite E.
  - right. now exists (String a pre), post.
Qed.

Lemma rfind_cases (c : ascii) (s : string) :
  (contains_char c s = false /\ rfind c s = (-1)%Z)
  \/ exists pre post,
       s = String.append pre (String c post)
       /\ contains_char c post = false
       /\ rfind c s = Z.of_nat (String.length pre).
Proof.
  destruct (last_occurrence c s) as [Hno | (pre & post & -> & Hpost)].
  - left. split; [exact Hno |]. now apply rfind_from_none.
  - right. exists pre, post. repeat split; auto.
    unfold rfind. now rewrite rfind_from_app_last.
Qed.

Lemma rfind_lower_bound (c : ascii) (s : string) : (-1 <= rfind c s)%Z.
Proof.
  destruct (rfind_cases c s) as [[_ ->] | (pre & post & _ & _ & ->)]; lia.
Qed.

Lemma app_split_later (c d : ascii) (pre2 : string) :
  forall pre post post2,
    String.append pre (String c post) = String.append pre2 (String d post2) ->
    String.length pre2 < String.length pre ->
    exists mid, post2 = String.append mid (String c post).
Proof.
  induction pre2 as [| x pre2 IH]; intros [| a pre] post post2 E Hlen;
    simpl in *; try lia.
  - inversion E; subst. now exists pre.
  - inversion E; subst. eapply IH; [eassumption | lia].
Qed.

(** What [splitext] returns: the path whole and no extension, or the
    path cut at its last dot, the extension holding neither another dot
    nor a separator. *)
Lemma splitext_cases (p : string) :
  splitext p = (p, EmptyString)
  \/ exists stem rest,
       p = String.append stem (String dot rest)
       /\ splitext p = (stem, String dot rest)
       /\ contains_char dot rest = false
       /\ contains_char slash rest = false
       /\ rfind dot p = Z.of_nat (String.length stem)
       /\ (rfind slash p < rfind dot p)%Z
       /\ has_non_dot (Z.to_nat (rfind dot p - (rfind slash p + 1))) p
            (rfind slash p + 1) = true.
Proof.
  unfold splitext.
  destruct (rfind dot p >? rfind slash p)%Z eqn:Hgt; [| now left].
  destruct (has_non_dot _ p _) eqn:Hnd; [| now left].
  right. apply Z.gtb_lt in Hgt.
  destruct (rfind_cases dot p) as [[_ Hd] | (stem & rest & Hp & Hrest & Hd)].
  { pose proof (rfind_lower_bound slash p). lia. }
  exists stem, rest. rewrite Hd, Nat2Z.id.
  split; [exact Hp |]. split.
  { rewrite Hp at 1 2. now rewrite str_take_app, str_drop_app. }
  split; [exact Hrest |]. split; [| split; [reflexivity | split; [lia |]]].
  - destruct (rfind_cases slash p)
      as [[Hno _] | (pre2 & post2 & Hp2 & Hpost2 & Hs)].
    + rewrite Hp, contains_char_app in Hno. simpl in Hno.
      now apply orb_false_iff in Hno as [_ Hno].
    + rewrite Hs, Hd in Hgt. rewrite Hp in Hp2.
      destruct (app_split_later _ _ _ _ _ _ Hp2) as [mid Hmid]; [lia |].
      rewrite Hmid, contains_char_app in Hpost2. simpl in Hpost2.
      now apply orb_false_iff in Hpost2 as [_ Hpost2].
  - reflexivity.
Qed.

Lemma splitext_app (p : string) :
  String.append (fst (splitext p)) (snd (splitext p)) = p.
Proof.
  destruct (splitext_cases p) as [-> | (stem & rest & Hp & -> & _)]; simpl.
  - apply append_nil_r.
  - now symmetry.
Qed.

Lemma replace_ext_ext (fp : string) : replace_ext fp (ext fp) = fp.
Proof. unfold replace_ext, ext. apply splitext_app. Qed.

Lemma ext_shape (fp : string) : ext fp = EmptyString \/ plain_ext (ext fp).
Proof.
  unfold ext.
  destruct (splitext_cases fp) as [-> | (stem & rest & _ & -> & H1 & H2 & _)].
  - now left.
  - right. now exists rest.
Qed.

(** X1. Putting a path's own extension back gives the path, and that
    extension is empty or plain: a dot followed by characters that are
    neither dots nor separators. *)
Theorem replace_ext_own_ext :
  forall fp : string,
    replace_ext fp (ext fp) = fp
    /\ (ext fp = EmptyString \/ plain_ext (ext fp)).
Proof.
  intros fp. split; [apply replace_ext_ext | apply ext_shape].
Qed.

Lemma get_app_left (k : nat) (stem t : string) :
  k < String.length stem ->
  String.get k (String.append stem t) = String.get k stem.
Proof.
  revert k. induction stem as [| c stem IH]; intros k Hk; simpl in *; [lia |].
  destruct k as [| k]; [reflexivity |]. apply IH. lia.
Qed.

Lemma has_non_dot_agree (stem t t' : string) (fuel : nat) :
  forall idx : Z,
    (0 <= idx)%Z ->
    Z.to_nat idx + fuel <= String.length stem ->
    has_non_dot fuel (String.append stem t) idx
    = has_non_dot fuel (String.append stem t') idx.
Proof.
  induction fuel as [| fuel IH]; intros idx H0 Hlen; simpl; [reflexivity |].
  unfold str_at. rewrite !get_app_left by lia.
  destruct (String.get (Z.to_nat idx) stem) as [c |]; [| reflexivity].
  destruct (negb (Ascii.eqb c dot)); [reflexivity |].
  apply IH; [lia |]. rewrite Z2Nat.inj_add by lia. simpl. lia.
Qed.

(** Renaming the extension of a path that has one: the path keeps its
    stem and gets the new extension, provided the new extension is
    plain. *)
Lemma splitext_replace_ext (f e : string) :
  ext f <> EmptyString ->
  plain_ext e ->
  splitext (replace_ext f e) = (fst (splitext f), e).
Proof.
  intros Hext (rest & -> & Hdot & Hslash). unfold replace_ext, ext in *.
  destruct (splitext_cases f)
    as [E | (stem & rest0 & Hf & E & Hd0 & Hs0 & Hdi & Hlt & Hnd)];
    rewrite E in *; simpl in Hext; [congruence |].
  cbn [fst].
  assert (Hsep : rfind slash f = rfind slash stem).
  { rewrite Hf. unfold rfind. apply rfind_from_app_none. simpl. exact Hs0. }
  assert (Hsep' : rfind slash (String.append stem (String dot rest))
                  = rfind slash stem).
  { unfold rfind. apply rfind_from_app_none. simpl. exact Hslash. }
  assert (Hdi' : rfind dot (String.append stem (String dot rest))
                 = Z.of_nat (String.length stem)).
  { unfold rfind. now rewrite rfind_from_app_last. }
  unfold splitext. rewrite Hdi', Hsep', <- Hsep, <- Hdi.
  replace (rfind dot f >? rfind slash f)%Z with true
    by (symmetry; apply Z.gtb_lt; exact Hlt).
  rewrite (has_non_dot_agree stem (String dot rest) (String dot rest0)).
  - rewrite <- Hf, Hnd, Hdi, Nat2Z.id. now rewrite str_take_app, str_drop_app.
  - pose proof (rfind_lower_bound slash f). lia.
  - pose proof (rfind_lower_bound slash f). lia.
Qed.

(** X2. A file with an extension, renamed to a plain extension, has that
    extension; renamed back, it is the file again. *)
Theorem replace_ext_round_trip :
  forall f e : string,
    ext f <> EmptyString ->
    plain_ext e ->
    ext (replace_ext f e) = e
    /\ replace_ext (replace_ext f e) (ext f) = f.
Proof.
  intros f e Hext He. pose proof (splitext_replace_ext f e Hext He) as E.
  split.
  - unfold ext at 1. now rewrite E.
  - unfold replace_ext at 1. rewrite E. cbn [fst]. apply replace_ext_ext.
Qed.

Lemma replace_ext_round_trip_witness :
  ext (replace_ext "album/01.track.wav" ".mp3") = ".mp3"%string
  /\ replace_ext (replace_ext "album/01.track.wav" ".mp3")
       (ext "album/01.track.wav")
     = "album/01.track.wav"%string.
Proof.
  apply (replace_ext_round_trip "album/01.track.wav" ".mp3").
  - discriminate.
  - exists "mp3"%string. repeat split.
Defined.

(** X4. An extension given to [--to] or [--copy] that is not plain, such as
    ".tar.gz", is the extension of no file: the listing filtered by it is
    empty, whatever the tree. *)
Theorem listing_of_compound_ext_is_empty :
  forall (top : option node) (e : string),
    e <> EmptyString ->
    ~ plain_ext e ->
    listing top [e] = [].
Proof.
  intros top e Hne Hnp.
  destruct (listing top [e]) as [| p l] eqn:El; [reflexivity |].
  assert (Hin : In p (listing top [e])) by (rewrite El; now left).
  apply in_listing in Hin as (n & rel & f & _ & _ & Hext & _).
  apply str_in_In in Hext. destruct Hext as [E | []]. subst e.
  destruct (ext_shape f); contradiction.
Qed.

Lemma listing_of_compound_ext_is_empty_witness :
  listing (Some Samples.library) [".tar.gz"%string] = [].
Proof.
  apply (listing_of_compound_ext_is_empty (Some Samples.library) ".tar.gz").
  - discriminate.
  - intros (rest & E & Hdot & _). inversion E; subst. discriminate Hdot.
Defined.

(* ================================================================== *)
(** ** The extension lists of the command line *)
(* ================================================================== *)

Lemma split_on_not_nil (c : ascii) (s : string) : split_on c s <> [].
Proof.
  induction s as [| a s IH]; simpl; [discriminate |].
  destruct (Ascii.eqb a c); [discriminate |].
  destruct (split_on c s); [contradiction | discriminate].
Qed.

Lemma map_m_ensure_dot_prefix (l : list string) (env : os_env) (h : list event) :
  ~ In EmptyString l ->
  exists out,
    map_m (fun e => lift (ensure_dot_prefix e)) l env h = (Ok out, h)
    /\ Forall2 (fun t e => (e = t \/ e = String dot t) /\ str_at 0 e = Some dot)
               l out.
Proof.
  induction l as [| x l IH]; intros Hno.
  - exists []. split; [reflexivity | constructor].
  - destruct IH as (out & E & Hall); [intros H; apply Hno; now right |].
    destruct x as [| c x]; [exfalso; apply Hno; now left |].
    assert (Ex : exists v,
               lift (ensure_dot_prefix (String c x)) env h = (Ok v, h)
               /\ (v = String c x \/ v = String dot (String c x))
               /\ str_at 0 v = Some dot).
    { unfold lift, ensure_dot_prefix. cbn [str_at String.get].
      destruct (Ascii.eqb c dot) eqn:Ec; eexists; split; try reflexivity.
      - apply Ascii.eqb_eq in Ec. subst. split; [now left | reflexivity].
      - split; [now right | reflexivity]. }
    destruct Ex as (v & Ev & Hv).
    cbn [map_m]. rewrite (bind_ok _ _ _ _ _ _ Ev), (bind_ok _ _ _ _ _ _ E).
    eexists. split; [reflexivity |]. now constructor.
Qed.

(** X5. The extension list of [--from] or [--copy]: an empty token makes the
    normalization raise IndexError; otherwise it yields, without any
    event, one extension per token, each the token itself or the token
    after a dot, each starting with a dot, and at least one. *)
Theorem normalize_exts_spec :
  forall (s : string) (env : os_env) (h : list event),
    (In EmptyString (split_on ","%char s) ->
     normalize_exts s env h = (Raised IndexError, h))
    /\ (~ In EmptyString (split_on ","%char s) ->
        exists out,
          normalize_exts s env h = (Ok out, h)
          /\ out <> []
          /\ Forall2 (fun t e => (e = t \/ e = String dot t)
                                 /\ str_at 0 e = Some dot)
                     (split_on ","%char s) out).
Proof.
  intros s env h. unfold normalize_exts. split.
  - apply normalize_empty_token.
  - intros Hno.
    destruct (map_m_ensure_dot_prefix _ env h Hno) as (out & E & Hall).
    exists out. repeat split; auto.
    intros ->. inversion Hall as [Hnil |].
    symmetry in Hnil. now apply split_on_not_nil in Hnil.
Qed.

Lemma normalize_exts_spec_witness :
  normalize_exts "flac,,wav" Samples.library_env [] = (Raised IndexError, [])
  /\ exists out,
       normalize_exts "flac,.wav" Samples.library_env [] = (Ok out, [])
       /\ out <> []
       /\ Forall2 (fun t e => (e = t \/ e = String dot t)
                              /\ str_at 0 e = Some dot)
                  (split_on ","%char "flac,.wav") out.
Proof.
  split.
  - apply (normalize_exts_spec "flac,,wav" Samples.library_env []).
    simpl. auto.
  - apply (normalize_exts_spec "flac,.wav" Samples.library_env []).
    simpl. intros [H | [H | []]]; discriminate H.
Defined.

(* ================================================================== *)
(** ** The worker count, when the processors cannot be counted *)
(* ================================================================== *)

(** X6. The worker count is at least 1 whenever one is computed. A positive
    [--jobs] is taken as it is, without asking for the processor count.
    The computation fails, with TypeError, exactly when [--jobs] is not
    positive and the processor count is unknown. *)
Theorem effective_jobs_bounds :
  forall (j : Z) (env : os_env) (h : list event),
    match fst (effective_jobs j env h) with
    | Ok n => (1 <= n)%Z
    | Raised e => e = TypeError /\ (j <= 0)%Z /\ cpu_count env = None
    | Exited _ => False
    | Blocked => False
    end
    /\ ((0 < j)%Z -> effective_jobs j env h = (Ok j, h))
    /\ ((j <= 0)%Z -> cpu_count env = None ->
        effective_jobs j env h = (Raised TypeError, h ++ [ECpuCount])).
Proof.
  intros j env h. unfold effective_jobs, bind, emit, ask, ret, raise.
  destruct (j <=? 0)%Z eqn:Ej;
    [apply Z.leb_le in Ej | apply Z.leb_gt in Ej].
  - destruct (cpu_count env) as [c |] eqn:Ec; cbn [fst].
    + split; [| split; [lia | discriminate]].
      destruct (j + c <=? 0)%Z eqn:E2; [lia | apply Z.leb_gt in E2; lia].
    + split; [auto | split; [lia | reflexivity]].
  - cbn [fst]. replace (j <=? 0)%Z with false by (symmetry; apply Z.leb_gt; lia).
    split; [lia | split; [reflexivity | lia]].
Qed.

Lemma effective_jobs_bounds_witness :
  effective_jobs 3 Samples.library_env [] = (Ok 3%Z, [])
  /\ effective_jobs (-1) Samples.uncounted_env []
     = (Raised TypeError, [] ++ [ECpuCount]).
Proof.
  split.
  - apply (effective_jobs_bounds 3 Samples.library_env []). lia.
  - apply (effective_jobs_bounds (-1) Samples.uncounted_env []);
      [lia | reflexivity].
Defined.

(* ================================================================== *)
(** ** The confirmation prompt *)
(* ================================================================== *)

Lemma user_confirm_from_valid (ans : string) (rest : list string)
    (env : os_env) (h : list event) :
  valid_answer ans = true ->
  user_confirm_from (ans :: rest) env h
  = (Ok (str_eq (normalized_answer ans) "y"), h ++ [confirm_prompt]).
Proof.
  intros Hv. cbn [user_confirm_from]. unfold bind at 1, emit at 1.
  unfold valid_answer, normalized_answer in Hv.
  unfold normalized_answer. now rewrite Hv.
Qed.

Lemma user_confirm_from_junk (junk tail : list string) (env : os_env) :
  forall h,
    Forall (fun l => valid_answer l = false) junk ->
    user_confirm_from (junk ++ tail) env h
    = user_confirm_from tail env
        (h ++ repeat confirm_prompt (List.length junk)).
Proof.
  induction junk as [| line junk IH]; intros h Hj; simpl.
  - now rewrite app_nil_r.
  - inversion Hj as [| ? ? Hline Hrest]; subst.
    unfold bind at 1, emit at 1.
    unfold valid_answer, normalized_answer in Hline. rewrite Hline.
    rewrite (IH _ Hrest), <- app_assoc. reflexivity.
Qed.

(** X7. The prompt is repeated for every line that is not an answer. The
    first line that, lowered and with the empty line read as "n", is "y"
    or "n" decides: yes exactly for "y". When the input ends before such
    a line, EOFError is raised after one more prompt. *)
Theorem user_confirm_spec :
  forall (env : os_env) (h : list event),
    (forall junk ans rest,
        stdin env = junk ++ ans :: rest ->
        Forall (fun l => valid_answer l = false) junk ->
        valid_answer ans = true ->
        user_confirm env h
        = (Ok (str_eq (normalized_answer ans) "y"),
           h ++ repeat confirm_prompt (List.length junk + 1)))
    /\ (Forall (fun l => valid_answer l = false) (stdin env) ->
        user_confirm env h
        = (Raised EOFError,
           h ++ repeat confirm_prompt (List.length (stdin env) + 1))).
Proof.
  intros env h.
  change (user_confirm env h) with (user_confirm_from (stdin env) env h).
  split.
  - intros junk ans rest -> Hj Hv.
    rewrite (user_confirm_from_junk _ _ _ _ Hj), (user_confirm_from_valid _ _ _ _ Hv).
    rewrite <- app_assoc, repeat_app. reflexivity.
  - intros Hj.
    replace (user_confirm_from (stdin env))
      with (user_confirm_from (stdin env ++ [])) by (now rewrite app_nil_r).
    rewrite (user_confirm_from_junk _ _ _ _ Hj). cbn [user_confirm_from].
    unfold bind, emit, raise. rewrite <- app_assoc, repeat_app. reflexivity.
Qed.

Lemma user_confirm_spec_witness :
  user_confirm (Samples.answering_env ["maybe"; "Y"; "n"]%string) []
  = (Ok (str_eq (normalized_answer "Y") "y"),
     [] ++ repeat confirm_prompt (List.length ["maybe"%string] + 1))
  /\ user_confirm (Samples.answering_env ["later"%string]) []
     = (Raised EOFError,
        [] ++ repeat confirm_prompt
                (List.length (stdin (Samples.answering_env ["later"%string])) + 1)).
Proof.
  split.
  - apply (proj1 (user_confirm_spec
                     (Samples.answering_env ["maybe"; "Y"; "n"]%string) [])
             ["maybe"%string] "Y"%string ["n"%string]).
    + reflexivity.
    + repeat constructor.
    + reflexivity.
  - apply (user_confirm_spec (Samples.answering_env ["later"%string]) []).
    repeat constructor.
Defined.

(* ================================================================== *)
(** ** What a computation adds to the history *)
(* ================================================================== *)

Section Runs.

Variable env : os_env.
Variable P : event -> Prop.

Lemma runs_ret {A} (Q : A -> Prop) (a : A) : Q a -> runs env P Q (ret a).
Proof.
  intros Ha h. exists (Ok a), []. rewrite app_nil_r.
  repeat split; auto. intros a' E. now inversion E; subst.
Qed.

Lemma runs_raise {A} (Q : A -> Prop) (e : exn) : runs env P Q (raise e).
Proof.
  intros h. exists (Raised e), []. rewrite app_nil_r.
  repeat split; auto. discriminate.
Qed.

Lemma runs_exit {A} (Q : A -> Prop) (c : Z) : runs env P Q (sys_exit c).
Proof.
  intros h. exists (Exited c), []. rewrite app_nil_r.
  repeat split; auto. discriminate.
Qed.

Lemma runs_emit (e : event) : P e -> runs env P (fun _ => True) (emit e).
Proof.
  intros He h. exists (Ok tt), [e]. repeat split; auto.
Qed.

Lemma runs_oscall (e : event) : P e -> runs env P (fun _ => True) (oscall e).
Proof.
  intros He h. unfold oscall.
  destruct (call_fails env h e); eexists; exists [e]; repeat split; auto.
Qed.

Lemma runs_ask : runs env P (fun e => e = env) ask.
Proof.
  intros h. exists (Ok env), []. rewrite app_nil_r.
  repeat split; auto. intros a E. now inversion E.
Qed.

Lemma runs_past : runs env P (fun _ => True) past.
Proof.
  intros h. exists (Ok h), []. rewrite app_nil_r. repeat split; auto.
Qed.

Lemma runs_lift {A} (Q : A -> Prop) (r : result A) :
  (forall a, r = Ok a -> Q a) -> runs env P Q (lift r).
Proof.
  intros Hr h. exists r, []. rewrite app_nil_r. repeat split; auto.
Qed.

Lemma runs_bind {A B} (Q : A -> Prop) (R : B -> Prop) (m : M A) (f : A -> M B) :
  runs env P Q m ->
  (forall a, Q a -> runs env P R (f a)) ->
  runs env P R (bind m f).
Proof.
  intros Hm Hf h. destruct (Hm h) as (r & evs & E & Hevs & Hq).
  unfold bind. rewrite E. destruct r as [a | e | c |].
  - destruct (Hf a (Hq a eq_refl) (h ++ evs)) as (r' & evs' & E' & Hevs' & Hr).
    exists r', (evs ++ evs'). rewrite E', app_assoc.
    repeat split; auto. now apply Forall_app.
  - exists (Raised e), evs. repeat split; auto. discriminate.
  - exists (Exited c), evs. repeat split; auto. discriminate.
  - exists Blocked, evs. repeat split; auto. discriminate.
Qed.

Lemma runs_post {A} (Q Q' : A -> Prop) (m : M A) :
  (forall a, Q a -> Q' a) -> runs env P Q m -> runs env P Q' m.
Proof.
  intros Himp Hm h. destruct (Hm h) as (r & evs & E & Hevs & Hq).
  exists r, evs. repeat split; auto.
Qed.

Lemma runs_for_each {A} (l : list A) (body : A -> M unit) :
  (forall x, In x l -> runs env P (fun _ => True) (body x)) ->
  runs env P (fun _ => True) (for_each l body).
Proof.
  induction l as [| x l IH]; intros Hbody; cbn [for_each].
  - now apply runs_ret.
  - eapply runs_bind; [apply Hbody; now left |].
    intros _ _. apply IH. intros y Hy. apply Hbody. now right.
Qed.

Lemma runs_map_m {A B} (l : list A) (f : A -> M B) :
  (forall x, In x l -> runs env P (fun _ => True) (f x)) ->
  runs env P (fun _ => True) (map_m f l).
Proof.
  induction l as [| x l IH]; intros Hf; cbn [map_m].
  - now apply runs_ret.
  - eapply runs_bind; [apply Hf; now left |].
    intros y _. eapply runs_bind; [apply IH; intros z Hz; apply Hf; now right |].
    intros ys _. now apply runs_ret.
Qed.

End Runs.

Lemma runs_events {A} (env : os_env) (P P' : event -> Prop) (Q : A -> Prop)
    (m : M A) :
  (forall e, P e -> P' e) -> runs env P Q m -> runs env P' Q m.
Proof.
  intros Himp Hm h. destruct (Hm h) as (r & evs & E & Hevs & Hq).
  exists r, evs. repeat split; auto. eapply Forall_impl; eauto.
Qed.

(* ================================================================== *)
(** ** Planning only reads *)
(* ================================================================== *)

Lemma runs_sorted_filtered_paths (env : os_env) (dir : string)
    (exts : list string) :
  runs env read_event (fun _ => True) (sorted_filtered_paths dir exts).
Proof.
  unfold sorted_filtered_paths.
  eapply runs_bind; [apply runs_emit; exact I |]. intros _ _.
  eapply runs_bind; [apply runs_ask |]. intros e _. now apply runs_ret.
Qed.

Lemma runs_getmtime (env : os_env) (p : string) :
  runs env read_event (fun _ => True) (getmtime p).
Proof.
  unfold getmtime.
  eapply runs_bind; [apply runs_emit; exact I |]. intros _ _.
  eapply runs_bind; [apply runs_ask |]. intros e _.
  destruct (mtime_of e p); [now apply runs_ret | apply runs_raise].
Qed.

Lemma runs_loop_body (env : os_env) (ignore : bool) (src dest : string)
    (dest_ext : option string) (src_fps dest_fps : list string)
    (st : merge_state) :
  runs env read_event (fun _ => True)
       (loop_body ignore src dest dest_ext src_fps dest_fps st).
Proof.
  unfold loop_body, list_at.
  eapply (runs_bind _ _ (fun _ => True)).
  { destruct (nth_error src_fps (src_i st)); [now apply runs_ret | apply runs_raise]. }
  intros s _. eapply (runs_bind _ _ (fun _ => True)).
  { destruct (nth_error dest_fps (dest_i st)); [now apply runs_ret | apply runs_raise]. }
  intros d _. destruct (str_eq _ d).
  - eapply (runs_bind _ _ (fun _ => True)); [| intros; now apply runs_ret].
    destruct (negb ignore); [| now apply runs_ret].
    eapply runs_bind; [apply runs_getmtime |]. intros ms _.
    eapply runs_bind; [apply runs_getmtime |]. intros md _. now apply runs_ret.
  - destruct (str_gt _ d); now apply runs_ret.
Qed.

Lemma runs_while_loop (env : os_env) (ignore : bool) (src dest : string)
    (dest_ext : option string) (src_fps dest_fps : list string) (fuel : nat) :
  forall st,
    runs env read_event (fun _ => True)
         (while_loop ignore src dest dest_ext src_fps dest_fps fuel st).
Proof.
  induction fuel as [| fuel IH]; intros st; cbn [while_loop];
    destruct (loop_cond src_fps dest_fps st); try now apply runs_ret.
  eapply runs_bind; [apply runs_loop_body |]. intros st' _. apply IH.
Qed.

(** With the check disabled the loop adds no event. *)
Lemma while_loop_unchecked_silent (src dest : string)
    (dest_ext : option string) (src_fps dest_fps : list string)
    (env : os_env) (h : list event) (fuel : nat) :
  forall st,
    exists st',
      while_loop true src dest dest_ext src_fps dest_fps fuel st env h
      = (Ok st', h).
Proof.
  induction fuel as [| fuel IH]; intros st; cbn [while_loop];
    destruct (loop_cond src_fps dest_fps st) eqn:Hc;
    try (now exists st).
  destruct (cond_in_range _ _ _ Hc) as (s & d & Hs & Hd).
  destruct (str_trichotomy (sort_key dest_ext s) d)
    as [[E _] | [[_ G] | (_ & _ & L)]].
  - rewrite (bind_ok _ _ _ _ _ _
               (body_equal_unchecked true src dest dest_ext _ _ _ _ _ env h
                  Hs Hd E eq_refl)).
    apply IH.
  - rewrite (bind_ok _ _ _ _ _ _
               (body_greater true src dest dest_ext _ _ _ _ _ env h Hs Hd G)).
    apply IH.
  - rewrite (bind_ok _ _ _ _ _ _
               (body_smaller true src dest dest_ext _ _ _ _ _ env h Hs Hd L)).
    apply IH.
Qed.

Lemma runs_operations_to_sync (ignore : bool) (src dest : string)
    (exts : list string) (dest_ext : option string) (env : os_env) :
  runs env read_event (fun _ => True)
       (operations_to_sync ignore src dest exts dest_ext).
Proof.
  unfold operations_to_sync. destruct exts as [| e exts];
    [now apply runs_ret |].
  eapply runs_bind; [apply runs_sorted_filtered_paths |]. intros src_fps _.
  eapply runs_bind; [apply runs_sorted_filtered_paths |]. intros dest_fps _.
  unfold merge_loop.
  eapply runs_bind; [apply runs_while_loop |]. intros st _.
  now apply runs_ret.
Qed.

(** X8. Planning makes no call but [os.walk] and [getmtime], whatever its
    outcome; with the modification-time check disabled it makes exactly
    two calls, the walk of the source and the walk of the
    destination. *)
Theorem planning_only_reads :
  forall (ignore : bool) (src dest : string) (exts : list string)
         (dest_ext : option string) (env : os_env),
    runs env read_event (fun _ => True)
         (operations_to_sync ignore src dest exts dest_ext)
    /\ (ignore = true -> exts <> [] ->
        forall h, exists plan,
          operations_to_sync ignore src dest exts dest_ext env h
          = (Ok plan, h ++ [EWalk src; EWalk dest])).
Proof.
  intros ignore src dest exts dest_ext env. split.
  - apply runs_operations_to_sync.
  - intros -> Hne h. destruct exts as [| e exts]; [congruence |].
    unfold operations_to_sync.
    rewrite (bind_ok _ _ _ _ _ _ (sorted_filtered_paths_run _ _ _ _)).
    rewrite (bind_ok _ _ _ _ _ _ (sorted_filtered_paths_run _ _ _ _)).
    unfold merge_loop.
    match goal with
    | |- context [while_loop true src dest dest_ext ?s ?d ?fuel ?st] =>
        destruct (while_loop_unchecked_silent src dest dest_ext s d env
                    ((h ++ [EWalk src]) ++ [EWalk dest]) fuel st) as [st' E]
    end.
    rewrite (bind_ok _ _ _ _ _ _ E). unfold ret. rewrite <- app_assoc.
    eexists. reflexivity.
Qed.

(* ================================================================== *)
(** ** What the differ returns *)
(* ================================================================== *)

Section DifferResult.

Variable ignore : bool.
Variables src dest : string.
Variable dest_ext : option string.
Variables src_fps dest_fps : list string.
Variable env : os_env.

Local Abbreviation body := (loop_body ignore src dest dest_ext src_fps dest_fps).
Local Abbreviation cond := (loop_cond src_fps dest_fps).
Local Abbreviation loop := (while_loop ignore src dest dest_ext src_fps dest_fps).
Local Abbreviation key := (sort_key dest_ext).

(** A property kept by every turn is kept by the loop. *)
Lemma while_loop_invariant (I : merge_state -> Prop) :
  (forall st st1 h h1,
      cond st = true -> body st env h = (Ok st1, h1) -> I st -> I st1) ->
  forall fuel st st' h h',
    loop fuel st env h = (Ok st', h') -> I st -> I st'.
Proof.
  intros Hstep. induction fuel as [| fuel IH]; intros st st' h h' Hrun HI;
    cbn [while_loop] in Hrun; destruct (cond st) eqn:Hc;
    try (inversion Hrun; subst; exact HI).
  unfold bind in Hrun.
  destruct (body st env h) as [[st1 | e | c |] h1] eqn:Hb; try discriminate.
  eapply IH; [exact Hrun |]. eapply Hstep; eassumption.
Qed.

Lemma in_skipn_nth (l : list string) (n : nat) (x : string) :
  In x (skipn n l) <-> exists a, n <= a /\ nth_error l a = Some x.
Proof.
  split.
  - intros Hin. apply In_nth_error in Hin as [b Hb].
    exists (n + b). split; [lia |]. now rewrite <- nth_error_skipn.
  - intros (a & Hle & Ha). replace a with (n + (a - n)) in Ha by lia.
    rewrite <- nth_error_skipn in Ha. eapply nth_error_In; eassumption.
Qed.

Lemma partition_step (st st1 : merge_state) (h h1 : list event) :
  cond st = true ->
  body st env h = (Ok st1, h1) ->
  partition_inv key src_fps dest_fps st ->
  partition_inv key src_fps dest_fps st1.
Proof.
  intros Hc Hb (Hsrc & Hdst & Hcr & Hdel).
  destruct (body_ok_cases _ _ _ _ _ _ _ _ _ _ _ Hc Hb)
    as (s & d & Hs & Hd & [(Ekey & Ei & Ej & Edel & Ecr) | [[G ->] | [L ->]]]).
  - assert (Hgrow : forall x, In x (create st) -> In x (create st1)).
    { intros x Hx. destruct Ecr as [-> | ->]; [auto | apply in_or_app; auto]. }
    unfold partition_inv. rewrite Ei, Ej, Edel. repeat split.
    + intros a s0 Ha Hs0. destruct (Nat.eq_dec a (src_i st)) as [-> | Hne].
      * rewrite Hs in Hs0. inversion Hs0; subst s0. right. rewrite Ekey.
        eapply nth_error_In; eassumption.
      * destruct (Hsrc a s0) as [H | H]; auto; lia.
    + intros b d0 Hb0 Hd0. destruct (Nat.eq_dec b (dest_i st)) as [-> | Hne].
      * rewrite Hd in Hd0. inversion Hd0; subst d0. right. exists s.
        split; [eapply nth_error_In; eassumption | exact Ekey].
      * apply (Hdst b); auto; lia.
    + intros x Hx. destruct Ecr as [Ecr | Ecr]; rewrite Ecr in Hx; [auto |].
      apply in_app_or in Hx as [Hx | [<- | []]]; [auto |].
      eapply nth_error_In; eassumption.
    + exact Hdel.
  - unfold partition_inv. simpl. repeat split.
    + exact Hsrc.
    + intros b d0 Hb0 Hd0. destruct (Nat.eq_dec b (dest_i st)) as [-> | Hne].
      * rewrite Hd in Hd0. inversion Hd0; subst d0. left.
        apply in_or_app. right. now left.
      * destruct (Hdst b d0) as [H | H]; auto; [lia |].
        left. apply in_or_app. now left.
    + exact Hcr.
    + intros x Hx. apply in_app_or in Hx as [Hx | [<- | []]]; [auto |].
      eapply nth_error_In; eassumption.
  - unfold partition_inv. simpl. repeat split.
    + intros a s0 Ha Hs0. destruct (Nat.eq_dec a (src_i st)) as [-> | Hne].
      * rewrite Hs in Hs0. inversion Hs0; subst s0. left.
        apply in_or_app. right. now left.
      * destruct (Hsrc a s0) as [H | H]; auto; [lia |].
        left. apply in_or_app. now left.
    + exact Hdst.
    + intros x Hx. apply in_app_or in Hx as [Hx | [<- | []]]; [auto |].
      eapply nth_error_In; eassumption.
    + exact Hdel.
Qed.

End DifferResult.

Lemma plan_accounts_for_every_entry_aux :
  forall (ignore : bool) (src dest : string) (dest_ext : option string)
         (src_fps dest_fps : list string) (env : os_env) (h h' : list event)
         (c d : list string),
    merge_loop ignore src dest dest_ext src_fps dest_fps env h
    = (Ok (c, d), h') ->
    (forall s, In s src_fps ->
               In s c \/ In (sort_key dest_ext s) dest_fps)
    /\ (forall x, In x dest_fps ->
                  In x d \/ exists s, In s src_fps /\ sort_key dest_ext s = x)
    /\ (forall s, In s c -> In s src_fps)
    /\ (forall x, In x d -> In x dest_fps).
Proof.
  intros ignore src dest dest_ext src_fps dest_fps env h h' c d Hrun.
  unfold merge_loop, bind in Hrun.
  destruct (while_loop _ _ _ _ _ _ _ _ env h) as [[st | e | k |] h1] eqn:Hloop;
    try discriminate.
  unfold ret, leftovers in Hrun. rewrite !append_all_app in Hrun.
  inversion Hrun; subst; clear Hrun.
  assert (Hinv : partition_inv (sort_key dest_ext) src_fps dest_fps st).
  { eapply (while_loop_invariant ignore src dest dest_ext src_fps dest_fps env);
      [| exact Hloop |].
    - intros. eapply partition_step; eassumption.
    - repeat split; simpl; intros; try lia; contradiction. }
  destruct Hinv as (Hsrc & Hdst & Hcr & Hdel). repeat split.
  - intros s Hin. apply In_nth_error in Hin as [a Ha].
    destruct (Nat.lt_ge_cases a (src_i st)) as [Hlt | Hge].
    + destruct (Hsrc a s Hlt Ha) as [H | H]; auto.
      left. apply in_or_app. now left.
    + left. apply in_or_app. right. apply in_skipn_nth. eauto.
  - intros x Hin. apply In_nth_error in Hin as [b Hb].
    destruct (Nat.lt_ge_cases b (dest_i st)) as [Hlt | Hge].
    + destruct (Hdst b x Hlt Hb) as [H | H]; auto.
      left. apply in_or_app. now left.
    + left. apply in_or_app. right. apply in_skipn_nth. eauto.
  - intros s Hin. apply in_app_or in Hin as [Hin | Hin]; [auto |].
    apply in_skipn_nth in Hin as (a & _ & Ha). eapply nth_error_In; eassumption.
  - intros x Hin. apply in_app_or in Hin as [Hin | Hin]; [auto |].
    apply in_skipn_nth in Hin as (b & _ & Hb). eapply nth_error_In; eassumption.
Qed.

(** X9. Whatever the order of the listings, the plan accounts for every
    entry: a source entry is in the create list or a destination entry
    bears its name; a destination entry is in the delete list or bears
    the name of a source entry. And the create list holds source entries
    only, the delete list destination entries only. *)
Theorem plan_accounts_for_every_entry :
  forall (ignore : bool) (src dest : string) (dest_ext : option string)
         (src_fps dest_fps : list string) (env : os_env) (h h' : list event)
         (c d : list string),
    merge_loop ignore src dest dest_ext src_fps dest_fps env h
    = (Ok (c, d), h') ->
    (forall s, In s src_fps ->
               In s c \/ In (sort_key dest_ext s) dest_fps)
    /\ (forall x, In x dest_fps ->
                  In x d \/ exists s, In s src_fps /\ sort_key dest_ext s = x)
    /\ (forall s, In s c -> In s src_fps)
    /\ (forall x, In x d -> In x dest_fps).
Proof.
  intros ignore src dest dest_ext src_fps dest_fps env h h' c d Hrun.
  exact (plan_accounts_for_every_entry_aux ignore src dest dest_ext
           src_fps dest_fps env h h' c d Hrun).
Qed.

Section DifferExact.

Variable ignore : bool.
Variables src dest : string.
Variable dest_ext : option string.
Variables src_fps dest_fps : list string.
Variable env : os_env.

Local Abbreviation body := (loop_body ignore src dest dest_ext src_fps dest_fps).
Local Abbreviation cond := (loop_cond src_fps dest_fps).
Local Abbreviation key := (sort_key dest_ext).
Local Abbreviation wanted_entry :=
  (wanted ignore env src dest key dest_fps).

Hypothesis src_ascends : ascending_by key src_fps.
Hypothesis dest_ascends : ascending_by (fun d => d) dest_fps.

(** The turn at a matched pair, when it succeeds. *)
Lemma body_equal_ok (st st1 : merge_state) (s : string) (h h1 : list event) :
  nth_error src_fps (src_i st) = Some s ->
  nth_error dest_fps (dest_i st) = Some (key s) ->
  body st env h = (Ok st1, h1) ->
  st1 = {| src_i := src_i st + 1; dest_i := dest_i st + 1;
           create := if (negb ignore && newer env src dest key s)%bool
                     then create st ++ [s] else create st;
           delete := delete st |}.
Proof.
  intros Hs Hd Hb.
  assert (Heq : str_eq (key s) (key s) = true) by apply String.eqb_refl.
  destruct (bool_dec ignore true) as [Hig | Hig].
  - rewrite (body_equal_unchecked _ _ _ _ _ _ _ _ _ _ _ Hs Hd Heq Hig) in Hb.
    injection Hb as Hst _. subst st1. rewrite Hig. reflexivity.
  - apply not_true_is_false in Hig.
    destruct (mtime_of env (join src s)) as [ms |] eqn:Hms.
    + destruct (mtime_of env (join dest (key s))) as [md |] eqn:Hmd.
      * rewrite (body_equal_checked _ _ _ _ _ _ _ _ _ ms md _ _
                   Hs Hd Heq Hig Hms Hmd) in Hb.
        injection Hb as Hst _. subst st1.
        unfold newer. rewrite Hms, Hmd, Hig. reflexivity.
      * exfalso. rewrite (body_read _ _ _ _ _ _ _ _ _ _ _ Hs Hd), Heq, Hig in Hb.
        cbn [negb] in Hb. unfold bind at 1 in Hb. unfold bind at 1 in Hb.
        rewrite (getmtime_some _ _ _ _ Hms) in Hb.
        unfold bind at 1 in Hb. unfold getmtime, bind, emit, ask, raise in Hb.
        rewrite Hmd in Hb. discriminate Hb.
    + exfalso. rewrite (body_read _ _ _ _ _ _ _ _ _ _ _ Hs Hd), Heq, Hig in Hb.
      cbn [negb] in Hb. unfold bind at 1 in Hb. unfold bind at 1 in Hb.
      unfold getmtime, bind, emit, ask, raise in Hb.
      rewrite Hms in Hb. discriminate Hb.
Qed.

Lemma lt_neq (a b : string) : str_lt a b = true -> a <> b.
Proof.
  unfold str_lt. intros H ->. now rewrite compare_refl in H.
Qed.

Lemma lt_trans (a b c : string) :
  str_lt a b = true -> str_lt b c = true -> str_lt a c = true.
Proof.
  unfold str_lt. intros H1 H2.
  destruct (String.compare a b) eqn:E1; try discriminate.
  destruct (String.compare b c) eqn:E2; try discriminate.
  now rewrite (compare_Lt_trans _ _ _ E1 E2).
Qed.

Lemma exact_step (st st1 : merge_state) (h h1 : list event) :
  cond st = true ->
  body st env h = (Ok st1, h1) ->
  merge_inv key src_fps dest_fps st ->
  exact_inv ignore env src dest key src_fps dest_fps st ->
  exact_inv ignore env src dest key src_fps dest_fps st1.
Proof.
  intros Hc Hb (Hsd & Hds & _ & _) (Hcr & Hpassed & Hdel).
  destruct (body_ok_cases _ _ _ _ _ _ _ _ _ _ _ Hc Hb)
    as (s & d & Hs & Hd & [(Ekey & _) | [[G ->] | [L ->]]]).
  - subst d. rewrite (body_equal_ok _ _ _ _ _ Hs Hd Hb).
    unfold exact_inv. cbn [src_i dest_i create delete]. repeat split.
    + intros x Hx.
      destruct (negb ignore && newer env src dest key s)%bool eqn:Est; [| auto].
      apply in_app_or in Hx as [Hx | [<- | []]]; [auto |].
      right. apply andb_true_iff in Est as [Eig Enew].
      apply negb_true_iff in Eig. auto.
    + intros a s0 Ha Hs0 Hw.
      destruct (Nat.eq_dec a (src_i st)) as [-> | Hne].
      * rewrite Hs in Hs0. inversion Hs0; subst s0.
        destruct Hw as [Hno | [Eig Enew]].
        -- exfalso. apply Hno. eapply nth_error_In; eassumption.
        -- rewrite Eig, Enew. apply in_or_app. right. now left.
      * assert (In s0 (create st)) by (apply (Hpassed a); auto; lia).
        destruct (negb ignore && newer env src dest key s)%bool; [| auto].
        apply in_or_app. now left.
    + intros b d0 Hb0 Hd0 Hno.
      destruct (Nat.eq_dec b (dest_i st)) as [-> | Hne].
      * rewrite Hd in Hd0. inversion Hd0; subst d0. exfalso.
        apply (Hno s); [eapply nth_error_In; eassumption | reflexivity].
      * apply (Hdel b); auto; lia.
  - unfold exact_inv. cbn [src_i dest_i create delete]. repeat split.
    + exact Hcr.
    + exact Hpassed.
    + intros b d0 Hb0 Hd0 Hno. apply in_or_app.
      destruct (Nat.eq_dec b (dest_i st)) as [-> | Hne].
      * rewrite Hd in Hd0. inversion Hd0; subst d0. right. now left.
      * left. apply (Hdel b); auto; lia.
  - unfold exact_inv. cbn [src_i dest_i create delete]. repeat split.
    + intros x Hx. apply in_app_or in Hx as [Hx | [<- | []]]; [auto |].
      left. intros Hin. apply In_nth_error in Hin as [b Hb0].
      destruct (Nat.lt_ge_cases b (dest_i st)) as [Hlt | Hge].
      * apply (lt_neq _ _ (Hds (src_i st) b s (key s) Hlt (Nat.le_refl _) Hs Hb0)).
        reflexivity.
      * destruct (Nat.eq_dec b (dest_i st)) as [-> | Hne].
        -- rewrite Hd in Hb0. inversion Hb0; subst d.
           now apply (lt_neq _ _ L).
        -- assert (Hlt : str_lt d (key s) = true)
             by (apply (dest_ascends (dest_i st) b); auto; lia).
           now apply (lt_neq _ _ (lt_trans _ _ _ L Hlt)).
    + intros a s0 Ha Hs0 Hw. apply in_or_app.
      destruct (Nat.eq_dec a (src_i st)) as [-> | Hne].
      * rewrite Hs in Hs0. inversion Hs0; subst s0. right. now left.
      * left. apply (Hpassed a); auto; lia.
    + exact Hdel.
Qed.

End DifferExact.

Lemma differ_exact_aux :
  forall (ignore : bool) (src dest : string) (dest_ext : option string)
         (src_fps dest_fps : list string) (env : os_env) (h h' : list event)
         (c d : list string),
    ascending_by (sort_key dest_ext) src_fps ->
    ascending_by (fun x => x) dest_fps ->
    merge_loop ignore src dest dest_ext src_fps dest_fps env h
    = (Ok (c, d), h') ->
    (forall s, In s c <->
               In s src_fps
               /\ (~ In (sort_key dest_ext s) dest_fps
                   \/ (ignore = false
                       /\ newer env src dest (sort_key dest_ext) s = true)))
    /\ (forall x, In x d <->
                  In x dest_fps
                  /\ forall s, In s src_fps -> sort_key dest_ext s <> x).
Proof.
  intros ignore src dest dest_ext src_fps dest_fps env h h' c d Hsa Hda Hrun.
  destruct (merge_loop_sound _ _ _ _ _ _ Hsa Hda _ _ _ _ _ Hrun)
    as [Hc_src Hd_sound].
  destruct (plan_accounts_for_every_entry_aux _ _ _ _ _ _ _ _ _ _ _ Hrun)
    as (_ & Hd_all & _ & _).
  unfold merge_loop, bind in Hrun.
  destruct (while_loop _ _ _ _ _ _ _ _ env h) as [[st | e | k |] h1] eqn:Hloop;
    try discriminate.
  unfold ret, leftovers in Hrun. rewrite !append_all_app in Hrun.
  inversion Hrun; subst; clear Hrun.
  assert (Hexit : loop_cond src_fps dest_fps st = false).
  { eapply while_loop_ok_exit; [| exact Hloop]. unfold remaining; simpl; lia. }
  assert (Hinv : merge_inv (sort_key dest_ext) src_fps dest_fps st
                 /\ exact_inv ignore env src dest (sort_key dest_ext)
                      src_fps dest_fps st).
  { eapply (while_loop_invariant ignore src dest dest_ext src_fps dest_fps env
              (fun st => merge_inv (sort_key dest_ext) src_fps dest_fps st
                         /\ exact_inv ignore env src dest (sort_key dest_ext)
                              src_fps dest_fps st));
      [| exact Hloop |].
    - intros st0 st1 h0 h2 Hc Hb [Hm He]. split.
      + eapply inv_step; eassumption.
      + eapply exact_step; eassumption.
    - split; repeat split; simpl; intros; try lia; contradiction. }
  destruct Hinv as [(_ & Hds & _ & _) (Hcr & Hpassed & _)].
  split.
  - intros s. split.
    + intros Hin. split; [auto |].
      apply in_app_or in Hin as [Hin | Hin]; [now apply Hcr |].
      apply in_skipn_nth in Hin as (a & Hge & Ha). left. intros Hk.
      apply In_nth_error in Hk as [b Hb].
      unfold loop_cond in Hexit. apply andb_false_iff in Hexit as [Hx | Hx];
        apply Nat.ltb_ge in Hx.
      * assert (a < List.length src_fps) by (apply nth_error_Some; congruence).
        lia.
      * assert (Hlt : b < dest_i st).
        { assert (b < List.length dest_fps)
            by (apply nth_error_Some; congruence). lia. }
        pose proof (Hds a b s _ Hlt Hge Ha Hb) as Hcmp.
        unfold str_lt in Hcmp. rewrite compare_refl in Hcmp. discriminate.
    + intros [Hin Hw]. apply in_or_app.
      apply In_nth_error in Hin as [a Ha].
      destruct (Nat.lt_ge_cases a (src_i st)) as [Hlt | Hge].
      * left. now apply (Hpassed a).
      * right. apply in_skipn_nth. eauto.
  - intros x. split; [apply Hd_sound |].
    intros [Hin Hno]. destruct (Hd_all x Hin) as [H | (s & Hs & Hk)]; [exact H |].
    exfalso. now apply (Hno s).
Qed.

(** X10. For ascending listings the differ returns the set difference. The
    create list holds exactly the source entries that no destination
    entry is named after, and, when the check is enabled, those that are
    newer than the destination entry named after them. The delete list
    holds exactly the destination entries named after no source
    entry. *)
Theorem differ_exact :
  forall (ignore : bool) (src dest : string) (dest_ext : option string)
         (src_fps dest_fps : list string) (env : os_env) (h h' : list event)
         (c d : list string),
    ascending_by (sort_key dest_ext) src_fps ->
    ascending_by (fun x => x) dest_fps ->
    merge_loop ignore src dest dest_ext src_fps dest_fps env h
    = (Ok (c, d), h') ->
    (forall s, In s c <->
               In s src_fps
               /\ (~ In (sort_key dest_ext s) dest_fps
                   \/ (ignore = false
                       /\ newer env src dest (sort_key dest_ext) s = true)))
    /\ (forall x, In x d <->
                  In x dest_fps
                  /\ forall s, In s src_fps -> sort_key dest_ext s <> x).
Proof.
  intros ignore src dest dest_ext src_fps dest_fps env h h' c d Hsa Hda Hrun.
  exact (differ_exact_aux ignore src dest dest_ext src_fps dest_fps env h h'
           c d Hsa Hda Hrun).
Qed.

Ltac solve_ascending :=
  intros [| [| [| a]]] [| [| [| b]]] x y Hlt Hx Hy; simpl in *;
  try lia; try discriminate;
  try (destruct a; discriminate); try (destruct b; discriminate);
  inversion Hx; inversion Hy; subst; reflexivity.

Lemma plan_accounts_for_every_entry_witness :
  (forall s, In s ["a.wav"; "c.wav"]%string ->
             In s ["a.wav"; "c.wav"]%string
             \/ In (sort_key (Some ".mp3"%string) s) ["b.mp3"%string])
  /\ (forall x, In x ["b.mp3"%string] ->
                In x ["b.mp3"%string]
                \/ exists s, In s ["a.wav"; "c.wav"]%string
                             /\ sort_key (Some ".mp3"%string) s = x)
  /\ (forall s, In s ["a.wav"; "c.wav"]%string -> In s ["a.wav"; "c.wav"]%string)
  /\ (forall x, In x ["b.mp3"%string] -> In x ["b.mp3"%string]).
Proof.
  apply (plan_accounts_for_every_entry false "S" "D" (Some ".mp3"%string)
           ["a.wav"; "c.wav"]%string ["b.mp3"%string] Samples.library_env [] []
           ["a.wav"; "c.wav"]%string ["b.mp3"%string]).
  reflexivity.
Defined.

Lemma differ_exact_witness :
  (forall s, In s ["a.wav"; "b.wav"]%string <->
             In s ["a.wav"; "b.wav"]%string
             /\ (~ In (sort_key (Some ".mp3"%string) s) ["b.mp3"; "c.mp3"]%string
                 \/ (false = false
                     /\ newer Samples.touched_env "S" "D"
                          (sort_key (Some ".mp3"%string)) s = true)))
  /\ (forall x, In x ["c.mp3"%string] <->
                In x ["b.mp3"; "c.mp3"]%string
                /\ forall s, In s ["a.wav"; "b.wav"]%string ->
                             sort_key (Some ".mp3"%string) s <> x).
Proof.
  apply (differ_exact false "S" "D" (Some ".mp3"%string)
           ["a.wav"; "b.wav"]%string ["b.mp3"; "c.mp3"]%string
           Samples.touched_env []
           [EGetmtime "S/b.wav"; EGetmtime "D/b.mp3"]
           ["a.wav"; "b.wav"]%string ["c.mp3"%string]).
  - solve_ascending.
  - solve_ascending.
  - reflexivity.
Defined.

Lemma ascending_map (key : string -> string) (l : list string) :
  ascending_by key l -> ascending_by (fun x => x) (map key l).
Proof.
  intros H a b x y Hlt Hx Hy.
  rewrite nth_error_map in Hx, Hy.
  destruct (nth_error l a) as [s |] eqn:Ea; [| discriminate].
  destruct (nth_error l b) as [t |] eqn:Eb; [| discriminate].
  inversion Hx; inversion Hy; subst. eapply H; eassumption.
Qed.

(** X11. A destination in step with its source gives the empty plan. When the
    source listing, renamed, ascends and the destination listing is that
    renamed listing, then, the check being disabled or the modification
    times being readable and no source entry being newer, the differ
    returns no entry to create and none to delete. *)

Theorem synced_listings_empty_plan :
  forall (ignore : bool) (src dest : string) (dest_ext : option string)
         (src_fps : list string) (env : os_env) (h : list event),
    ascending_by (sort_key dest_ext) src_fps ->
    ignore = true
    \/ ((forall p, mtime_of env p <> None)
        /\ forall s, In s src_fps ->
                     newer env src dest (sort_key dest_ext) s = false) ->
    exists evs,
      merge_loop ignore src dest dest_ext src_fps
        (map (sort_key dest_ext) src_fps) env h
      = (Ok ([], []), h ++ evs).
Proof.
  intros ignore src dest dest_ext src_fps env h Hasc Hquiet.
  set (dest_fps := map (sort_key dest_ext) src_fps).
  assert (Hm : ignore = true \/ (forall p, mtime_of env p <> None))
    by (destruct Hquiet as [H | [H _]]; auto).
  destruct (while_loop_exits ignore src dest dest_ext src_fps dest_fps
              (List.length src_fps + List.length dest_fps)
              {| src_i := 0; dest_i := 0; create := []; delete := [] |}
              env h Hm) as (st & evs & E & _).
  { unfold remaining; simpl; lia. }
  exists evs.
  assert (Hrun : merge_loop ignore src dest dest_ext src_fps dest_fps env h
                 = (Ok (leftovers src_fps dest_fps st), h ++ evs)).
  { unfold merge_loop. now rewrite (bind_ok _ _ _ _ _ _ E). }
  destruct (leftovers src_fps dest_fps st) as [c d] eqn:El.
  destruct (differ_exact_aux _ _ _ _ _ _ _ _ _ _ _ Hasc
              (ascending_map _ _ Hasc) Hrun) as [Hc Hd].
  rewrite Hrun. do 2 f_equal. f_equal.
  - destruct c as [| s c]; [reflexivity |]. exfalso.
    destruct (proj1 (Hc s) (or_introl eq_refl)) as [Hin [Hno | [Hig Hnew]]].
    + apply Hno. now apply in_map.
    + destruct Hquiet as [Ht | [_ Hold]]; [congruence |].
      rewrite (Hold s Hin) in Hnew. discriminate.
  - destruct d as [| x d]; [reflexivity |]. exfalso.
    destruct (proj1 (Hd x) (or_introl eq_refl)) as [Hin Hno].
    apply in_map_iff in Hin as (s & Hk & Hs). now apply (Hno s).
Qed.

Lemma synced_listings_empty_plan_witness :
  exists evs,
    merge_loop false "S" "D" (Some ".mp3"%string) ["a.wav"; "b.wav"]%string
      (map (sort_key (Some ".mp3"%string)) ["a.wav"; "b.wav"]%string)
      Samples.library_env []
    = (Ok ([], []), [] ++ evs).
Proof.
  apply (synced_listings_empty_plan false "S" "D" (Some ".mp3"%string)
           ["a.wav"; "b.wav"]%string Samples.library_env []).
  - solve_ascending.
  - right. split; [intros p; discriminate |].
    intros s Hs. reflexivity.
Defined.

Lemma while_loop_cond_false (ignore : bool) (src dest : string)
    (dest_ext : option string) (src_fps dest_fps : list string) (fuel : nat)
    (st : merge_state) (env : os_env) (h : list event) :
  loop_cond src_fps dest_fps st = false ->
  while_loop ignore src dest dest_ext src_fps dest_fps fuel st env h = (Ok st, h).
Proof. intros Hc. destruct fuel; cbn [while_loop]; now rewrite Hc. Qed.

Lemma merge_loop_one_side_empty (ignore : bool) (src dest : string)
    (dest_ext : option string) (src_fps dest_fps : list string)
    (env : os_env) (h : list event) :
  src_fps = [] \/ dest_fps = [] ->
  merge_loop ignore src dest dest_ext src_fps dest_fps env h
  = (Ok (src_fps, dest_fps), h).
Proof.
  intros Hempty. unfold merge_loop.
  rewrite (bind_ok _ _ _ _ h {| src_i := 0; dest_i := 0; create := [];
                                delete := [] |}).
  - unfold ret, leftovers. now rewrite !append_all_app.
  - apply while_loop_cond_false. unfold loop_cond.
    destruct Hempty as [-> | ->]; simpl; [reflexivity | apply andb_false_r].
Qed.

(** X13. A root that does not exist, or cannot be read, counts as an empty
    tree. With no destination every tracked source file is to be
    created and nothing deleted; with no source every tracked
    destination file is to be deleted. Neither case is an error, and no
    modification time is read. *)

Theorem missing_root_is_empty :
  forall (ignore : bool) (src dest : string) (e : string) (exts : list string)
         (dest_ext : option string) (env : os_env) (h : list event),
    (walk_top (tree_at env dest) = [] ->
     operations_to_sync ignore src dest (e :: exts) dest_ext env h
     = (Ok (list_sort (listing (tree_at env src) (e :: exts)), []),
        h ++ [EWalk src; EWalk dest]))
    /\ (walk_top (tree_at env src) = [] ->
        operations_to_sync ignore src dest (e :: exts) dest_ext env h
        = (Ok ([], list_sort
                     (listing (tree_at env dest)
                        (match dest_ext with
                         | Some e0 => if truthy dest_ext then [e0] else e :: exts
                         | None => e :: exts
                         end))),
           h ++ [EWalk src; EWalk dest])).
Proof.
  intros ignore src dest e exts dest_ext env h.
  split; intros Hempty; unfold operations_to_sync;
    rewrite (bind_ok _ _ _ _ _ _ (sorted_filtered_paths_run _ _ _ _));
    rewrite (bind_ok _ _ _ _ _ _ (sorted_filtered_paths_run _ _ _ _)).
  - unfold listing at 2. rewrite Hempty. cbn [flat_map list_sort fold_right].
    rewrite merge_loop_one_side_empty by now right.
    now rewrite <- app_assoc.
  - unfold listing at 1. rewrite Hempty. cbn [flat_map list_sort fold_right].
    rewrite merge_loop_one_side_empty by now left.
    now rewrite <- app_assoc.
Qed.

(* ================================================================== *)
(** ** [main]: the report, then the three stages *)
(* ================================================================== *)

Lemma bind_ext {A B} (m : M A) (f g : A -> M B) (env : os_env)
    (h : list event) :
  (forall a h1, f a env h1 = g a env h1) ->
  bind m f env h = bind m g env h.
Proof.
  intros Hfg. unfold bind.
  destruct (m env h) as [[a | e | c |] h1]; try reflexivity. apply Hfg.
Qed.

Lemma main_split (a : args) (env : os_env) (h : list event) :
  main a env h = bind (main_prefix a) main_continue env h.
Proof.
  unfold main, main_prefix.
  repeat (rewrite bind_assoc; apply bind_ext; intros ? ?).
  destruct (negb _); reflexivity.
Qed.

Lemma report_of_read (e : event) : read_event e -> report_event e.
Proof. destruct e; simpl; auto. Qed.

Lemma runs_effective_jobs (env : os_env) (j : Z) :
  runs env report_event (fun _ => True) (effective_jobs j).
Proof.
  unfold effective_jobs.
  eapply (runs_bind _ _ (fun _ => True)); [| intros; now apply runs_ret].
  destruct (j <=? 0)%Z; [| now apply runs_ret].
  eapply runs_bind; [apply runs_emit; exact I |]. intros _ _.
  eapply runs_bind; [apply runs_ask |]. intros e _.
  destruct (cpu_count e); [now apply runs_ret | apply runs_raise].
Qed.

Lemma runs_normalize_exts (env : os_env) (P : event -> Prop) (s : string) :
  runs env P (fun _ => True) (normalize_exts s).
Proof.
  unfold normalize_exts. apply runs_map_m. intros x _. now apply runs_lift.
Qed.

Lemma runs_user_confirm_from (env : os_env) (lines : list string) :
  runs env report_event (fun b => operator_answer lines = Some b)
       (user_confirm_from lines).
Proof.
  induction lines as [| line rest IH]; cbn [user_confirm_from operator_answer].
  - eapply runs_bind; [apply runs_emit; exact I |]. intros _ _. apply runs_raise.
  - eapply runs_bind; [apply runs_emit; exact I |]. intros _ _.
    fold (normalized_answer line). fold (valid_answer line).
    destruct (valid_answer line); [now apply runs_ret | exact IH].
Qed.

Lemma runs_user_confirm (env : os_env) :
  runs env report_event (fun b => operator_answer (stdin env) = Some b)
       user_confirm.
Proof.
  unfold user_confirm. eapply runs_bind; [apply runs_ask |].
  intros e ->. apply runs_user_confirm_from.
Qed.

Lemma runs_print_all (env : os_env) (P : event -> Prop) (prefix : string)
    (l : list string) :
  (forall s, P (EPrint s)) ->
  runs env P (fun _ => True)
       (for_each l (fun f => emit (EPrint (String.append prefix f)))).
Proof.
  intros HP. apply runs_for_each. intros x _. apply runs_emit. apply HP.
Qed.

(** The first part of [main] only reports, and hands over as it
    should. *)
Lemma runs_main_prefix (a : args) (env : os_env) :
  runs env report_event (handed_over a env) (main_prefix a).
Proof.
  unfold main_prefix.
  eapply (runs_bind _ _ (fun _ => True)).
  { destruct (_ || _)%bool; [| now apply runs_ret].
    eapply runs_bind; [apply runs_emit; exact I |]. intros. apply runs_exit. }
  intros _ _.
  eapply (runs_bind _ _ (fun _ => True)); [apply runs_effective_jobs |].
  intros njobs _.
  eapply (runs_bind _ _ (fun _ => True)); [now apply runs_lift |].
  intros to_ext' _. cbv zeta.
  eapply (runs_bind _ _ (fun _ => True)); [apply runs_normalize_exts |].
  intros from_exts' _.
  eapply (runs_bind _ _ (fun l => ~ copies a -> l = [])).
  { change (copy_exts (set_to_ext a to_ext')) with (copy_exts a).
    destruct (copy_exts a) as [s |] eqn:Ec; [| now apply runs_ret].
    destruct (str_eq s EmptyString) eqn:Es; [now apply runs_ret |].
    eapply runs_post; [| apply runs_normalize_exts].
    intros l _ Hno. exfalso. apply Hno. exists s. split; [exact Ec |].
    now apply String.eqb_neq. }
  intros copy_exts' Hcopy.
  eapply (runs_bind _ _ (fun _ => True)).
  { eapply runs_events; [apply report_of_read | apply runs_operations_to_sync]. }
  intros conv _.
  eapply (runs_bind _ _ (fun cp => ~ copies a -> fst cp = [])).
  { destruct copy_exts' as [| c l].
    - now apply runs_ret.
    - eapply runs_post;
        [| eapply runs_events;
           [apply report_of_read | apply runs_operations_to_sync]].
      intros cp _ Hno. now apply Hcopy in Hno. }
  intros cp Hcp.
  eapply (runs_bind _ _ (fun _ => True));
    [apply runs_print_all; intros; exact I |]. intros _ _.
  eapply (runs_bind _ _ (fun _ => True));
    [apply runs_print_all; intros; exact I |]. intros _ _.
  eapply (runs_bind _ _ (fun _ => True));
    [apply runs_print_all; intros; exact I |]. intros _ _.
  change (dry_run (set_to_ext a to_ext')) with (dry_run a).
  change (noconfirm (set_to_ext a to_ext')) with (noconfirm a).
  eapply (runs_bind _ _ (fun g : bool =>
                           if g then proceeds a env else ~ proceeds a env)).
  { destruct (dry_run a) eqn:Edry.
    - eapply runs_bind; [apply runs_emit; exact I |]. intros _ _.
      apply runs_ret. now left.
    - eapply (runs_bind _ _ (fun r : bool =>
                               if r then ~ proceeds a env else proceeds a env)).
      + destruct (noconfirm a) eqn:Enc; cbn [negb].
        * apply runs_ret. right. now left.
        * eapply runs_bind; [apply runs_user_confirm |].
          intros yes Hyes. apply runs_ret. destruct yes; cbn [negb].
          -- right. now right.
          -- intros [H | [H | H]]; congruence.
      + intros refused Hr. destruct refused; [now apply runs_ret |].
        eapply runs_bind; [apply runs_emit; exact I |]. intros _ _.
        now apply runs_ret. }
  intros go_on Hgo. destruct go_on; cbn [negb]; apply runs_ret.
  - unfold handed_over. repeat split; auto.
  - exact Hgo.
Qed.

Lemma runs_delete_files (env : os_env) (P : event -> Prop) (a : args)
    (fs : list string) :
  (forall s, P (EPrint s)) ->
  (dry_run a = false ->
   forall p, P (ERemove p) /\ P (EScandir p) /\ P (ERemovedirs p)) ->
  runs env P (fun _ => True) (delete_files a fs).
Proof.
  intros Hprint Hdel. unfold delete_files. apply runs_for_each. intros f _.
  eapply runs_bind; [apply runs_emit, Hprint |]. intros _ _.
  destruct (dry_run a) eqn:Edry; [now apply runs_ret |].
  eapply runs_bind; [apply runs_oscall, Hdel; reflexivity |]. intros _ _.
  eapply (runs_bind _ _ (fun _ => True)).
  - unfold dir_empty.
    eapply runs_bind; [apply runs_oscall, Hdel; reflexivity |]. intros _ _.
    eapply runs_bind; [apply runs_ask |]. intros e _.
    eapply runs_bind; [apply runs_past |]. intros h0 _. now apply runs_ret.
  - intros empty _. destruct empty; [| now apply runs_ret].
    apply runs_oscall, Hdel; reflexivity.
Qed.

Lemma runs_copy_files (env : os_env) (P : event -> Prop) (a : args)
    (fs : list string) :
  (forall s, P (EPrint s)) ->
  (forall p, P (EMakedirs p)) ->
  (dry_run a = false -> forall s d, P (ECopy s d)) ->
  runs env P (fun _ => True) (copy_files a fs).
Proof.
  intros Hprint Hmk Hcp. unfold copy_files. apply runs_for_each. intros f _.
  eapply runs_bind; [apply runs_emit, Hprint |]. intros _ _.
  eapply runs_bind; [apply runs_oscall, Hmk |]. intros _ _.
  destruct (dry_run a) eqn:Edry; [now apply runs_ret |].
  apply runs_oscall, Hcp; reflexivity.
Qed.

Lemma runs_start_threads (env : os_env) (P : event -> Prop) (n : Z) :
  P (EStartThreads n) -> runs env P (fun _ => True) (start_threads n).
Proof.
  intros He h. unfold start_threads, interruptible.
  destruct (call_fails env h _); [| destruct (interrupted env h)];
    eexists; exists [EStartThreads n]; repeat split; auto.
Qed.

Lemma runs_interruptible (env : os_env) (P : event -> Prop) (e : event) :
  P e -> runs env P (fun _ => True) (interruptible e).
Proof.
  intros He h. unfold interruptible.
  destruct (interrupted env h); eexists; exists [e]; repeat split; auto.
Qed.

Lemma runs_queue_join (env : os_env) (P : event -> Prop) :
  P EQueueJoin -> runs env P (fun _ => True) queue_join.
Proof.
  intros He h. unfold queue_join.
  destruct (join_blocks env h); [| now apply runs_interruptible].
  exists Blocked, [EQueueJoin]. repeat split; auto.
Qed.

Lemma runs_try_except (env : os_env) (P : event -> Prop)
    (Q Q' : unit -> Prop) (body handler : M unit) :
  runs env P Q body -> runs env P Q' handler ->
  runs env P (fun _ => True) (try_except body handler).
Proof.
  intros Hb Hh h. destruct (Hb h) as (r & evs & E & Hevs & _).
  unfold try_except. rewrite E. destruct r as [a | e | c |].
  - exists (Ok a), evs. repeat split; auto.
  - destruct (Hh (h ++ evs)) as (r' & evs' & E' & Hevs' & _).
    exists r', (evs ++ evs'). rewrite E', app_assoc.
    repeat split; auto. now apply Forall_app.
  - destruct (Hh (h ++ evs)) as (r' & evs' & E' & Hevs' & _).
    exists r', (evs ++ evs'). rewrite E', app_assoc.
    repeat split; auto. now apply Forall_app.
  - exists Blocked, evs. repeat split; auto.
Qed.

(** The [try] block of [main] and its handler. *)
Lemma runs_queue_block (env : os_env) (P : event -> Prop)
    (convs : list string) :
  (forall e, queue_event e -> P e) ->
  runs env P (fun _ => True)
       (try_except
          (for_each convs (fun rel_fp => interruptible (EQueuePut rel_fp)) ;;;
           queue_join)
          (emit (EPrint "Interrupted"))).
Proof.
  intros HP. eapply runs_try_except.
  - eapply (runs_bind _ _ (fun _ => True)).
    + apply runs_for_each. intros f _. apply runs_interruptible, HP. exact I.
    + intros _ _. apply runs_queue_join, HP. exact I.
  - apply runs_emit, HP. exact I.
Qed.

Lemma runs_queue (env : os_env) (P : event -> Prop) (njobs : Z)
    (convs : list string) :
  (forall e, queue_event e -> P e) ->
  runs env P (fun _ => True)
       (start_threads njobs ;;;
        try_except
          (for_each convs (fun rel_fp => interruptible (EQueuePut rel_fp)) ;;;
           queue_join)
          (emit (EPrint "Interrupted"))).
Proof.
  intros HP.
  eapply runs_bind; [apply runs_start_threads, HP; exact I |]. intros _ _.
  now apply runs_queue_block.
Qed.

(** [main], whatever predicate the events are to satisfy: the report
    satisfies it; so does each later call that the arguments and the
    operator's answer allow. *)
Lemma runs_main (a : args) (env : os_env) (P : event -> Prop) :
  (forall e, report_event e -> P e) ->
  (proceeds a env -> dry_run a = false ->
   forall p, P (ERemove p) /\ P (EScandir p) /\ P (ERemovedirs p)) ->
  (proceeds a env -> copies a -> forall p, P (EMakedirs p)) ->
  (proceeds a env -> copies a -> dry_run a = false ->
   forall s d, P (ECopy s d)) ->
  (proceeds a env -> forall e, queue_event e -> P e) ->
  runs env P (fun _ => True) (main a).
Proof.
  intros Hrep Hdel Hmk Hcp Hq h. rewrite main_split. revert h.
  eapply runs_bind;
    [eapply runs_events; [exact Hrep | apply runs_main_prefix] |].
  intros [[[[[a' njobs] dels] cps] convs] |] Hd; cbn [main_continue];
    [| now apply runs_ret].
  destruct Hd as (Hgo & Edry & _ & _ & Hnocopy).
  unfold main_tail.
  eapply runs_bind.
  { apply runs_delete_files; [intros; apply Hrep; exact I |].
    rewrite Edry. now apply Hdel. }
  intros _ _. eapply (runs_bind _ _ (fun _ => True)).
  { destruct cps as [| f cps]; [now apply runs_ret |].
    assert (Hc : copies a).
    { destruct (copy_exts a) as [s |] eqn:Ec.
      - destruct (string_dec s EmptyString) as [-> | Hne].
        + exfalso. assert (H : f :: cps = []); [| discriminate H].
          apply Hnocopy. intros (s & Es & Hs). congruence.
        + now exists s.
      - exfalso. assert (H : f :: cps = []); [| discriminate H].
        apply Hnocopy. intros (s & Es & Hs). congruence. }
    apply runs_copy_files; [intros; apply Hrep; exact I | now apply Hmk |].
    rewrite Edry. now apply Hcp. }
  intros _ _. apply runs_queue. now apply Hq.
Qed.

(** X14. In simulation mode [main] removes nothing, copies nothing and runs
    no command, whatever the trees and the answers of the system; and a
    worker's turn does nothing but print the substituted command, that
    is the command template with [@source] replaced by the path of the
    source file and [@dest] by the path of the destination file with its
    new extension, and mark the job done. (The copy loop may still call
    [os.makedirs].) *)
Theorem simulation_removes_and_copies_nothing :
  forall (a : args) (env : os_env),
    dry_run a = true ->
    (forall h, exists r evs,
        main a env h = (r, h ++ evs) /\ Forall simulation_event evs)
    /\ (forall rel_fp h,
           worker_job a rel_fp env h
           = (Ok tt,
              h ++ [EPrintCmd
                      (substitute (CONVERT_CMD a) (join (SOURCE a) rel_fp)
                         (join (DEST a) (replace_ext rel_fp (to_ext a))));
                    ETaskDone])).
Proof.
  intros a env Hdry. split.
  - intros h.
    destruct (runs_main a env simulation_event) with (h := h)
      as (r & evs & E & Hall & _).
    + intros [] H; simpl in *; auto.
    + intros _ Hf. congruence.
    + intros _ _ p. exact I.
    + intros _ _ Hf. congruence.
    + intros _ [] H; simpl in *; auto.
    + eauto.
  - intros rel_fp h. now apply worker_job_dry_run_prints.
Qed.

Lemma simulation_removes_and_copies_nothing_witness :
  (exists r evs,
      main (Samples.library_args true) Samples.library_env [] = (r, [] ++ evs)
      /\ Forall simulation_event evs)
  /\ worker_job (set_to_ext (Samples.library_args true) ".mp3") "a.wav"
       Samples.library_env []
     = (Ok tt,
        [EPrintCmd ["ffmpeg"; "-i"; "S/a.wav"; "D/a.mp3"]%string; ETaskDone]).
Proof.
  split.
  - destruct (simulation_removes_and_copies_nothing
                (Samples.library_args true) Samples.library_env)
      as [Hmain _]; [reflexivity | apply Hmain].
  - destruct (simulation_removes_and_copies_nothing
                (set_to_ext (Samples.library_args true) ".mp3")
                Samples.library_env) as [_ Hworker]; [reflexivity |].
    rewrite Hworker. reflexivity.
Defined.

(** X15. Without [--dry-run] and [--noconfirm], unless the operator answers
    yes, the run ends after the report: it has walked and printed, and
    made no other call; nothing is removed, created, copied or
    queued. *)
Theorem nothing_happens_without_a_yes :
  forall (a : args) (env : os_env),
    dry_run a = false ->
    noconfirm a = false ->
    operator_answer (stdin env) <> Some true ->
    forall h, exists r evs,
      main a env h = (r, h ++ evs) /\ Forall report_event evs.
Proof.
  intros a env Hdry Hnc Hans h.
  assert (Hno : ~ proceeds a env) by (intros [H | [H | H]]; congruence).
  destruct (runs_main a env report_event) with (h := h)
    as (r & evs & E & Hall & _); try (intros; contradiction); eauto.
Qed.

Lemma nothing_happens_without_a_yes_witness :
  exists r evs,
    main Samples.asking_args (Samples.answering_env ["what"; "N"]%string) []
    = (r, [] ++ evs)
    /\ Forall report_event evs.
Proof.
  apply (nothing_happens_without_a_yes Samples.asking_args
           (Samples.answering_env ["what"; "N"]%string)).
  - reflexivity.
  - reflexivity.
  - discriminate.
Defined.

(** X16. Without [--copy] (or with an empty one) [main] copies no file and
    creates no directory. *)
Theorem no_copy_without_copy_option :
  forall (a : args) (env : os_env),
    copy_exts a = None \/ copy_exts a = Some EmptyString ->
    forall h, exists r evs,
      main a env h = (r, h ++ evs) /\ Forall not_copying evs.
Proof.
  intros a env Hc h.
  assert (Hno : ~ copies a).
  { intros (s & Es & Hs). destruct Hc as [Hc | Hc]; congruence. }
  destruct (runs_main a env not_copying) with (h := h)
    as (r & evs & E & Hall & _); try (intros; contradiction); eauto.
  - intros [] H; simpl in *; auto.
  - intros _ _ p. repeat split.
  - intros _ [] H; simpl in *; auto.
Qed.

Lemma no_copy_without_copy_option_witness :
  exists r evs,
    main Samples.asking_args Samples.library_env [] = (r, [] ++ evs)
    /\ Forall not_copying evs.
Proof.
  apply (no_copy_without_copy_option Samples.asking_args Samples.library_env).
  left. reflexivity.
Defined.













(* ================================================================== *)
(** ** The workers *)
(* ================================================================== *)


(** X19. The command a worker builds has as many tokens as the template. A
    template that holds both placeholders gives a command that names
    both paths. Every token of the command is one of the two paths or a
    token of the template that is not a placeholder: the substitution is
    made once, and a path is not substituted again. *)
Theorem substituted_command :
  forall (cmd : list string) (src_fp dest_fp : string),
    List.length (substitute cmd src_fp dest_fp) = List.length cmd
    /\ (In "@source"%string cmd -> In src_fp (substitute cmd src_fp dest_fp))
    /\ (In "@dest"%string cmd -> In dest_fp (substitute cmd src_fp dest_fp))
    /\ (forall tok, In tok (substitute cmd src_fp dest_fp) ->
                    tok = src_fp \/ tok = dest_fp
                    \/ (In tok cmd /\ tok <> "@source"%string
                        /\ tok <> "@dest"%string)).
Proof.
  intros cmd s d. unfold substitute. split; [apply length_map |].
  split; [| split].
  - intros Hin. apply in_map_iff. exists "@source"%string. now split.
  - intros Hin. apply in_map_iff. exists "@dest"%string. now split.
  - intros tok Hin. apply in_map_iff in Hin as (t & E & Ht).
    destruct (str_eq t "@source") eqn:E1; [now left |].
    destruct (str_eq t "@dest") eqn:E2; [right; now left |].
    right; right. subst tok. apply String.eqb_neq in E1, E2. auto.
Qed.

Lemma substituted_command_witness :
  In "S/a.wav"%string
     (substitute ["ffmpeg"; "-i"; "@source"; "@dest"]%string "S/a.wav" "D/a.mp3")
  /\ In "D/a.mp3"%string
        (substitute ["ffmpeg"; "-i"; "@source"; "@dest"]%string "S/a.wav" "D/a.mp3").
Proof.
  pose proof (substituted_command ["ffmpeg"; "-i"; "@source"; "@dest"]%string
                "S/a.wav" "D/a.mp3") as (_ & Hs & Hd & _).
  split; [apply Hs | apply Hd]; simpl; auto.
Defined.

(** What [subprocess_run] does, case by case. *)
Lemma subprocess_run_cases (cmd : list string) (env : os_env)
    (h : list event) :
  subprocess_run cmd env h
  = if call_fails env h (ERun cmd) then (Raised OSError, h ++ [ERun cmd])
    else match run_result env (h ++ [ERun cmd]) cmd with
         | Completed returncode stdout =>
             (Ok (returncode, stdout), h ++ [ERun cmd])
         | Fails e => (Raised e, h ++ [ERun cmd])
         | NeverEnds => (Blocked, h ++ [ERun cmd])
         end.
Proof.
  unfold subprocess_run, bind, oscall, ask, past.
  destruct (call_fails env h (ERun cmd)); [reflexivity |].
  now destruct (run_result env (h ++ [ERun cmd]) cmd).
Qed.

(** X20. A worker's turn marks the job done exactly when it ends
    normally: a turn that raises (the directory cannot be created, the
    command cannot be started, its output is not UTF-8) or that never
    ends (the command does not end) leaves the job unfinished, which is
    what [q.join()] then waits for. A turn ends normally whenever the
    directory can be created and the command runs to its end with a
    readable output, whatever status the command returns; and a dry run
    always ends normally, running nothing. *)
Theorem worker_job_outcome :
  forall (a : args) (rel_fp : string) (env : os_env) (h : list event),
  exists r evs,
    worker_job a rel_fp env h = (r, h ++ evs)
    /\ Forall worker_event evs
    /\ (In ETaskDone evs <-> r = Ok tt)
    /\ ((forall h' e, call_fails env h' e = false) ->
        (forall h' cmd, exists returncode stdout,
            run_result env h' cmd = Completed returncode stdout) ->
        r = Ok tt)
    /\ (dry_run a = true ->
        r = Ok tt /\ forall cmd, ~ In (ERun cmd) evs).
Proof.
  intros a rel_fp env h. unfold worker_job.
  destruct (dry_run a).
  - eexists. eexists. unfold bind, emit. rewrite <- app_assoc.
    split; [reflexivity |]. split; [repeat constructor |].
    repeat split; simpl; auto.
    intros cmd [Hc | [Hc | []]]; discriminate.
  - unfold bind at 1. unfold bind at 1. unfold emit at 1.
    unfold bind at 1. unfold oscall at 1.
    destruct (call_fails env _ (EMakedirs _)) eqn:F1.
    { eexists. eexists. rewrite <- app_assoc. split; [reflexivity |].
      split; [repeat constructor |].
      repeat split; simpl; auto; try discriminate.
      - intros [H | [H | []]]; discriminate.
      - intros Hnever. rewrite Hnever in F1. discriminate. }
    unfold bind at 1. rewrite subprocess_run_cases.
    destruct (call_fails env _ (ERun _)) eqn:F2.
    { eexists. eexists. rewrite <- !app_assoc. split; [reflexivity |].
      split; [repeat constructor |].
      repeat split; simpl; auto; try discriminate.
      - intros [H | [H | [H | []]]]; discriminate.
      - intros Hnever. rewrite Hnever in F2. discriminate. }
    destruct (run_result env _ _) as [returncode stdout | e |] eqn:R.
    + destruct (negb _ || verbose a)%bool.
      * eexists. eexists. unfold emit. rewrite <- !app_assoc.
        split; [reflexivity |]. split; [repeat constructor |].
        repeat split; simpl; auto 10; discriminate.
      * eexists. eexists. unfold ret, emit. rewrite <- !app_assoc.
        split; [reflexivity |]. split; [repeat constructor |].
        repeat split; simpl; auto 10; discriminate.
    + eexists. eexists. rewrite <- !app_assoc. split; [reflexivity |].
      split; [repeat constructor |].
      repeat split; simpl; auto; try discriminate.
      * intros [H | [H | [H | []]]]; discriminate.
      * intros _ Hruns. rewrite <- !app_assoc in R.
        match type of R with
        | run_result _ ?h0 ?cmd = _ =>
            destruct (Hruns h0 cmd) as (rc & out & E)
        end.
        rewrite E in R. discriminate.
    + eexists. eexists. rewrite <- !app_assoc. split; [reflexivity |].
      split; [repeat constructor |].
      repeat split; simpl; auto; try discriminate.
      * intros [H | [H | [H | []]]]; discriminate.
      * intros _ Hruns. rewrite <- !app_assoc in R.
        match type of R with
        | run_result _ ?h0 ?cmd = _ =>
            destruct (Hruns h0 cmd) as (rc & out & E)
        end.
        rewrite E in R. discriminate.
Qed.

Lemma worker_job_outcome_witness :
  exists r evs,
    worker_job (set_to_ext (Samples.library_args false) ".mp3") "a.wav"
      Samples.failing_converter_env []
    = (r, [] ++ evs)
    /\ Forall worker_event evs
    /\ (In ETaskDone evs <-> r = Ok tt)
    /\ ((forall h' e, call_fails Samples.failing_converter_env h' e = false) ->
        (forall h' cmd, exists returncode stdout,
            run_result Samples.failing_converter_env h' cmd
            = Completed returncode stdout) ->
        r = Ok tt)
    /\ (dry_run (set_to_ext (Samples.library_args false) ".mp3") = true ->
        r = Ok tt /\ forall cmd, ~ In (ERun cmd) evs).
Proof.
  exact (worker_job_outcome (set_to_ext (Samples.library_args false) ".mp3")
           "a.wav" Samples.failing_converter_env []).
Defined.

Lemma missing_root_is_empty_witness :
  operations_to_sync false "S" "nowhere" [".wav"%string] (Some ".mp3"%string)
    Samples.library_env []
  = (Ok (list_sort (listing (tree_at Samples.library_env "S") [".wav"%string]),
         []),
     [] ++ [EWalk "S"; EWalk "nowhere"])
  /\ operations_to_sync false "nowhere" "D" [".wav"%string]
       (Some ".mp3"%string) Samples.library_env []
     = (Ok ([], list_sort (listing (tree_at Samples.library_env "D")
                             [".mp3"%string])),
        [] ++ [EWalk "nowhere"; EWalk "D"]).
Proof.
  split.
  - apply (missing_root_is_empty false "S" "nowhere" ".wav" []
             (Some ".mp3"%string) Samples.library_env []).
    reflexivity.
  - apply (missing_root_is_empty false "nowhere" "D" ".wav" []
             (Some ".mp3"%string) Samples.library_env []).
    reflexivity.
Defined.

Lemma planning_only_reads_witness :
  exists plan,
    operations_to_sync true "S" "D" [".wav"%string] (Some ".mp3"%string)
      Samples.touched_env []
    = (Ok plan, [] ++ [EWalk "S"; EWalk "D"]).
Proof.
  apply (proj2 (planning_only_reads true "S" "D" [".wav"%string]
                  (Some ".mp3"%string) Samples.touched_env)).
  - reflexivity.
  - discriminate.
Defined.

(* ================================================================== *)
(** ** Hidden files; the copy plan *)
(* ================================================================== *)

(** X3. A name that is a dot followed by characters free of dots and
    separators, such as ".flac", has no extension: such a file is
    listed for no extension set of the command line. *)
Theorem hidden_file_has_no_ext :
  forall (rest : string) (exts : list string),
    contains_char dot rest = false ->
    contains_char slash rest = false ->
    ext (String dot rest) = EmptyString
    /\ (~ In EmptyString exts -> str_in (ext (String dot rest)) exts = false).
Proof.
  intros rest exts Hdot Hslash.
  assert (E : ext (String dot rest) = EmptyString).
  { unfold ext, splitext.
    assert (Hd : rfind dot (String dot rest) = 0%Z).
    { unfold rfind.
      change (String dot rest) with (String.append EmptyString (String dot rest)).
      now rewrite rfind_from_app_last. }
    assert (Hs : rfind slash (String dot rest) = (-1)%Z).
    { unfold rfind. apply rfind_from_none. simpl. exact Hslash. }
    rewrite Hd, Hs. reflexivity. }
  split; [exact E |]. intros Hno. rewrite E.
  destruct (str_in EmptyString exts) eqn:Hin; [| reflexivity].
  apply str_in_In in Hin. contradiction.
Qed.

Lemma hidden_file_has_no_ext_witness :
  ext ".flac" = EmptyString
  /\ str_in (ext ".flac") [".flac"; ".wav"]%string = false.
Proof.
  destruct (hidden_file_has_no_ext "flac" [".flac"; ".wav"]%string)
    as [E Hin]; try reflexivity.
  split; [exact E |]. apply Hin.
  intros [H | [H | []]]; discriminate H.
Defined.

Lemma copy_plan_disjoint_witness :
  ~ (In "a.jpg"%string ["a.jpg"%string] /\ In "a.jpg"%string ["c.jpg"%string]).
Proof.
  intros [Hc Hd].
  apply (copy_plan_disjoint false "S" "D" ["a.jpg"; "b.jpg"]%string
           ["b.jpg"; "c.jpg"]%string Samples.library_env []
           [EGetmtime "S/b.jpg"; EGetmtime "D/b.jpg"]
           ["a.jpg"%string] ["c.jpg"%string]) with (x := "a.jpg"%string).
  - solve_ascending.
  - solve_ascending.
  - reflexivity.
  - exact Hc.
  - exact Hd.
Defined.
